(** * Hypnotizing Double Pendulum: the simulation core, embedded and verified

    A shallow embedding of the simulation core of the program
    (pendulum.hpp, pendulum.cpp, and the reset logic of main.cpp):

    - [double] values are IEEE 754 binary64 numbers, Rocq's primitive
      [float]; every arithmetic operation below is the kernel's correctly
      rounded one, written with the grouping of the C++ expression;
    - the one [float] (binary32) expression of the program, the sample
      index of [GetDivergence], is computed with the Standard Library's
      parametric specification [SpecFloat] at precision 24;
    - [std::size_t] settings are [N], with the wrap-around modulo 2^64
      written out where the program adds; sizes of and indices into a
      [std::vector] are [nat], vectors are lists read with [!!] and
      stored into with [<[i:=v]>];
    - what C++ leaves undefined (an index outside a vector, [back()] of an
      empty vector, a floating value that does not fit the integer it is
      converted to) is the outcome [Undefined]; an exception is [Throw];
    - [sin], [cos], [fmod] (libm) and [PI] (raylib.h) are not part of the
      repository: they are the fields of the class [Extern], and every
      theorem holds for all of them. *)

From Stdlib Require Import ZArith NArith Floats SpecFloat String Ascii.
From stdpp Require Import base tactics option list.

Set Default Proof Using "Type".
#[local] Set Warnings "-inexact-float".

(* ===================================================================== *)
(** * Outcomes of C++ code *)
(* ===================================================================== *)

Inductive outcome (A : Type) : Type :=
| Ok (a : A)
| Throw (what : string)
| Undefined.
Arguments Ok {A} a.
Arguments Throw {A} what.
Arguments Undefined {A}.

#[global] Instance outcome_ret : MRet outcome := fun _ a => Ok a.
#[global] Instance outcome_bind : MBind outcome := fun _ _ k m =>
  match m with
  | Ok a => k a
  | Throw what => Throw what
  | Undefined => Undefined
  end.

(** [v[i]] on a [std::vector]: undefined outside the vector. *)
Definition at_ {A} (v : list A) (i : nat) : outcome A :=
  match v !! i with
  | Some a => Ok a
  | None => Undefined
  end.

(** [v.back()]: undefined on an empty vector. *)
Definition back {A} (v : list A) : outcome A :=
  match last v with
  | Some a => Ok a
  | None => Undefined
  end.

(** A [for] loop whose body may throw or be undefined, over the values
    the loop variable takes. *)
Fixpoint for_ {A S} (body : S -> A -> outcome S) (st : S) (range : list A) : outcome S :=
  match range with
  | [] => Ok st
  | a :: range => st' ← body st a; for_ body st' range
  end.

(* ===================================================================== *)
(** * Numbers *)
(* ===================================================================== *)

(** [std::size_t] is 64 bits wide. *)
Definition SIZE_MAX : N := 2 ^ 64 - 1.
Definition size_add (a b : N) : N := ((a + b) mod 2 ^ 64)%N.

(** Conversion of an integer to [double], rounding to nearest even. *)
Definition double_of_Z (z : Z) : float := SF2Prim (binary_normalize prec emax z 0 false).
Definition double_of_size (n : N) : float := double_of_Z (Z.of_N n).

(** ** binary32, the C++ type [float] *)
Module Float32.
Definition t := spec_float.
Definition prec : Z := 24.
Definition emax : Z := 128.
Definition of_size (n : N) : t := binary_normalize prec emax (Z.of_N n) 0 false.
Definition mul : t -> t -> t := SFmul prec emax.
Definition div : t -> t -> t := SFdiv prec emax.

(** [std::floor(float)]: the largest integral value not above the
    argument; infinities, NaN and zeros are returned as they are. *)
Definition floor (f : t) : t :=
  match f with
  | S754_finite s m e =>
      if (0 <=? e)%Z then f
      else binary_normalize prec emax (Z.shiftr (cond_Zopp s (Z.pos m)) (- e)) 0 s
  | _ => f
  end.

(** Conversion of a [float] to [std::size_t]: the value is truncated
    toward zero, and the behaviour is undefined when the truncated value
    is not one of [std::size_t]. *)
Definition to_size (f : t) : outcome N :=
  match f with
  | S754_zero _ => Ok 0%N
  | S754_finite s m e =>
      let z := Z.quot (cond_Zopp s (Z.pos m) * 2 ^ Z.max e 0) (2 ^ Z.max (- e) 0) in
      if ((0 <=? z) && (z <=? Z.of_N SIZE_MAX))%Z then Ok (Z.to_N z) else Undefined
  | _ => Undefined
  end.
End Float32.

(** [p] shifted left by [k] bits: the mantissa of a [float] is the
    integer it stands for, shifted left to 24 bits. *)
Definition shl (p : positive) (k : Z) : positive :=
  match k with
  | Z.pos k => Pos.iter xO p k
  | _ => p
  end.

(* ===================================================================== *)
(** * Data (pendulum.hpp) *)
(* ===================================================================== *)

Module Vector2Double.
Record t := mk { x : float; y : float }.
(** [Vector2Double()] under value-initialisation. *)
Definition zero : t := mk 0 0.
End Vector2Double.

Module SimulationSettings.
(** The two colour settings are read by the renderer only and are left
    out. *)
Record t := mk {
  gravity : float;
  fixedDeltaTime : float;
  trajectoryAlphaPower : float;
  pendulumsJoined : N;
  joinedPendulumsCount : N;
  trajectoryPoints : N;
  pendulumLength : float;
  pendulumMass : float;
  resetThreshold : float;
  resetSamples : N;
  resetFadeTime : float
}.
(** [SimulationSettings()], the built-in defaults. *)
Definition default : t :=
  mk 0.981 0.1666667 2.5 2 1000 50 150 10 10 100 2.5.
End SimulationSettings.

Module Pendulum.
Record t := mk {
  position : Vector2Double.t;
  velocity : Vector2Double.t;
  length : float;
  mass : float;
  angle : float;
  angularVelocity : float;
  angularAcceleration : float
}.
(** [Pendulum()] *)
Definition default : t := mk Vector2Double.zero Vector2Double.zero 0 0 0 0 0.
(** [Pendulum(length, mass, initialAngle)] *)
Definition new (length mass initialAngle : float) : t :=
  mk Vector2Double.zero Vector2Double.zero length mass initialAngle 0 0.

(** Stores into one member. *)
Definition set_position (v : Vector2Double.t) (p : t) : t :=
  mk v (velocity p) (length p) (mass p) (angle p) (angularVelocity p) (angularAcceleration p).
Definition set_angle (a : float) (p : t) : t :=
  mk (position p) (velocity p) (length p) (mass p) a (angularVelocity p) (angularAcceleration p).
Definition set_angularVelocity (w : float) (p : t) : t :=
  mk (position p) (velocity p) (length p) (mass p) (angle p) w (angularAcceleration p).
Definition set_angularAcceleration (a : float) (p : t) : t :=
  mk (position p) (velocity p) (length p) (mass p) (angle p) (angularVelocity p) a.
End Pendulum.

(** What the program takes from outside the repository: [sin], [cos] and
    [fmod] of the C library on [double], and raylib's constant [PI]
    converted to [double]. *)
Class Extern := {
  sin : float -> float;
  cos : float -> float;
  fmod : float -> float -> float;
  PI : float
}.

(* ===================================================================== *)
(** * The chain of pendulums (pendulum.cpp) *)
(* ===================================================================== *)

Module JoinedPendulum.
Record t := mk {
  pendulums : list Pendulum.t;
  trajectories : list Vector2Double.t;
  trajectoryIndex : nat
}.
(** [JoinedPendulum()] *)
Definition default : t := mk [] [] 0.

Definition set_pendulums (ps : list Pendulum.t) (c : t) : t :=
  mk ps (trajectories c) (trajectoryIndex c).

Section Physics.
Context `{Extern}.

(** The angular acceleration of the first body of a pair, as the first
    half of the loop body of [Update] computes it. *)
Definition firstBody (g a1 a2 m1 m2 l1 l2 w1 w2 : float) : float :=
  (let n1 := - g * (2 * m1 + m2) * sin a1 in
   let n2 := - m2 * g * sin (a1 - 2 * a2) in
   let n3 := (-2) * sin (a1 - a2) * m2 in
   let n4 := w2 * w2 * l2 + w1 * w1 * l1 * cos (a1 - a2) in
   let d := l1 * (2 * m1 + m2 - m2 * cos (2 * a1 - 2 * a2)) in
   (n1 + n2 + n3 * n4) / d)%float.

(** The angular acceleration of the second body of a pair, the second
    half of the loop body. *)
Definition secondBody (g a1 a2 m1 m2 l1 l2 w1 w2 : float) : float :=
  (let n1 := 2 * sin (a1 - a2) in
   let n2 := w1 * w1 * l1 * (m1 + m2) in
   let n3 := g * (m1 + m2) * cos a1 in
   let n4 := w2 * w2 * l2 * m2 * cos (a1 - a2) in
   let d := l2 * (2 * m1 + m2 - m2 * cos (2 * a1 - 2 * a2)) in
   (n1 * (n2 + n3 + n4)) / d)%float.

(** One iteration of the loop "Update angular acceleration". The state
    is the vector of pendulums together with the list of stores made to
    [angularAcceleration] so far (index and value, oldest first); that
    list is a record of the writes and is never read. [p1] and [p2] are
    references into the vector: the members read after the first store
    are read from the vector as it is then. *)
Definition accelerate (g : float) (st : list Pendulum.t * list (nat * float)) (i : nat)
  : outcome (list Pendulum.t * list (nat * float)) :=
  let '(ps, stores) := st in
  p1 ← at_ ps i;
  p2 ← at_ ps (i + 1);
  let a1 := Pendulum.angle p1 in
  let a2 := Pendulum.angle p2 in
  let m1 := Pendulum.mass p1 in
  let m2 := Pendulum.mass p2 in
  let l1 := Pendulum.length p1 in
  let l2 := Pendulum.length p2 in
  let acc1 := firstBody g a1 a2 m1 m2 l1 l2
                (Pendulum.angularVelocity p1) (Pendulum.angularVelocity p2) in
  let ps := <[i := Pendulum.set_angularAcceleration acc1 p1]> ps in
  p1 ← at_ ps i;
  p2 ← at_ ps (i + 1);
  let acc2 := secondBody g a1 a2 m1 m2 l1 l2
                (Pendulum.angularVelocity p1) (Pendulum.angularVelocity p2) in
  let ps := <[i + 1 := Pendulum.set_angularAcceleration acc2 p2]> ps in
  Ok (ps, stores ++ [(i, acc1); (i + 1, acc2)]).

(** The position of the end of a pendulum hanging from [anchor]. *)
Definition hang (anchor : Vector2Double.t) (p : Pendulum.t) : Vector2Double.t :=
  Vector2Double.mk
    (Vector2Double.x anchor + Pendulum.length p * sin (Pendulum.angle p))%float
    (Vector2Double.y anchor + Pendulum.length p * cos (Pendulum.angle p))%float.

(** The position of the end of the first pendulum, anchored at the
    centre: no addition takes place. *)
Definition hangCentre (p : Pendulum.t) : Vector2Double.t :=
  Vector2Double.mk
    (Pendulum.length p * sin (Pendulum.angle p))%float
    (Pendulum.length p * cos (Pendulum.angle p))%float.

(** [p.angularVelocity += p.angularAcceleration * dt;
     p.angle += p.angularVelocity * dt;] *)
Definition advance (dt : float) (p : Pendulum.t) : Pendulum.t :=
  let p := Pendulum.set_angularVelocity
             (Pendulum.angularVelocity p + Pendulum.angularAcceleration p * dt)%float p in
  Pendulum.set_angle (Pendulum.angle p + Pendulum.angularVelocity p * dt)%float p.

(** One iteration of the loop "Update angle and position". *)
Definition integrate (dt : float) (ps : list Pendulum.t) (i : nat) : outcome (list Pendulum.t) :=
  p ← at_ ps i;
  let p := advance dt p in
  let ps := <[i := p]> ps in
  if decide (i = 0) then
    Ok (<[i := Pendulum.set_position (hangCentre p) p]> ps)
  else
    pp ← at_ ps (i - 1);
    Ok (<[i := Pendulum.set_position (hang (Pendulum.position pp) p) p]> ps).

(** The two loops of the general case, on the vector of pendulums. *)
Definition accelerateAll (g : float) (ps : list Pendulum.t)
  : outcome (list Pendulum.t * list (nat * float)) :=
  for_ (accelerate g) (ps, []) (seq 0 (List.length ps - 1)).

Definition integrateAll (dt : float) (ps : list Pendulum.t) : outcome (list Pendulum.t) :=
  for_ (integrate dt) ps (seq 0 (List.length ps)).

(** The single pendulum case. *)
Definition updateSingle (settings : SimulationSettings.t) (p : Pendulum.t) : Pendulum.t :=
  let p := Pendulum.set_angularAcceleration
             (- SimulationSettings.gravity settings / Pendulum.length p
              * sin (Pendulum.angle p))%float p in
  let p := Pendulum.set_angularVelocity
             (Pendulum.angularAcceleration p
              * SimulationSettings.fixedDeltaTime settings)%float p in
  let p := Pendulum.set_angle
             (Pendulum.angle p
              + Pendulum.angularVelocity p * SimulationSettings.fixedDeltaTime settings)%float p in
  Pendulum.set_position (hangCentre p) p.

(** [JoinedPendulum::Update()], reading the global [settings]. *)
Definition Update (settings : SimulationSettings.t) (c : t) : outcome t :=
  let n := List.length (pendulums c) in
  if decide (n = 0) then Ok c
  else if decide (n = 1) then
    p ← at_ (pendulums c) 0;
    Ok (set_pendulums (<[0 := updateSingle settings p]> (pendulums c)) c)
  else
    '(ps, _) ← accelerateAll (SimulationSettings.gravity settings) (pendulums c);
    ps ← integrateAll (SimulationSettings.fixedDeltaTime settings) ps;
    last ← at_ ps (n - 1);
    _ ← at_ (trajectories c) (trajectoryIndex c);
    let trajectories := <[trajectoryIndex c := Pendulum.position last]> (trajectories c) in
    Ok (mk ps trajectories ((trajectoryIndex c + 1) mod List.length trajectories)).

(** One iteration of the constructor's loop "Initialize all pendulums". *)
Definition construct (lengths masses initialAngles : list float)
    (ps : list Pendulum.t) (i : nat) : outcome (list Pendulum.t) :=
  length ← at_ lengths i;
  mass ← at_ masses i;
  initialAngle ← at_ initialAngles i;
  _ ← at_ ps i;
  Ok (<[i := Pendulum.new length mass initialAngle]> ps).

(** One iteration of the constructor's loop "Calculate position of each
    pendulum". *)
Definition connect (ps : list Pendulum.t) (i : nat) : outcome (list Pendulum.t) :=
  pp ← at_ ps (i - 1);
  p ← at_ ps i;
  Ok (<[i := Pendulum.set_position (hang (Pendulum.position pp) p) p]> ps).

(** [JoinedPendulum(size, lengths, masses, initialAngles,
    trajectoriesSize)]. An exception leaves no object behind: the
    outcome [Throw] carries none. *)
Definition new (size : nat) (lengths masses initialAngles : list float)
    (trajectoriesSize : nat) : outcome t :=
  if decide (List.length lengths ≠ size) then
    Throw "Invalid size provided for lengths"
  else if decide (List.length masses ≠ size) then
    Throw "Invalid size provided for masses"
  else if decide (List.length initialAngles ≠ size) then
    Throw "Invalid size provided for initialAngles"
  else
    let ps := replicate size Pendulum.default in
    ps ← for_ (construct lengths masses initialAngles) ps (seq 0 (List.length ps));
    ps ← for_ connect ps (seq 1 (List.length ps - 1));
    Ok (mk ps (replicate trajectoriesSize Vector2Double.zero) 0).

End Physics.
End JoinedPendulum.

(* ===================================================================== *)
(** * The population (pendulum.cpp) *)
(* ===================================================================== *)

(** A range-based [for] over a vector that updates each element in
    place. *)
Fixpoint for_each {A} (body : A -> outcome A) (v : list A) : outcome (list A) :=
  match v with
  | [] => Ok []
  | a :: v => a' ← body a; v' ← for_each body v; Ok (a' :: v')
  end.

(** The values [s, s + 1, ..., s + k - 1], and the values
    [0, 1, ..., n - 1] of a [std::size_t] loop variable. *)
Fixpoint countFrom (s : N) (k : nat) : list N :=
  match k with
  | 0 => []
  | S k => s :: countFrom (N.succ s) k
  end.

Definition upto (n : N) : list N := countFrom 0 (N.to_nat n).

Section Population.
Context `{Extern}.

(** The body of the loop of [InitializePendulums]; [pendulums] is the
    global vector, already resized. *)
Definition initialize (settings : SimulationSettings.t) (resets : Z)
    (pendulums : list JoinedPendulum.t) (i : nat) : outcome (list JoinedPendulum.t) :=
  let joined := N.to_nat (SimulationSettings.pendulumsJoined settings) in
  let lengths := replicate joined (SimulationSettings.pendulumLength settings) in
  let masses := replicate joined (SimulationSettings.pendulumMass settings) in
  let initialAngles := replicate joined PI in
  _ ← at_ initialAngles 0;
  let initialAngles :=
    <[0 := (PI + 0.125
            + double_of_size (N.of_nat i) / double_of_size (N.of_nat (length pendulums))
              * 0.0001)%float]> initialAngles in
  first ← at_ initialAngles 0;
  let initialAngles :=
    <[0 := (first + (fmod (double_of_Z resets * 0.5 + PI / 8) (PI / 4) - PI / 8))%float]>
      initialAngles in
  c ← JoinedPendulum.new joined lengths masses initialAngles
        (N.to_nat (SimulationSettings.trajectoryPoints settings));
  _ ← at_ pendulums i;
  Ok (<[i := c]> pendulums).

(** [InitializePendulums(resets)]: the new value of the global vector
    [pendulums]. *)
Definition InitializePendulums (settings : SimulationSettings.t) (resets : Z)
  : outcome (list JoinedPendulum.t) :=
  let pendulums :=
    replicate (N.to_nat (SimulationSettings.joinedPendulumsCount settings))
              JoinedPendulum.default in
  for_ (initialize settings resets) pendulums (seq 0 (length pendulums)).

(** [UpdatePendulums()] *)
Definition UpdatePendulums (settings : SimulationSettings.t)
    (pendulums : list JoinedPendulum.t) : outcome (list JoinedPendulum.t) :=
  for_each (JoinedPendulum.Update settings) pendulums.

End Population.

(** The index of the chain that sample [s] reads,
    [std::floor((float)s * pendulums.size() / (settings.resetSamples + 1))]
    converted to [std::size_t]: the product, the quotient and the floor
    are taken in [float]. *)
Definition sampleIndex (s size resetSamples : N) : outcome N :=
  Float32.to_size
    (Float32.floor
       (Float32.div (Float32.mul (Float32.of_size s) (Float32.of_size size))
                    (Float32.of_size (size_add resetSamples 1)))).

(** The length of the vector from [p2] to [p1]. *)
Definition distance (p1 p2 : Vector2Double.t) : float :=
  let l := Vector2Double.mk (Vector2Double.x p1 - Vector2Double.x p2)%float
                            (Vector2Double.y p1 - Vector2Double.y p2)%float in
  PrimFloat.sqrt (Vector2Double.x l * Vector2Double.x l
                  + Vector2Double.y l * Vector2Double.y l)%float.

(** [pendulums[i].pendulums.back().position] *)
Definition tipOf (pendulums : list JoinedPendulum.t) (i : N) : outcome Vector2Double.t :=
  c ← at_ pendulums (N.to_nat i);
  p ← back (JoinedPendulum.pendulums c);
  Ok (Pendulum.position p).

(** The body of the loop of [GetDivergence]. The loop does not change
    the vector: [pendulums.size()] is the same in every iteration. *)
Definition addSample (settings : SimulationSettings.t) (pendulums : list JoinedPendulum.t)
  : float -> N -> outcome float :=
  let size := N.of_nat (length pendulums) in
  fun divergence s =>
    i ← sampleIndex s size (SimulationSettings.resetSamples settings);
    p1 ← tipOf pendulums i;
    p2 ← tipOf pendulums (size_add i 1);
    Ok (divergence + distance p1 p2)%float.

(** [GetDivergence()] *)
Definition GetDivergence (settings : SimulationSettings.t)
    (pendulums : list JoinedPendulum.t) : outcome float :=
  match pendulums with
  | [] => Ok 0%float
  | _ =>
      divergence ← for_ (addSample settings pendulums) 0%float
                     (upto (SimulationSettings.resetSamples settings));
      Ok (divergence / double_of_size (SimulationSettings.resetSamples settings))%float
  end.

(* ===================================================================== *)
(** * The reset logic of the game loop (main.cpp) *)
(* ===================================================================== *)

Module Game.
(** The globals of main.cpp that the simulation reads or writes, with
    the global vector [pendulums]. *)
Record t := mk {
  pendulums : list JoinedPendulum.t;
  paused : bool;
  divergence : float;
  resets : Z;
  initiatedReset : float
}.



Section GameUpdate.
Context `{Extern}.


End GameUpdate.

(** The two states of the reset controller, as the game encodes them in
    [initiatedReset]: zero when no reset is pending. *)
Definition running (g : t) : bool := (initiatedReset g =? 0)%float.
End Game.

(* ===================================================================== *)
(** * A reference environment, to run the model *)
(* ===================================================================== *)

(** The theorems below hold for every [Extern]. To evaluate the model on
    concrete inputs, this environment gives [fmod] exactly (the result
    of [fmod] is always representable), raylib's [PI] (the [float]
    nearest to pi, widened to [double]), and for [sin] and [cos] their
    Taylor polynomials of degree 17 and 16, which are close to the C
    library's values on the angles met here without being them. *)
Module Reference.
Definition sin_series (x : float) : float :=
  (let x2 := x * x in
   x * (1 - x2 / 6 * (1 - x2 / 20 * (1 - x2 / 42 * (1 - x2 / 72 * (1 - x2 / 110
     * (1 - x2 / 156 * (1 - x2 / 210 * (1 - x2 / 272))))))))%float)%float.

Definition cos_series (x : float) : float :=
  (let x2 := x * x in
   1 - x2 / 2 * (1 - x2 / 12 * (1 - x2 / 30 * (1 - x2 / 56 * (1 - x2 / 90
     * (1 - x2 / 132 * (1 - x2 / 182 * (1 - x2 / 240)))))))%float)%float.

Definition fmod_exact (x y : float) : float :=
  match Prim2SF x, Prim2SF y with
  | S754_nan, _ | _, S754_nan => nan
  | S754_infinity _, _ => nan
  | _, S754_zero _ => nan
  | S754_zero _, _ => x
  | _, S754_infinity _ => x
  | S754_finite sx mx ex, S754_finite _ my ey =>
      let e := Z.min ex ey in
      let r := ((Z.pos mx * 2 ^ (ex - e)) mod (Z.pos my * 2 ^ (ey - e)))%Z in
      SF2Prim (binary_normalize prec emax (cond_Zopp sx r) e sx)
  end.

Definition extern : Extern :=
  {| sin := sin_series; cos := cos_series; fmod := fmod_exact; PI := 0x1.921fb6p+1 |}.
End Reference.

(* ===================================================================== *)
(** * Closed forms, to state what the loops compute *)
(* ===================================================================== *)

Section ClosedForms.
Context `{Extern}.

(** The accelerations of the pair of pendulums [p1], [p2] under gravity
    [g], from the members of the two as they are given. *)
Definition firstOf (g : float) (p1 p2 : Pendulum.t) : float :=
  JoinedPendulum.firstBody g (Pendulum.angle p1) (Pendulum.angle p2)
    (Pendulum.mass p1) (Pendulum.mass p2) (Pendulum.length p1) (Pendulum.length p2)
    (Pendulum.angularVelocity p1) (Pendulum.angularVelocity p2).

Definition secondOf (g : float) (p1 p2 : Pendulum.t) : float :=
  JoinedPendulum.secondBody g (Pendulum.angle p1) (Pendulum.angle p2)
    (Pendulum.mass p1) (Pendulum.mass p2) (Pendulum.length p1) (Pendulum.length p2)
    (Pendulum.angularVelocity p1) (Pendulum.angularVelocity p2).

(** The two accelerations of the pair at indices [i], [i + 1] of the
    vector [ps]; zero stands for a pair that is not there. *)
Definition pairAcceleration (body : float -> Pendulum.t -> Pendulum.t -> float)
    (g : float) (ps : list Pendulum.t) (i : nat) : float :=
  match ps !! i, ps !! (i + 1) with
  | Some p1, Some p2 => body g p1 p2
  | _, _ => 0%float
  end.

(** The acceleration held by pendulum [j] once the first [k] iterations
    of the acceleration loop have run on [ps]: iterations [j] and later
    ones have not touched pendulum [j + 1] or beyond. *)
Definition accelerationAfter (g : float) (ps : list Pendulum.t) (k j : nat)
    (p : Pendulum.t) : float :=
  if decide (j < k) then pairAcceleration firstOf g ps j
  else if decide (j = k /\ 0 < k) then pairAcceleration secondOf g ps (j - 1)
  else Pendulum.angularAcceleration p.

(** The stores to [angularAcceleration] made by iterations [0] to
    [k - 1], in order. *)
Definition storesAfter (g : float) (ps : list Pendulum.t) (k : nat) : list (nat * float) :=
  flat_map (fun i => [(i, pairAcceleration firstOf g ps i);
                      (i + 1, pairAcceleration secondOf g ps i)]) (seq 0 k).

(** The values stored to index [j], oldest first. *)
Definition storesTo (j : nat) (stores : list (nat * float)) : list float :=
  snd <$> filter (fun s => fst s = j) stores.

(** The position of pendulum [j] once the loop "Update angle and
    position" has run over the vector [ps]: pendulum [0] hangs from the
    centre, every other one from the new position of the one before. *)
Fixpoint positionAfter (dt : float) (ps : list Pendulum.t) (j : nat) : Vector2Double.t :=
  match ps !! j with
  | None => Vector2Double.zero
  | Some p =>
      match j with
      | 0 => JoinedPendulum.hangCentre (JoinedPendulum.advance dt p)
      | S j' => JoinedPendulum.hang (positionAfter dt ps j') (JoinedPendulum.advance dt p)
      end
  end.

(** The state of the acceleration loop after [k] iterations on [ps0]. *)
Definition acceleratedTo (g : float) (ps0 : list Pendulum.t) (k : nat)
    (st : list Pendulum.t * list (nat * float)) : Prop :=
  (forall j, st.1 !! j =
     (fun p0 => Pendulum.set_angularAcceleration (accelerationAfter g ps0 k j p0) p0)
       <$> ps0 !! j)
  /\ st.2 = storesAfter g ps0 k.

(** The state of the integration loop after [k] iterations on [ps1]. *)
Definition integratedTo (dt : float) (ps1 : list Pendulum.t) (k : nat)
    (ps : list Pendulum.t) : Prop :=
  forall j, ps !! j =
    (fun p1 => if decide (j < k)
               then Pendulum.set_position (positionAfter dt ps1 j) (JoinedPendulum.advance dt p1)
               else p1) <$> ps1 !! j.

(** The vector after the whole acceleration loop, and after the whole
    integration loop. *)
Definition accelerated (g : float) (ps0 : list Pendulum.t) : list Pendulum.t :=
  imap (fun j p0 => Pendulum.set_angularAcceleration
                      (accelerationAfter g ps0 (length ps0 - 1) j p0) p0) ps0.

Definition integrated (dt : float) (ps1 : list Pendulum.t) : list Pendulum.t :=
  imap (fun j p1 => Pendulum.set_position (positionAfter dt ps1 j)
                      (JoinedPendulum.advance dt p1)) ps1.

(** The position the constructor's second loop gives pendulum [j] of
    the vector [ps]: pendulum [0] keeps its own, every other one hangs
    from the position given to the one before. *)
Fixpoint positionConnected (ps : list Pendulum.t) (j : nat) : Vector2Double.t :=
  match ps !! j with
  | None => Vector2Double.zero
  | Some p =>
      match j with
      | 0 => Pendulum.position p
      | S j' => JoinedPendulum.hang (positionConnected ps j') p
      end
  end.

(** The state of the constructor's second loop when its variable is
    [k], on the vector [ps1]. *)
Definition connectedTo (ps1 : list Pendulum.t) (k : nat) (ps : list Pendulum.t) : Prop :=
  forall j, ps !! j =
    (fun p => if decide (0 < j < k)
              then Pendulum.set_position (positionConnected ps1 j) p
              else p) <$> ps1 !! j.

(** The first angle that [InitializePendulums] gives chain [i] of
    [count] chains after [resets] resets. *)
Definition firstAngle (i count : N) (resets : Z) : float :=
  (PI + 0.125 + double_of_size i / double_of_size count * 0.0001
   + (fmod (double_of_Z resets * 0.5 + PI / 8) (PI / 4) - PI / 8))%float.

End ClosedForms.

(* ===================================================================== *)
(** * Runs of several ticks, and reading the trajectory *)
(* ===================================================================== *)

Section Ticks.
Context `{Extern}.

(** [k] ticks of one chain: [Update] called [k] times under the same
    settings. *)
Fixpoint ticks (settings : SimulationSettings.t) (k : nat) (c : JoinedPendulum.t)
  : outcome JoinedPendulum.t :=
  match k with
  | 0 => Ok c
  | S k => c' ← ticks settings k c; JoinedPendulum.Update settings c'
  end.

End Ticks.

(** The position of the end of the last pendulum of a chain. *)
Definition tip (c : JoinedPendulum.t) : option Vector2Double.t :=
  Pendulum.position <$> last (JoinedPendulum.pendulums c).

(** The oldest entry of the trajectory: the slot at the cursor, the next
    to be overwritten and the one [DrawTrajectory] starts from. *)
Definition oldest (c : JoinedPendulum.t) : option Vector2Double.t :=
  JoinedPendulum.trajectories c !! JoinedPendulum.trajectoryIndex c.

(* ===================================================================== *)
(** * The divergence as the specification words it *)
(* ===================================================================== *)

(** "index = floor(s * chainCount / (resetSampleCount + 1))", on the
    integers. *)
Definition specIndex (s chainCount resetSampleCount : N) : N :=
  (s * chainCount / (resetSampleCount + 1))%N.

(** The distance between the tips of the chain at the index of sample
    [s] and the chain after it, when both are there and have a tip. *)
Definition specSample (pendulums : list JoinedPendulum.t) (resetSampleCount : N)
  : N -> option float :=
  let chainCount := N.of_nat (length pendulums) in
  fun s =>
    let index := specIndex s chainCount resetSampleCount in
    c1 ← pendulums !! N.to_nat index;
    c2 ← pendulums !! N.to_nat (index + 1);
    p1 ← tip c1;
    p2 ← tip c2;
    Some (distance p1 p2).

(** The mean of [count] values: their sum, taken from zero in the order
    of the list, over [count]. *)
Definition mean (values : list float) (count : N) : float :=
  (foldl PrimFloat.add 0 values / double_of_size count)%float.

(** "the mean Euclidean distance between the tip positions of ...
    adjacent sampled chains", "0.0 if the Population is empty". *)
Definition specDivergence (pendulums : list JoinedPendulum.t) (resetSampleCount : N)
  : option float :=
  match pendulums with
  | [] => Some 0%float
  | _ =>
      distances ← mapM (specSample pendulums resetSampleCount) (upto resetSampleCount);
      Some (mean distances resetSampleCount)
  end.

(* ===================================================================== *)
(** * Concrete inputs *)
(* ===================================================================== *)

Module Examples.
(** Gravity 1 and time step 0.1; one pendulum per chain, two chains,
    three trajectory points; one divergence sample. *)
Definition settings : SimulationSettings.t :=
  SimulationSettings.mk 1 0.1 2.5 1 2 3 1 1 10 1 2.5.

(** A chain of one pendulum of length 1 and mass 1 at angle 0.1, with a
    trajectory of three points, as its constructor builds it. *)
Definition single : JoinedPendulum.t :=
  JoinedPendulum.mk [Pendulum.new 1 1 0.1] (replicate 3 Vector2Double.zero) 0.

(** A chain of two pendulums at angles 0.5 and 0.25, trajectory of two
    points. *)
Definition double : JoinedPendulum.t :=
  JoinedPendulum.mk [Pendulum.new 1 1 0.5; Pendulum.new 1 1 0.25]
    (replicate 2 Vector2Double.zero) 0.

(** A chain of three pendulums, trajectory of two points. *)
Definition triple : JoinedPendulum.t :=
  JoinedPendulum.mk [Pendulum.new 1 1 0.5; Pendulum.new 1 1 0.25; Pendulum.new 1 1 0.125]
    (replicate 2 Vector2Double.zero) 0.

(** A chain of two pendulums with a trajectory of no points. *)
Definition bare : JoinedPendulum.t :=
  JoinedPendulum.mk [Pendulum.new 1 1 0.5; Pendulum.new 1 1 0.25] [] 0.

(** The chains above after some ticks under [settings] in the reference
    environment, as evaluation gives them. *)
Definition singleAfter1 : JoinedPendulum.t :=
  Eval vm_compute in
    match ticks (H := Reference.extern) settings 1 single with
    | Ok c => c
    | _ => JoinedPendulum.default
    end.

Definition doubleAfter1 : JoinedPendulum.t :=
  Eval vm_compute in
    match ticks (H := Reference.extern) settings 1 double with
    | Ok c => c
    | _ => JoinedPendulum.default
    end.

Definition doubleAfter3 : JoinedPendulum.t :=
  Eval vm_compute in
    match ticks (H := Reference.extern) settings 3 double with
    | Ok c => c
    | _ => JoinedPendulum.default
    end.

(** A chain of one pendulum whose end is at [v]. *)
Definition chainAt (v : Vector2Double.t) : JoinedPendulum.t :=
  JoinedPendulum.mk [Pendulum.set_position v (Pendulum.new 1 1 0)] [] 0.

(** Three chains with their tips at (0,0), (3,4) and (3,0). *)
Definition three : list JoinedPendulum.t :=
  [chainAt (Vector2Double.mk 0 0); chainAt (Vector2Double.mk 3 4);
   chainAt (Vector2Double.mk 3 0)].

(** The settings [settings] with other numbers of chains and samples. *)
Definition sampling (joinedPendulumsCount resetSamples : N) : SimulationSettings.t :=
  SimulationSettings.mk 1 0.1 2.5 1 joinedPendulumsCount 3 1 1 10 resetSamples 2.5.

(** 8192 chains: the first 4097 with their tips at (0,0), the others at
    (3,4). *)
Definition stepped : list JoinedPendulum.t :=
  (fun j => chainAt (if decide (j <= 4096)%N then Vector2Double.mk 0 0
                     else Vector2Double.mk 3 4)) <$> upto 8192.




End Examples.

(* ===================================================================== *)
(** * Frames of the simulation *)
(* ===================================================================== *)

Section Frames.
Context `{Extern}.


(** The position the constructor leaves pendulum [j] of a chain of
    [InitializePendulums] in: the first pendulum is not hung and stays
    at the centre, every other one hangs at the angle [PI] from the one
    before. *)
Definition restingPosition (settings : SimulationSettings.t) (j : nat) : Vector2Double.t :=
  Nat.iter j
    (fun anchor =>
       JoinedPendulum.hang anchor
         (Pendulum.new (SimulationSettings.pendulumLength settings)
            (SimulationSettings.pendulumMass settings) PI))
    Vector2Double.zero.

(** A chain as [InitializePendulums] builds it. *)
Definition fresh (settings : SimulationSettings.t) (c : JoinedPendulum.t) : Prop :=
  let joined := N.to_nat (SimulationSettings.pendulumsJoined settings) in
  length (JoinedPendulum.pendulums c) = joined /\
  JoinedPendulum.trajectories c =
    replicate (N.to_nat (SimulationSettings.trajectoryPoints settings)) Vector2Double.zero /\
  JoinedPendulum.trajectoryIndex c = 0 /\
  tip c = Some (restingPosition settings (joined - 1)).

End Frames.

(** The sizes of a chain: [joined] pendulums, [capacity] trajectory
    points, and the cursor inside the trajectory where [Update] stores
    to it, that is where there are two pendulums or more. *)
Definition shaped (joined capacity : nat) (c : JoinedPendulum.t) : Prop :=
  length (JoinedPendulum.pendulums c) = joined /\
  length (JoinedPendulum.trajectories c) = capacity /\
  (2 <= joined -> JoinedPendulum.trajectoryIndex c < capacity).

(** A [double] that is neither an infinity nor NaN. *)
Definition finite (x : float) : bool :=
  match Prim2SF x with
  | S754_zero _ | S754_finite _ _ _ => true
  | _ => false
  end.

(* ===================================================================== *)
(** * The settings file (pendulum.cpp) *)
(* ===================================================================== *)

(** A [std::string] is the list of its characters; a literal of the
    program is written as a Rocq string and converted. *)
Definition chars (s : string) : list ascii := list_ascii_of_string s.

#[global] Instance ascii_eq_dec : EqDecision ascii := Ascii.ascii_dec.

(** Conversion of a [double] to [std::size_t]: the value is truncated
    toward zero, and the behaviour is undefined when the truncated value
    is not one of [std::size_t] (an infinity and NaN included). *)
Definition size_of_double (x : float) : outcome N :=
  match Prim2SF x with
  | S754_zero _ => Ok 0%N
  | S754_finite s m e =>
      let z := Z.quot (cond_Zopp s (Z.pos m) * 2 ^ Z.max e 0) (2 ^ Z.max (- e) 0) in
      if ((0 <=? z) && (z <=? Z.of_N SIZE_MAX))%Z then Ok (Z.to_N z) else Undefined
  | _ => Undefined
  end.

(** What [std::stod] and [std::stoul] give: the number, or the
    exception ([std::invalid_argument], [std::out_of_range]) with its
    [what()]. *)
Inductive converted (A : Type) : Type :=
  | Converted (a : A)
  | Failed (what : string).
Arguments Converted {A} a.
Arguments Failed {A} what.

(** The two conversions are the C++ library's: they are the fields of
    this class, and the theorems hold for all of them. *)
Class Conversions := {
  stod : list ascii -> converted float;
  stoul : list ascii -> converted N
}.

Module Settings.

(** Stores into one member of [SimulationSettings]. *)
Definition set_gravity (v : float) (s : SimulationSettings.t) : SimulationSettings.t :=
  let 'SimulationSettings.mk _ a2 a3 a4 a5 a6 a7 a8 a9 a10 a11 := s in
  SimulationSettings.mk v a2 a3 a4 a5 a6 a7 a8 a9 a10 a11.
Definition set_fixedDeltaTime (v : float) (s : SimulationSettings.t) : SimulationSettings.t :=
  let 'SimulationSettings.mk a1 _ a3 a4 a5 a6 a7 a8 a9 a10 a11 := s in
  SimulationSettings.mk a1 v a3 a4 a5 a6 a7 a8 a9 a10 a11.
Definition set_trajectoryAlphaPower (v : float) (s : SimulationSettings.t)
  : SimulationSettings.t :=
  let 'SimulationSettings.mk a1 a2 _ a4 a5 a6 a7 a8 a9 a10 a11 := s in
  SimulationSettings.mk a1 a2 v a4 a5 a6 a7 a8 a9 a10 a11.
Definition set_pendulumsJoined (v : N) (s : SimulationSettings.t) : SimulationSettings.t :=
  let 'SimulationSettings.mk a1 a2 a3 _ a5 a6 a7 a8 a9 a10 a11 := s in
  SimulationSettings.mk a1 a2 a3 v a5 a6 a7 a8 a9 a10 a11.
Definition set_joinedPendulumsCount (v : N) (s : SimulationSettings.t)
  : SimulationSettings.t :=
  let 'SimulationSettings.mk a1 a2 a3 a4 _ a6 a7 a8 a9 a10 a11 := s in
  SimulationSettings.mk a1 a2 a3 a4 v a6 a7 a8 a9 a10 a11.
Definition set_trajectoryPoints (v : N) (s : SimulationSettings.t) : SimulationSettings.t :=
  let 'SimulationSettings.mk a1 a2 a3 a4 a5 _ a7 a8 a9 a10 a11 := s in
  SimulationSettings.mk a1 a2 a3 a4 a5 v a7 a8 a9 a10 a11.
Definition set_pendulumLength (v : float) (s : SimulationSettings.t) : SimulationSettings.t :=
  let 'SimulationSettings.mk a1 a2 a3 a4 a5 a6 _ a8 a9 a10 a11 := s in
  SimulationSettings.mk a1 a2 a3 a4 a5 a6 v a8 a9 a10 a11.
Definition set_pendulumMass (v : float) (s : SimulationSettings.t) : SimulationSettings.t :=
  let 'SimulationSettings.mk a1 a2 a3 a4 a5 a6 a7 _ a9 a10 a11 := s in
  SimulationSettings.mk a1 a2 a3 a4 a5 a6 a7 v a9 a10 a11.
Definition set_resetThreshold (v : float) (s : SimulationSettings.t) : SimulationSettings.t :=
  let 'SimulationSettings.mk a1 a2 a3 a4 a5 a6 a7 a8 _ a10 a11 := s in
  SimulationSettings.mk a1 a2 a3 a4 a5 a6 a7 a8 v a10 a11.
Definition set_resetSamples (v : N) (s : SimulationSettings.t) : SimulationSettings.t :=
  let 'SimulationSettings.mk a1 a2 a3 a4 a5 a6 a7 a8 a9 _ a11 := s in
  SimulationSettings.mk a1 a2 a3 a4 a5 a6 a7 a8 a9 v a11.
Definition set_resetFadeTime (v : float) (s : SimulationSettings.t) : SimulationSettings.t :=
  let 'SimulationSettings.mk a1 a2 a3 a4 a5 a6 a7 a8 a9 a10 _ := s in
  SimulationSettings.mk a1 a2 a3 a4 a5 a6 a7 a8 a9 a10 v.

(** [text | split(d) | to<std::vector<std::string>>()]: the pieces of
    [text] between the delimiters, an empty piece after a last
    delimiter included; no piece at all for the empty text. *)
Fixpoint pieces (d : ascii) (text : list ascii) : list (list ascii) :=
  match text with
  | [] => [[]]
  | c :: text =>
      if decide (c = d) then [] :: pieces d text
      else match pieces d text with
           | piece :: rest => (c :: piece) :: rest
           | [] => [[c]]
           end
  end.

Definition split (d : ascii) (text : list ascii) : list (list ascii) :=
  match text with
  | [] => []
  | _ => pieces d text
  end.

(** [std::regex_replace(line, std::regex("\t"), " ")]: every tab
    becomes a space. *)
Definition untab (line : list ascii) : list ascii :=
  (fun c => if decide (c = "009"%char) then " "%char else c) <$> line.

(** [std::regex_replace(line, std::regex("  +"), " ")]: every run of
    two spaces or more becomes one space. A space followed by a space
    is dropped, which leaves the last space of each run. *)
Fixpoint squeeze (line : list ascii) : list ascii :=
  match line with
  | c :: ((d :: _) as rest) =>
      if decide (c = " "%char /\ d = " "%char) then squeeze rest else c :: squeeze rest
  | _ => line
  end.

Fixpoint skipSpaces (line : list ascii) : list ascii :=
  match line with
  | c :: rest => if decide (c = " "%char) then skipSpaces rest else line
  | [] => []
  end.

(** The characters that [.] does not match in an ECMAScript regular
    expression. *)
Definition lineTerminator (c : ascii) : bool :=
  bool_decide (c = "010"%char) || bool_decide (c = "013"%char).

(** [std::regex_replace(line, std::regex("^ +(.*?) +$"), "$1")]. The
    expression matches, and then matches the whole line, when the line
    begins with a space, ends with another space, and has no line
    terminator between the spaces that begin it and those that end it:
    the line is then replaced by what lies between them. A line that
    does not match is left as it is. *)
Definition strip (line : list ascii) : list ascii :=
  let inner := reverse (skipSpaces (reverse (skipSpaces line))) in
  if bool_decide (head line = Some " "%char) && bool_decide (last line = Some " "%char)
     && bool_decide (2 <= length line) && forallb (negb ∘ lineTerminator) inner
  then inner else line.

(** "Remove comments": the tokens before the first token [;]. *)
Definition uncomment (tokens : list (list ascii)) : list (list ascii) :=
  match list_find (fun token => token = chars ";") tokens with
  | Some (j, _) => take j tokens
  | None => tokens
  end.

(** A call of [TraceLog], by the level and the arguments of its
    message: the number of the line, and the line or the [what()] of
    the exception. *)
Inductive Trace : Type :=
  | Warning (number : nat) (line : list ascii)
  | Error (number : nat) (what : string).

(** [if (member != value) member = value;] on a [double]. *)
Definition assign (member value : float) : float :=
  if negb (member =? value)%float then value else member.

Section LoadSettings.
Context `{Conversions}.

(** The chain of [if]s on the key, inside the [try] block: the new
    settings and the new [needsReset], or the exception. A key that is
    none of the eleven changes nothing. *)
Definition dispatch (key value : list ascii) (s : SimulationSettings.t) (needsReset : bool)
  : outcome (converted (SimulationSettings.t * bool)) :=
  let double (member : SimulationSettings.t -> float)
             (set : float -> SimulationSettings.t -> SimulationSettings.t)
             (resets : bool) :=
    match stod value with
    | Converted v =>
        if negb (member s =? v)%float
        then Ok (Converted (set v s, needsReset || resets))
        else Ok (Converted (s, needsReset))
    | Failed what => Ok (Failed what)
    end in
  let size (member : SimulationSettings.t -> N)
           (set : N -> SimulationSettings.t -> SimulationSettings.t) :=
    match stoul value with
    | Converted v =>
        if negb (member s =? v)%N
        then Ok (Converted (set v s, true))
        else Ok (Converted (s, needsReset))
    | Failed what => Ok (Failed what)
    end in
  if decide (key = chars "gravity") then
    double SimulationSettings.gravity set_gravity false
  else if decide (key = chars "fixedDeltaTime") then
    double SimulationSettings.fixedDeltaTime set_fixedDeltaTime false
  else if decide (key = chars "trajectoryAlphaPower") then
    double SimulationSettings.trajectoryAlphaPower set_trajectoryAlphaPower false
  else if decide (key = chars "pendulumsJoined") then
    size SimulationSettings.pendulumsJoined set_pendulumsJoined
  else if decide (key = chars "joinedPendulumsCount") then
    size SimulationSettings.joinedPendulumsCount set_joinedPendulumsCount
  else if decide (key = chars "trajectoryPoints") then
    size SimulationSettings.trajectoryPoints set_trajectoryPoints
  else if decide (key = chars "pendulumLength") then
    double SimulationSettings.pendulumLength set_pendulumLength true
  else if decide (key = chars "pendulumMass") then
    double SimulationSettings.pendulumMass set_pendulumMass true
  else if decide (key = chars "resetThreshold") then
    double SimulationSettings.resetThreshold set_resetThreshold false
  else if decide (key = chars "resetSamples") then
    match stod value with
    | Converted v =>
        if negb (double_of_size (SimulationSettings.resetSamples s) =? v)%float
        then samples ← size_of_double v; Ok (Converted (set_resetSamples samples s, needsReset))
        else Ok (Converted (s, needsReset))
    | Failed what => Ok (Failed what)
    end
  else if decide (key = chars "resetFadeTime") then
    double SimulationSettings.resetFadeTime set_resetFadeTime false
  else Ok (Converted (s, needsReset)).

(** The tokens of a line: the line with its whitespace cleaned up,
    split at the spaces. *)
Definition tokenize (line : list ascii) : list (list ascii) :=
  split " "%char (strip (squeeze (untab line))).

(** The body of the loop over the lines. The state is the settings,
    [needsReset] and the calls of [TraceLog] so far. *)
Definition loadLine (lines : list (list ascii))
    (st : SimulationSettings.t * bool * list Trace) (i : nat)
  : outcome (SimulationSettings.t * bool * list Trace) :=
  let '(s, needsReset, log) := st in
  tmp0 ← at_ lines i;
  let line := strip (squeeze (untab tmp0)) in
  let tokens := split " "%char line in
  if decide (tokens = []) then Ok st
  else
    let tokens := uncomment tokens in
    if decide (tokens = []) then Ok st
    else if decide (length tokens ≠ 2) then Ok (s, needsReset, log ++ [Warning (i + 1) line])
    else
      key ← at_ tokens 0;
      value ← at_ tokens 1;
      result ← dispatch key value s needsReset;
      match result with
      | Converted (s, needsReset) => Ok (s, needsReset, log)
      | Failed what => Ok (s, needsReset, log ++ [Error (i + 1) what])
      end.

(** [SimulationSettings::LoadSettings(filename)], on the text of the
    file: [None] when [LoadFileText] returns a null pointer, from
    which no [std::string] can be made. The result is the
    new settings, the [needsReset] returned and the calls of
    [TraceLog]. *)
Definition LoadSettings (file : option (list ascii)) (s : SimulationSettings.t)
  : outcome (SimulationSettings.t * bool * list Trace) :=
  match file with
  | None => Undefined
  | Some text =>
      let lines := split "010"%char text in
      for_ (loadLine lines) (s, false, []) (seq 0 (length lines))
  end.

End LoadSettings.
End Settings.

(** The five settings whose change asks for a reset of the simulation. *)
Definition resetSettings (s : SimulationSettings.t) : N * N * N * float * float :=
  (SimulationSettings.pendulumsJoined s, SimulationSettings.joinedPendulumsCount s,
   SimulationSettings.trajectoryPoints s, SimulationSettings.pendulumLength s,
   SimulationSettings.pendulumMass s).


(** A space or a tab. *)
Definition blank (c : ascii) : Prop := c = " "%char \/ c = "009"%char.

(** A word of a settings line: one character or more, none of them a
    space, a tab or a line terminator. *)
Definition word (w : list ascii) : Prop :=
  w <> [] /\
  Forall (fun c => c <> " "%char /\ c <> "009"%char /\ Settings.lineTerminator c = false) w.

(** Zero or one space, for the blanks that begin or end a line. *)
Definition edge (l : list ascii) : list ascii :=
  match l with [] => [] | _ => [" "%char] end.

(** The settings that are a [double] read with [std::stod]: the key,
    the member, the store to it, and whether a change asks for a
    reset. *)
Definition doubleSettings
  : list (list ascii * (SimulationSettings.t -> float)
          * (float -> SimulationSettings.t -> SimulationSettings.t) * bool) :=
  [ (chars "gravity", SimulationSettings.gravity, Settings.set_gravity, false);
    (chars "fixedDeltaTime", SimulationSettings.fixedDeltaTime,
     Settings.set_fixedDeltaTime, false);
    (chars "trajectoryAlphaPower", SimulationSettings.trajectoryAlphaPower,
     Settings.set_trajectoryAlphaPower, false);
    (chars "pendulumLength", SimulationSettings.pendulumLength,
     Settings.set_pendulumLength, true);
    (chars "pendulumMass", SimulationSettings.pendulumMass, Settings.set_pendulumMass, true);
    (chars "resetThreshold", SimulationSettings.resetThreshold,
     Settings.set_resetThreshold, false);
    (chars "resetFadeTime", SimulationSettings.resetFadeTime,
     Settings.set_resetFadeTime, false) ].

(** The settings that are a [std::size_t] read with [std::stoul]; a
    change of any of them asks for a reset. *)
Definition sizeSettings
  : list (list ascii * (SimulationSettings.t -> N)
          * (N -> SimulationSettings.t -> SimulationSettings.t)) :=
  [ (chars "pendulumsJoined", SimulationSettings.pendulumsJoined,
     Settings.set_pendulumsJoined);
    (chars "joinedPendulumsCount", SimulationSettings.joinedPendulumsCount,
     Settings.set_joinedPendulumsCount);
    (chars "trajectoryPoints", SimulationSettings.trajectoryPoints,
     Settings.set_trajectoryPoints) ].

(** The eleven keys that [LoadSettings] knows. *)
Definition keys : list (list ascii) :=
  ((fun entry => entry.1.1.1) <$> doubleSettings)
  ++ ((fun entry => entry.1.1) <$> sizeSettings)
  ++ [chars "resetSamples"].

(** The calls of [TraceLog] of lines numbered from [first + 1] on,
    given the calls of the same lines numbered from 1 on. *)
Definition renumber (first : nat) (log : list Settings.Trace) : list Settings.Trace :=
  (fun trace =>
     match trace with
     | Settings.Warning number line => Settings.Warning (first + number) line
     | Settings.Error number what => Settings.Error (first + number) what
     end) <$> log.

(* ===================================================================== *)
(** * Drawing (pendulum.cpp) *)
(* ===================================================================== *)

(** raylib's [Color]: four [unsigned char]. *)
Module Color.
Record t := mk { r : Z; g : Z; b : Z; a : Z }.
End Color.

(** raylib's [Vector2]: two [float]. *)
Module Vector2.
Record t := mk { x : Float32.t; y : Float32.t }.
End Vector2.

(** Conversion of a [double] to [float], rounding to nearest even. *)
Definition float_of_double (x : float) : Float32.t :=
  match Prim2SF x with
  | S754_finite s m e => binary_round Float32.prec Float32.emax s m e
  | f => f
  end.

(** [Vector2Double::operator Vector2()] *)
Definition toVector2 (v : Vector2Double.t) : Vector2.t :=
  Vector2.mk (float_of_double (Vector2Double.x v)) (float_of_double (Vector2Double.y v)).

(** Conversion of a [double] to [unsigned char]: the value is truncated
    toward zero, and the behaviour is undefined when the truncated value
    is not one of [unsigned char]. *)
Definition uchar_of_double (x : float) : outcome Z :=
  match Prim2SF x with
  | S754_zero _ => Ok 0%Z
  | S754_finite s m e =>
      let z := Z.quot (cond_Zopp s (Z.pos m) * 2 ^ Z.max e 0) (2 ^ Z.max (- e) 0) in
      if ((0 <=? z) && (z <=? 255))%Z then Ok z else Undefined
  | _ => Undefined
  end.

(** A call of raylib's [DrawLineV], by its arguments. *)
Record Line := DrawLineV { startPos : Vector2.t; endPos : Vector2.t; color : Color.t }.

(** [std::pow] on [double] is the C library's. *)
Class Power := { pow : float -> float -> float }.

Module Draw.
Section Draw.
Context `{Power}.

(** [if (alpha > 1.0) alpha = 1.0; if (alpha < 0.0) alpha = 0.0;] *)
Definition clamp (alpha : float) : float :=
  let alpha := if (1 <? alpha)%float then 1%float else alpha in
  if (alpha <? 0)%float then 0%float else alpha.

(** [fadedColor.a *= alpha]: the product is taken in [double] and
    converted back to [unsigned char]. *)
Definition fade (color : Color.t) (alpha : float) : outcome Color.t :=
  a ← uchar_of_double (double_of_Z (Color.a color) * alpha)%float;
  Ok (Color.mk (Color.r color) (Color.g color) (Color.b color) a).

(** A point with a coordinate that compares equal to zero is taken for
    a slot that was never recorded. *)
Definition unrecorded (v : Vector2Double.t) : bool :=
  (Vector2Double.x v =? 0)%float || (Vector2Double.y v =? 0)%float.

(** The opacity of segment [i] of a trajectory of [size] points, before
    it is clamped. *)
Definition opacity (settings : SimulationSettings.t) (size i : nat) : float :=
  pow (double_of_size (N.of_nat (i + 1)) / double_of_size (N.of_nat size))%float
      (SimulationSettings.trajectoryAlphaPower settings).

(** The body of the loop of [DrawTrajectory]; the state is the list of
    the calls of [DrawLineV] so far. *)
Definition drawSegment (settings : SimulationSettings.t) (color : Color.t)
    (c : JoinedPendulum.t) (lines : list Line) (i : nat) : outcome (list Line) :=
  let trajectories := JoinedPendulum.trajectories c in
  let trajectoryIndex := JoinedPendulum.trajectoryIndex c in
  current ← at_ trajectories ((trajectoryIndex + i) mod length trajectories);
  next ← at_ trajectories ((trajectoryIndex + i + 1) mod length trajectories);
  if unrecorded current || unrecorded next then Ok lines
  else
    let alpha := clamp (opacity settings (length trajectories) i) in
    fadedColor ← fade color alpha;
    Ok (lines ++ [DrawLineV (toVector2 current) (toVector2 next) fadedColor]).

(** [JoinedPendulum::DrawTrajectory(color)], reading the global
    [settings]: the calls of [DrawLineV] it makes, in order. *)
Definition DrawTrajectory (settings : SimulationSettings.t) (color : Color.t)
    (c : JoinedPendulum.t) : outcome (list Line) :=
  match JoinedPendulum.trajectories c with
  | [] => Ok []
  | _ => for_ (drawSegment settings color c) []
           (seq 0 (length (JoinedPendulum.trajectories c) - 1))
  end.

(** The body of the loop of [DrawPendulums]. *)
Definition drawPendulum (color : Color.t) (c : JoinedPendulum.t)
    (lines : list Line) (i : nat) : outcome (list Line) :=
  prev ← (if decide (i ≠ 0)
          then pp ← at_ (JoinedPendulum.pendulums c) (i - 1); Ok (Pendulum.position pp)
          else Ok Vector2Double.zero);
  p ← at_ (JoinedPendulum.pendulums c) i;
  Ok (lines ++ [DrawLineV (toVector2 prev) (toVector2 (Pendulum.position p)) color]).

(** [JoinedPendulum::DrawPendulums(color)] *)
Definition DrawPendulums (color : Color.t) (c : JoinedPendulum.t) : outcome (list Line) :=
  for_ (drawPendulum color c) [] (seq 0 (length (JoinedPendulum.pendulums c))).

End Draw.
End Draw.

(** What a call of [DrawLineV] made for a segment of the trajectory of
    [c] in the colour [base] looks like: it joins the point [i] places
    after the cursor to the next one, both recorded, in the colour
    [base] with an alpha that is not above its own. *)
Definition segmentOf (base : Color.t) (c : JoinedPendulum.t) (line : Line) : Prop :=
  let trajectories := JoinedPendulum.trajectories c in
  let cursor := JoinedPendulum.trajectoryIndex c in
  exists i current next,
    i + 1 < length trajectories /\
    trajectories !! ((cursor + i) mod length trajectories) = Some current /\
    trajectories !! ((cursor + i + 1) mod length trajectories) = Some next /\
    Draw.unrecorded current = false /\ Draw.unrecorded next = false /\
    startPos line = toVector2 current /\ endPos line = toVector2 next /\
    Color.r (color line) = Color.r base /\
    Color.g (color line) = Color.g base /\
    Color.b (color line) = Color.b base /\
    (0 <= Color.a (color line) <= Color.a base)%Z.

(** The [double] of an [unsigned char]: the integer itself. *)
Definition byteExact (a : Z) : bool :=
  match Prim2SF (double_of_Z a) with
  | S754_zero false => (a =? 0)%Z
  | S754_finite false m e =>
      ((e <=? 0) && (-52 <=? e) && (Z.pos m =? a * 2 ^ (- e)))%Z
  | _ => false
  end.

(* ===================================================================== *)
(** * A reference library, to run the model *)
(* ===================================================================== *)

(** The theorems hold for every [Conversions] and every [Power]. To
    evaluate the model on concrete inputs, these stand in for the C++
    library where the two agree: [stoul] and [stod] on a string of
    decimal digits and nothing else, whose number is below 2^64 (any
    other string is rejected here, with the [what()] of libstdc++,
    though the library reads more); [pow] for the exponent 2, and for an
    exponent that is NaN, where [std::pow] returns NaN unless the base
    is 1. *)
Module Library.
Definition digit (c : ascii) : option N :=
  let n := N_of_ascii c in
  if ((48 <=? n) && (n <=? 57))%N then Some (n - 48)%N else None.

Definition number (s : list ascii) : option N :=
  match s with
  | [] => None
  | _ => foldl (fun acc c => n ← acc; d ← digit c; Some (10 * n + d)%N) (Some 0%N) s
  end.

Definition stoul_digits (s : list ascii) : converted N :=
  match number s with
  | Some n => if (n <? 2 ^ 64)%N then Converted n else Failed "stoul"
  | None => Failed "stoul"
  end.

Definition stod_digits (s : list ascii) : converted float :=
  match number s with
  | Some n => if (n <? 2 ^ 64)%N then Converted (double_of_size n) else Failed "stod"
  | None => Failed "stod"
  end.

Definition conversions : Conversions := {| stod := stod_digits; stoul := stoul_digits |}.

Definition square_or_nan (x y : float) : float :=
  if (y =? 2)%float then (x * x)%float else nan.

Definition power : Power := {| pow := square_or_nan |}.
End Library.

(* ===================================================================== *)
(** * Concrete inputs, continued *)
(* ===================================================================== *)

Module Scenes.
(** Two pendulums per chain, one chain, and a trajectory of no points. *)
Definition noPoints : SimulationSettings.t :=
  SimulationSettings.mk 1 0.1 2.5 2 1 0 1 1 10 1 2.5.

(** No pendulum per chain, one chain. *)
Definition noPendulums : SimulationSettings.t :=
  SimulationSettings.mk 1 0.1 2.5 0 1 3 1 1 10 1 2.5.

(** Two pendulums per chain, three chains, two trajectory points, two
    samples; the exponent of the fade is 2. *)
Definition pairs : SimulationSettings.t :=
  SimulationSettings.mk 1 0.1 2 2 3 2 1 1 10 2 2.5.

(** The same with an exponent that is NaN. *)
Definition pairsNaN : SimulationSettings.t :=
  SimulationSettings.mk 1 0.1 nan 2 3 2 1 1 10 2 2.5.



(** A running game of three chains. *)
Definition running : Game.t := Game.mk Examples.three false 0 0 0.

(** An opaque white. *)
Definition white : Color.t := Color.mk 255 255 255 255.

(** A text of the kind [SaveSettings] writes. *)
Definition text : list ascii :=
  chars "; Simulation settings" ++ ["010"%char]
  ++ chars "gravity 5" ++ ["010"%char]
  ++ ["010"%char]
  ++ chars "pendulumsJoined 3" ++ ["010"%char]
  ++ chars "pendulumColorSaturation 1" ++ ["010"%char]
  ++ chars " resetSamples 7" ++ ["010"%char]
  ++ chars "resetFadeTime x" ++ ["010"%char].
End Scenes.

(* ===================================================================== *)
(** * Tactics *)
(* ===================================================================== *)

(** Closed goals that are conjunctions of equations between values:
    each equation is settled by evaluation. *)
Ltac evaluate :=
  repeat match goal with |- _ /\ _ => split end; vm_compute; reflexivity.

(** The chain of [if]s of [Settings.dispatch], branch by branch. *)
Ltac dispatch_cases :=
  unfold Settings.dispatch;
  repeat case_decide;
  repeat match goal with
         | |- context [stod ?v] => destruct (stod v)
         | |- context [stoul ?v] => destruct (stoul v)
         | |- context [negb ?b] => destruct b; cbn [negb]
         end.

(** The comparisons of a key that is known with the keys of the
    chain. *)
Ltac decide_key :=
  repeat first
    [ rewrite decide_True by reflexivity
    | rewrite decide_False
        by (let Heq := fresh in intros Heq; vm_compute in Heq; discriminate Heq) ].

(* ===================================================================== *)
(** * Properties *)
(* ===================================================================== *)

(** ** Outcomes and loops *)

Lemma bind_Ok_inv {A B} (m : outcome A) (k : A -> outcome B) (b : B) :
  m ≫= k = Ok b -> exists a, m = Ok a /\ k a = Ok b.
Proof. destruct m as [a| |]; simpl; intros Hk; [eauto | discriminate..]. Qed.

Lemma at_Ok {A} (v : list A) (i : nat) (a : A) : v !! i = Some a -> at_ v i = Ok a.
Proof. unfold at_. intros ->. reflexivity. Qed.

Lemma at_Ok_inv {A} (v : list A) (i : nat) (a : A) : at_ v i = Ok a -> v !! i = Some a.
Proof. unfold at_. destruct (v !! i); intros Ha; congruence. Qed.

Lemma at_outside {A} (v : list A) (i : nat) : length v <= i -> at_ v i = Undefined.
Proof. intros Hi. unfold at_. rewrite (lookup_ge_None_2 v i Hi). reflexivity. Qed.

Lemma at_inside {A} (v : list A) (i : nat) : i < length v -> exists a, at_ v i = Ok a.
Proof.
  intros Hi. destruct (lookup_lt_is_Some_2 v i Hi) as [a Ha].
  exists a. apply at_Ok, Ha.
Qed.

(** A loop over [a, a+1, ..., a+n-1] completes, and establishes the
    invariant at [a+n], when every iteration in that range completes and
    carries the invariant from its index to the next. *)
Lemma for_seq_invariant {St} (body : St -> nat -> outcome St) (Inv : nat -> St -> Prop) :
  forall n a st,
    Inv a st ->
    (forall i st, a <= i < a + n -> Inv i st ->
       exists st', body st i = Ok st' /\ Inv (i + 1) st') ->
    exists st', for_ body st (seq a n) = Ok st' /\ Inv (a + n) st'.
Proof.
  induction n as [|n IH]; intros a st Hst Hbody; simpl.
  - exists st. rewrite Nat.add_0_r. auto.
  - destruct (Hbody a st) as (st1 & Hrun & Hst1); [lia | assumption |].
    rewrite Hrun. simpl.
    destruct (IH (a + 1) st1) as (st' & Hrest & Hst'); [assumption | |].
    + intros i sti Hi. apply Hbody. lia.
    + exists st'. replace (Datatypes.S a) with (a + 1) by lia.
      replace (a + S n) with (a + 1 + n) by lia. auto.
Qed.

(** ** Arithmetic on [double] *)

Lemma SFdiv_opp_l (x y : spec_float) :
  SFdiv prec emax (SFopp x) y = SFopp (SFdiv prec emax x y).
Proof.
  destruct x as [sx|sx| |sx mx ex], y as [sy|sy| |sy my ey]; simpl;
    try reflexivity; try (destruct sx, sy; reflexivity).
  destruct (SFdiv_core_binary prec emax (Z.pos mx) ex (Z.pos my) ey) as [[mz ez] lz].
  unfold binary_round_aux.
  destruct (shr_fexp prec emax mz ez lz) as [mrs e'].
  destruct (shr_fexp prec emax _ e' loc_Exact) as [mrs' e''].
  destruct (shr_m mrs') as [|m|m]; [| destruct (e'' <=? emax - prec)%Z |];
    destruct sx, sy; reflexivity.
Qed.

(** Negating the numerator negates the quotient: [-g / l] is
    [-(g / l)], also on infinities and NaN. *)
Lemma div_opp_l (a b : float) : (- a / b = - (a / b))%float.
Proof.
  apply Prim2SF_inj.
  rewrite div_spec, !opp_spec, div_spec. apply SFdiv_opp_l.
Qed.

(** ** The single pendulum case of [Update] *)

Section SinglePendulum.
Context `{Extern}.

(** A chain of one pendulum is updated by [updateSingle]; nothing else
    of the chain changes: the early [return] leaves the function before
    the trajectory is captured. *)
Lemma Update_single (settings : SimulationSettings.t) (c : JoinedPendulum.t)
    (p : Pendulum.t) :
  length (JoinedPendulum.pendulums c) = 1 ->
  JoinedPendulum.pendulums c !! 0 = Some p ->
  JoinedPendulum.Update settings c =
    Ok (JoinedPendulum.mk [JoinedPendulum.updateSingle settings p]
          (JoinedPendulum.trajectories c) (JoinedPendulum.trajectoryIndex c)).
Proof.
  intros Hn Hp. unfold JoinedPendulum.Update.
  destruct (JoinedPendulum.pendulums c) as [|q [|q' ps]] eqn:Hps; simplify_eq/=.
  reflexivity.
Qed.

(** C3. A chain of exactly one pendulum, after one [Update] with gravity
    [g] and time step [h]: the angular acceleration is
    [-(g / length) * sin angle] at the angle before the update; the
    angular velocity is that acceleration times [h], whatever the
    velocity was before; the angle is the angle before plus the new
    velocity times [h]. *)
Theorem Update_single_pendulum_physics (settings : SimulationSettings.t)
    (c : JoinedPendulum.t) (p : Pendulum.t) :
  length (JoinedPendulum.pendulums c) = 1 ->
  JoinedPendulum.pendulums c !! 0 = Some p ->
  let g := SimulationSettings.gravity settings in
  let h := SimulationSettings.fixedDeltaTime settings in
  exists c' p',
    JoinedPendulum.Update settings c = Ok c' /\
    JoinedPendulum.pendulums c' = [p'] /\
    Pendulum.angularAcceleration p'
      = (- (g / Pendulum.length p) * sin (Pendulum.angle p))%float /\
    Pendulum.angularVelocity p' = (Pendulum.angularAcceleration p' * h)%float /\
    Pendulum.angle p' = (Pendulum.angle p + Pendulum.angularVelocity p' * h)%float /\
    Pendulum.length p' = Pendulum.length p /\
    Pendulum.mass p' = Pendulum.mass p.
Proof.
  intros Hn Hp g h.
  eexists _, _. split; [apply (Update_single settings c p Hn Hp) |].
  simpl. rewrite <- div_opp_l. repeat split; reflexivity.
Qed.

(** A chain of exactly one pendulum keeps its trajectory and its cursor
    through [Update], whatever they are. *)
Theorem Update_single_records_nothing (settings : SimulationSettings.t)
    (c : JoinedPendulum.t) :
  length (JoinedPendulum.pendulums c) = 1 ->
  exists c',
    JoinedPendulum.Update settings c = Ok c' /\
    JoinedPendulum.trajectories c' = JoinedPendulum.trajectories c /\
    JoinedPendulum.trajectoryIndex c' = JoinedPendulum.trajectoryIndex c.
Proof.
  intros Hn.
  destruct (JoinedPendulum.pendulums c) as [|p ps] eqn:Hps; [discriminate |].
  eexists. split; [apply (Update_single settings c p); rewrite Hps; [exact Hn | reflexivity] |].
  split; reflexivity.
Qed.

End SinglePendulum.

(** ** The general case of [Update]: the two loops *)

Section Loops.
Context `{Extern}.

Lemma set_angularAcceleration_same (p : Pendulum.t) :
  Pendulum.set_angularAcceleration (Pendulum.angularAcceleration p) p = p.
Proof. destruct p; reflexivity. Qed.

Lemma set_angularAcceleration_twice (a b : float) (p : Pendulum.t) :
  Pendulum.set_angularAcceleration a (Pendulum.set_angularAcceleration b p)
  = Pendulum.set_angularAcceleration a p.
Proof. reflexivity. Qed.

Lemma storesAfter_step (g : float) (ps : list Pendulum.t) (k : nat) :
  storesAfter g ps (k + 1) =
    storesAfter g ps k ++ [(k, pairAcceleration firstOf g ps k);
                           (k + 1, pairAcceleration secondOf g ps k)].
Proof.
  unfold storesAfter. rewrite seq_app, flat_map_app. reflexivity.
Qed.

Lemma accelerate_step (g : float) (ps0 : list Pendulum.t) (k : nat)
    (st : list Pendulum.t * list (nat * float)) :
  k + 1 < length ps0 ->
  acceleratedTo g ps0 k st ->
  exists st', JoinedPendulum.accelerate g st k = Ok st' /\ acceleratedTo g ps0 (k + 1) st'.
Proof.
  intros Hk [Hps Hstores]. destruct st as [ps stores]. simpl in *.
  destruct (lookup_lt_is_Some_2 ps0 k) as [q1 Hq1]; [lia |].
  destruct (lookup_lt_is_Some_2 ps0 (k + 1)) as [q2 Hq2]; [lia |].
  pose proof (Hps k) as Hp1. rewrite Hq1 in Hp1. simpl in Hp1.
  pose proof (Hps (k + 1)) as Hp2. rewrite Hq2 in Hp2. simpl in Hp2.
  assert (Hacc2 : accelerationAfter g ps0 k (k + 1) q2 = Pendulum.angularAcceleration q2).
  { unfold accelerationAfter. repeat case_decide; try lia; reflexivity. }
  rewrite Hacc2, set_angularAcceleration_same in Hp2.
  assert (Hlen : k < length ps) by (eapply lookup_lt_Some; eassumption).
  unfold JoinedPendulum.accelerate.
  rewrite (at_Ok _ _ _ Hp1), (at_Ok _ _ _ Hp2). simpl.
  rewrite (at_Ok _ k _ (list_lookup_insert_eq _ _ _ Hlen)). simpl.
  erewrite at_Ok; [| rewrite list_lookup_insert_ne by lia; exact Hp2]. simpl.
  eexists. split; [reflexivity |]. split; simpl.
  - intros j.
    destruct (decide (j = k + 1)) as [->|Hj1].
    { rewrite list_lookup_insert_eq by (rewrite length_insert; eapply lookup_lt_Some; eassumption).
      rewrite Hq2. simpl. f_equal.
      unfold accelerationAfter. repeat case_decide; try lia.
      replace (k + 1 - 1) with k by lia.
      unfold pairAcceleration. rewrite Hq1, Hq2. reflexivity. }
    rewrite list_lookup_insert_ne by lia.
    destruct (decide (j = k)) as [->|Hj].
    { rewrite list_lookup_insert_eq by assumption. rewrite Hq1. simpl.
      rewrite set_angularAcceleration_twice. do 2 f_equal.
      unfold accelerationAfter. rewrite decide_True by lia.
      unfold pairAcceleration. rewrite Hq1, Hq2. reflexivity. }
    rewrite list_lookup_insert_ne by lia. rewrite Hps.
    destruct (ps0 !! j) as [p0|]; [simpl | reflexivity].
    do 2 f_equal. unfold accelerationAfter. repeat case_decide; try lia; reflexivity.
  - rewrite storesAfter_step, Hstores.
    unfold pairAcceleration. rewrite Hq1, Hq2. reflexivity.
Qed.

(** The acceleration loop completes on every vector, and reads nothing
    but the vector it started from. *)
Lemma accelerateAll_closed (g : float) (ps0 : list Pendulum.t) :
  exists st, JoinedPendulum.accelerateAll g ps0 = Ok st /\
             acceleratedTo g ps0 (length ps0 - 1) st.
Proof.
  unfold JoinedPendulum.accelerateAll.
  apply (for_seq_invariant (JoinedPendulum.accelerate g) (acceleratedTo g ps0)
           (length ps0 - 1) 0 (ps0, [])).
  - split; [| reflexivity]. intros j. simpl.
    destruct (ps0 !! j) as [p0|]; [simpl | reflexivity].
    unfold accelerationAfter. repeat case_decide; try lia.
    rewrite set_angularAcceleration_same. reflexivity.
  - intros i st Hi Hst. apply accelerate_step; [lia | assumption].
Qed.

Lemma positionAfter_0 (dt : float) (ps1 : list Pendulum.t) (p : Pendulum.t) :
  ps1 !! 0 = Some p ->
  positionAfter dt ps1 0 = JoinedPendulum.hangCentre (JoinedPendulum.advance dt p).
Proof. intros Hp. unfold positionAfter. rewrite Hp. reflexivity. Qed.

Lemma positionAfter_S (dt : float) (ps1 : list Pendulum.t) (j : nat) (p : Pendulum.t) :
  ps1 !! (S j) = Some p ->
  positionAfter dt ps1 (S j) =
    JoinedPendulum.hang (positionAfter dt ps1 j) (JoinedPendulum.advance dt p).
Proof. intros Hp. simpl. rewrite Hp. reflexivity. Qed.

Lemma integrate_step (dt : float) (ps1 : list Pendulum.t) (k : nat) (ps : list Pendulum.t) :
  k < length ps1 ->
  integratedTo dt ps1 k ps ->
  exists ps', JoinedPendulum.integrate dt ps k = Ok ps' /\ integratedTo dt ps1 (k + 1) ps'.
Proof.
  intros Hk Hps.
  destruct (lookup_lt_is_Some_2 ps1 k Hk) as [q Hq].
  pose proof (Hps k) as Hp. rewrite Hq in Hp. simpl in Hp.
  rewrite decide_False in Hp by lia.
  assert (Hlen : k < length ps) by (eapply lookup_lt_Some; eassumption).
  unfold JoinedPendulum.integrate. rewrite (at_Ok _ _ _ Hp). simpl.
  assert (Hother : forall v j, j <> k ->
            <[k := v]> (<[k := JoinedPendulum.advance dt q]> ps) !! j =
            (fun p1 => if decide (j < k + 1)
                       then Pendulum.set_position (positionAfter dt ps1 j)
                              (JoinedPendulum.advance dt p1)
                       else p1) <$> ps1 !! j).
  { intros v j Hj. rewrite !list_lookup_insert_ne by lia. rewrite Hps.
    destruct (ps1 !! j) as [p1|]; [simpl | reflexivity].
    repeat case_decide; try lia; reflexivity. }
  assert (Hthis : forall v,
            <[k := v]> (<[k := JoinedPendulum.advance dt q]> ps) !! k = Some v).
  { intros v. apply list_lookup_insert_eq. rewrite length_insert. assumption. }
  case_decide as Hk0.
  - subst k. eexists. split; [reflexivity |]. intros j.
    destruct (decide (j = 0)) as [->|Hj]; [| apply Hother; assumption].
    rewrite Hthis, Hq, (positionAfter_0 dt ps1 q Hq). reflexivity.
  - destruct k as [|k']; [lia |].
    destruct (lookup_lt_is_Some_2 ps1 k') as [q' Hq']; [lia |].
    pose proof (Hps k') as Hp'. rewrite Hq' in Hp'. simpl in Hp'.
    rewrite decide_True in Hp' by lia.
    replace (S k' - 1) with k' by lia.
    erewrite at_Ok; [| rewrite list_lookup_insert_ne by lia; exact Hp']. simpl.
    eexists. split; [reflexivity |]. intros j.
    destruct (decide (j = S k')) as [->|Hj]; [| apply Hother; assumption].
    rewrite Hthis, Hq, (positionAfter_S dt ps1 k' q Hq).
    cbn [fmap option_fmap option_map]. rewrite decide_True by lia. reflexivity.
Qed.

(** The integration loop completes on every vector. *)
Lemma integrateAll_closed (dt : float) (ps1 : list Pendulum.t) :
  exists ps, JoinedPendulum.integrateAll dt ps1 = Ok ps /\
             integratedTo dt ps1 (length ps1) ps.
Proof.
  unfold JoinedPendulum.integrateAll.
  apply (for_seq_invariant (JoinedPendulum.integrate dt) (integratedTo dt ps1)
           (length ps1) 0 ps1).
  - intros j. destruct (ps1 !! j) as [p1|]; [| reflexivity].
    cbn [fmap option_fmap option_map]. rewrite decide_False by lia. reflexivity.
  - intros i st Hi Hst. apply integrate_step; [lia | assumption].
Qed.

Lemma accelerateAll_eq (g : float) (ps0 : list Pendulum.t) :
  JoinedPendulum.accelerateAll g ps0
  = Ok (accelerated g ps0, storesAfter g ps0 (length ps0 - 1)).
Proof.
  destruct (accelerateAll_closed g ps0) as ([ps stores] & -> & Hps & Hstores).
  simpl in *. subst stores. f_equal. f_equal.
  apply list_eq. intros j. unfold accelerated.
  rewrite Hps, list_lookup_imap. reflexivity.
Qed.

Lemma integrateAll_eq (dt : float) (ps1 : list Pendulum.t) :
  JoinedPendulum.integrateAll dt ps1 = Ok (integrated dt ps1).
Proof.
  destruct (integrateAll_closed dt ps1) as (ps & -> & Hps).
  f_equal. apply list_eq. intros j. unfold integrated.
  rewrite Hps, list_lookup_imap.
  destruct (ps1 !! j) as [p1|] eqn:Hj; [| reflexivity].
  cbn [fmap option_fmap option_map]. rewrite decide_True; [reflexivity |].
  eapply lookup_lt_Some; eassumption.
Qed.

Lemma length_accelerated (g : float) (ps0 : list Pendulum.t) :
  length (accelerated g ps0) = length ps0.
Proof. apply length_imap. Qed.

Lemma length_integrated (dt : float) (ps1 : list Pendulum.t) :
  length (integrated dt ps1) = length ps1.
Proof. apply length_imap. Qed.

Lemma lookup_updated (g dt : float) (ps0 : list Pendulum.t) (j : nat) (p0 : Pendulum.t) :
  ps0 !! j = Some p0 ->
  integrated dt (accelerated g ps0) !! j =
    Some (Pendulum.set_position (positionAfter dt (accelerated g ps0) j)
            (JoinedPendulum.advance dt
               (Pendulum.set_angularAcceleration
                  (accelerationAfter g ps0 (length ps0 - 1) j p0) p0))).
Proof.
  intros Hj. unfold integrated. rewrite list_lookup_imap.
  unfold accelerated at 2. rewrite list_lookup_imap, Hj. reflexivity.
Qed.

(** The general case of [Update] in closed form. It completes when the
    cursor is inside the trajectory buffer; the slot at the cursor then
    receives the new position of the last pendulum. *)
Lemma Update_general (settings : SimulationSettings.t) (c : JoinedPendulum.t) :
  2 <= length (JoinedPendulum.pendulums c) ->
  JoinedPendulum.trajectoryIndex c < length (JoinedPendulum.trajectories c) ->
  let ps := integrated (SimulationSettings.fixedDeltaTime settings)
              (accelerated (SimulationSettings.gravity settings) (JoinedPendulum.pendulums c)) in
  exists last,
    ps !! (length (JoinedPendulum.pendulums c) - 1) = Some last /\
    JoinedPendulum.Update settings c =
      Ok (JoinedPendulum.mk ps
            (<[JoinedPendulum.trajectoryIndex c := Pendulum.position last]>
               (JoinedPendulum.trajectories c))
            ((JoinedPendulum.trajectoryIndex c + 1)
               mod length (JoinedPendulum.trajectories c))).
Proof.
  intros Hn Hidx ps.
  destruct (lookup_lt_is_Some_2 ps (length (JoinedPendulum.pendulums c) - 1)) as [last Hlast].
  { unfold ps. rewrite length_integrated, length_accelerated. lia. }
  exists last. split; [assumption |].
  unfold JoinedPendulum.Update.
  rewrite decide_False by lia. rewrite decide_False by lia.
  rewrite accelerateAll_eq. simpl. rewrite integrateAll_eq. simpl.
  fold ps. rewrite (at_Ok _ _ _ Hlast). simpl.
  destruct (at_inside _ _ Hidx) as [v ->]. simpl.
  rewrite length_insert. reflexivity.
Qed.

(** The general case of [Update] does not complete when the cursor is
    outside the trajectory buffer, an empty buffer included: the store
    to the slot is outside the vector. *)
Lemma Update_general_outside (settings : SimulationSettings.t) (c : JoinedPendulum.t) :
  2 <= length (JoinedPendulum.pendulums c) ->
  length (JoinedPendulum.trajectories c) <= JoinedPendulum.trajectoryIndex c ->
  JoinedPendulum.Update settings c = Undefined.
Proof.
  intros Hn Hidx.
  destruct (lookup_lt_is_Some_2
              (integrated (SimulationSettings.fixedDeltaTime settings)
                 (accelerated (SimulationSettings.gravity settings) (JoinedPendulum.pendulums c)))
              (length (JoinedPendulum.pendulums c) - 1)) as [last Hlast].
  { rewrite length_integrated, length_accelerated. lia. }
  unfold JoinedPendulum.Update.
  rewrite decide_False by lia. rewrite decide_False by lia.
  rewrite accelerateAll_eq. simpl. rewrite integrateAll_eq. simpl.
  rewrite (at_Ok _ _ _ Hlast). simpl.
  rewrite (at_outside _ _ Hidx). reflexivity.
Qed.

End Loops.

(** ** The general case of [Update]: what a tick computes *)

Section GeneralCase.
Context `{Extern}.

Lemma pairAcceleration_lookup (body : float -> Pendulum.t -> Pendulum.t -> float)
    (g : float) (ps : list Pendulum.t) (i : nat) (p1 p2 : Pendulum.t) :
  ps !! i = Some p1 -> ps !! (i + 1) = Some p2 ->
  pairAcceleration body g ps i = body g p1 p2.
Proof. intros H1 H2. unfold pairAcceleration. rewrite H1, H2. reflexivity. Qed.

(** After the whole loop, every pendulum but the last holds the
    first-body value of the pair it starts, and the last one the
    second-body value of the pair it ends. *)
Lemma accelerationAfter_first (g : float) (ps : list Pendulum.t) (i : nat)
    (p1 p2 : Pendulum.t) :
  ps !! i = Some p1 -> ps !! (i + 1) = Some p2 ->
  accelerationAfter g ps (length ps - 1) i p1 = firstOf g p1 p2.
Proof.
  intros H1 H2. pose proof (lookup_lt_Some _ _ _ H2) as Hlt.
  unfold accelerationAfter. rewrite decide_True by lia.
  apply pairAcceleration_lookup; assumption.
Qed.

Lemma accelerationAfter_last (g : float) (ps : list Pendulum.t) (p1 p2 : Pendulum.t) :
  2 <= length ps ->
  ps !! (length ps - 2) = Some p1 -> ps !! (length ps - 1) = Some p2 ->
  accelerationAfter g ps (length ps - 1) (length ps - 1) p2 = secondOf g p1 p2.
Proof.
  intros Hn H1 H2. unfold accelerationAfter.
  rewrite decide_False by lia. rewrite decide_True by lia.
  apply pairAcceleration_lookup.
  - replace (length ps - 1 - 1) with (length ps - 2) by lia. assumption.
  - replace (length ps - 1 - 1 + 1) with (length ps - 1) by lia. assumption.
Qed.

(** The stores made to one index by the first [k] iterations: the
    second-body value of the pair before it, then the first-body value
    of the pair it starts. *)
Lemma storesTo_storesAfter (g : float) (ps : list Pendulum.t) (j k : nat) :
  storesTo j (storesAfter g ps k) =
    (if decide (1 <= j <= k) then [pairAcceleration secondOf g ps (j - 1)] else [])
    ++ (if decide (j < k) then [pairAcceleration firstOf g ps j] else []).
Proof.
  induction k as [|k IH].
  - rewrite decide_False by lia. rewrite decide_False by lia. reflexivity.
  - replace (S k) with (k + 1) by lia. rewrite storesAfter_step.
    unfold storesTo in *. rewrite filter_app, fmap_app, IH.
    rewrite !filter_cons, filter_nil. simpl.
    repeat case_decide; simpl in *; try lia; try reflexivity; subst j;
      rewrite ?Nat.add_sub; reflexivity.
Qed.

(** C4. A chain of two or more pendulums, one [Update] (the cursor being
    inside the trajectory buffer): every acceleration is the pair formula
    on the angles and angular velocities that the two pendulums of the
    pair had before the update, and every pendulum then has its velocity
    increased by its acceleration times [dt] and its angle increased by
    the new velocity times [dt]. *)
Theorem Update_general_reads_the_state_before
    (settings : SimulationSettings.t) (c : JoinedPendulum.t) :
  2 <= length (JoinedPendulum.pendulums c) ->
  JoinedPendulum.trajectoryIndex c < length (JoinedPendulum.trajectories c) ->
  let g := SimulationSettings.gravity settings in
  let dt := SimulationSettings.fixedDeltaTime settings in
  let n := length (JoinedPendulum.pendulums c) in
  exists c',
    JoinedPendulum.Update settings c = Ok c' /\
    length (JoinedPendulum.pendulums c') = n /\
    (forall i p1 p2,
       JoinedPendulum.pendulums c !! i = Some p1 ->
       JoinedPendulum.pendulums c !! (i + 1) = Some p2 ->
       exists p1',
         JoinedPendulum.pendulums c' !! i = Some p1' /\
         Pendulum.angularAcceleration p1' =
           JoinedPendulum.firstBody g (Pendulum.angle p1) (Pendulum.angle p2)
             (Pendulum.mass p1) (Pendulum.mass p2) (Pendulum.length p1) (Pendulum.length p2)
             (Pendulum.angularVelocity p1) (Pendulum.angularVelocity p2) /\
         Pendulum.angularVelocity p1' =
           (Pendulum.angularVelocity p1 + Pendulum.angularAcceleration p1' * dt)%float /\
         Pendulum.angle p1' =
           (Pendulum.angle p1 + Pendulum.angularVelocity p1' * dt)%float) /\
    (forall p1 p2,
       JoinedPendulum.pendulums c !! (n - 2) = Some p1 ->
       JoinedPendulum.pendulums c !! (n - 1) = Some p2 ->
       exists p2',
         JoinedPendulum.pendulums c' !! (n - 1) = Some p2' /\
         Pendulum.angularAcceleration p2' =
           JoinedPendulum.secondBody g (Pendulum.angle p1) (Pendulum.angle p2)
             (Pendulum.mass p1) (Pendulum.mass p2) (Pendulum.length p1) (Pendulum.length p2)
             (Pendulum.angularVelocity p1) (Pendulum.angularVelocity p2) /\
         Pendulum.angularVelocity p2' =
           (Pendulum.angularVelocity p2 + Pendulum.angularAcceleration p2' * dt)%float /\
         Pendulum.angle p2' =
           (Pendulum.angle p2 + Pendulum.angularVelocity p2' * dt)%float).
Proof.
  intros Hn Hidx g dt n.
  destruct (Update_general settings c Hn Hidx) as (last & _ & Hrun).
  eexists. split; [exact Hrun |]. simpl.
  split; [rewrite length_integrated, length_accelerated; reflexivity |].
  split.
  - intros i p1 p2 H1 H2. eexists. split; [apply lookup_updated; exact H1 |].
    simpl. rewrite (accelerationAfter_first _ _ _ _ _ H1 H2).
    repeat split; reflexivity.
  - intros p1 p2 H1 H2. eexists. split; [apply lookup_updated; exact H2 |].
    simpl. rewrite (accelerationAfter_last _ _ _ _ Hn H1 H2).
    repeat split; reflexivity.
Qed.

(** C10. A chain of three or more pendulums, one [Update]: the
    acceleration of an interior pendulum [i] is stored twice, first the
    second-body value of the pair [(i-1, i)], then the first-body value
    of the pair [(i, i+1)]; the integration uses the latter. Every
    pendulum but the last ends with a first-body value; the last one is
    stored to once and keeps the second-body value of the last pair. *)
Theorem interior_acceleration_is_stored_twice
    (settings : SimulationSettings.t) (c : JoinedPendulum.t)
    (i : nat) (p0 p1 p2 : Pendulum.t) :
  3 <= length (JoinedPendulum.pendulums c) ->
  JoinedPendulum.trajectoryIndex c < length (JoinedPendulum.trajectories c) ->
  1 <= i -> i + 2 <= length (JoinedPendulum.pendulums c) ->
  JoinedPendulum.pendulums c !! (i - 1) = Some p0 ->
  JoinedPendulum.pendulums c !! i = Some p1 ->
  JoinedPendulum.pendulums c !! (i + 1) = Some p2 ->
  let g := SimulationSettings.gravity settings in
  let dt := SimulationSettings.fixedDeltaTime settings in
  let n := length (JoinedPendulum.pendulums c) in
  exists ps stores c' p1',
    JoinedPendulum.accelerateAll g (JoinedPendulum.pendulums c) = Ok (ps, stores) /\
    JoinedPendulum.Update settings c = Ok c' /\
    storesTo i stores = [secondOf g p0 p1; firstOf g p1 p2] /\
    JoinedPendulum.pendulums c' !! i = Some p1' /\
    Pendulum.angularAcceleration p1' = firstOf g p1 p2 /\
    Pendulum.angularVelocity p1' =
      (Pendulum.angularVelocity p1 + firstOf g p1 p2 * dt)%float /\
    Pendulum.angle p1' =
      (Pendulum.angle p1 + Pendulum.angularVelocity p1' * dt)%float /\
    (forall j q1 q2,
       JoinedPendulum.pendulums c !! j = Some q1 ->
       JoinedPendulum.pendulums c !! (j + 1) = Some q2 ->
       exists q1', JoinedPendulum.pendulums c' !! j = Some q1' /\
                   Pendulum.angularAcceleration q1' = firstOf g q1 q2) /\
    (forall q1 q2,
       JoinedPendulum.pendulums c !! (n - 2) = Some q1 ->
       JoinedPendulum.pendulums c !! (n - 1) = Some q2 ->
       storesTo (n - 1) stores = [secondOf g q1 q2] /\
       exists q2', JoinedPendulum.pendulums c' !! (n - 1) = Some q2' /\
                   Pendulum.angularAcceleration q2' = secondOf g q1 q2).
Proof.
  intros Hn Hidx Hi1 Hi2 H0 H1 H2 g dt n.
  assert (Hn2 : 2 <= length (JoinedPendulum.pendulums c)) by lia.
  destruct (Update_general settings c Hn2 Hidx) as (last & _ & Hrun).
  eexists _, _, _, _.
  split; [apply accelerateAll_eq |].
  split; [exact Hrun |].
  split.
  { rewrite storesTo_storesAfter.
    rewrite decide_True by lia. rewrite decide_True by lia. simpl.
    rewrite (pairAcceleration_lookup secondOf g _ (i - 1) p0 p1);
      [| assumption | replace (i - 1 + 1) with i by lia; assumption].
    rewrite (pairAcceleration_lookup firstOf g _ i p1 p2) by assumption.
    reflexivity. }
  split; [simpl; apply lookup_updated; exact H1 |].
  simpl. rewrite (accelerationAfter_first _ _ _ _ _ H1 H2).
  do 3 (split; [reflexivity |]).
  split.
  - intros j q1 q2 Hq1 Hq2. eexists. split; [apply lookup_updated; exact Hq1 |].
    simpl. apply accelerationAfter_first; assumption.
  - intros q1 q2 Hq1 Hq2. split.
    + rewrite storesTo_storesAfter. fold n.
      rewrite decide_True by lia. rewrite decide_False by lia. simpl.
      rewrite (pairAcceleration_lookup secondOf g _ (n - 1 - 1) q1 q2);
        [reflexivity | |].
      * replace (n - 1 - 1) with (n - 2) by lia. assumption.
      * replace (n - 1 - 1 + 1) with (n - 1) by lia. assumption.
    + eexists. split; [apply lookup_updated; exact Hq2 |].
      simpl. apply accelerationAfter_last; assumption.
Qed.

End GeneralCase.

(** ** The trajectory buffer *)

Section Trajectory.
Context `{Extern}.

(** One [Update] of a chain of two or more pendulums stores the new
    position of the last pendulum at the cursor and moves the cursor on
    by one, modulo the capacity. *)
Lemma Update_general_captures (settings : SimulationSettings.t) (c : JoinedPendulum.t) :
  2 <= length (JoinedPendulum.pendulums c) ->
  JoinedPendulum.trajectoryIndex c < length (JoinedPendulum.trajectories c) ->
  exists c' v,
    JoinedPendulum.Update settings c = Ok c' /\
    length (JoinedPendulum.pendulums c') = length (JoinedPendulum.pendulums c) /\
    tip c' = Some v /\
    JoinedPendulum.trajectories c' =
      <[JoinedPendulum.trajectoryIndex c := v]> (JoinedPendulum.trajectories c) /\
    JoinedPendulum.trajectoryIndex c' =
      (JoinedPendulum.trajectoryIndex c + 1) mod length (JoinedPendulum.trajectories c).
Proof.
  intros Hn Hidx.
  destruct (Update_general settings c Hn Hidx) as (last & Hlast & Hrun).
  eexists _, (Pendulum.position last). split; [exact Hrun |]. simpl.
  split; [rewrite length_integrated, length_accelerated; reflexivity |].
  split; [| split; reflexivity].
  unfold tip. simpl. rewrite last_lookup.
  rewrite length_integrated, length_accelerated.
  replace (Nat.pred (length (JoinedPendulum.pendulums c)))
    with (length (JoinedPendulum.pendulums c) - 1) by lia.
  rewrite Hlast. reflexivity.
Qed.

(** One [Update] of a chain of two or more pendulums, seen from the
    trajectory: the slot at the cursor holds the new position of the
    last pendulum, every other slot is as before, the capacity is the
    same, and the cursor has moved on by one modulo the capacity. *)
Theorem Update_general_records_the_tip (settings : SimulationSettings.t)
    (c : JoinedPendulum.t) :
  2 <= length (JoinedPendulum.pendulums c) ->
  JoinedPendulum.trajectoryIndex c < length (JoinedPendulum.trajectories c) ->
  exists c' v,
    JoinedPendulum.Update settings c = Ok c' /\
    tip c' = Some v /\
    JoinedPendulum.trajectories c' !! JoinedPendulum.trajectoryIndex c = Some v /\
    (forall j, j <> JoinedPendulum.trajectoryIndex c ->
       JoinedPendulum.trajectories c' !! j = JoinedPendulum.trajectories c !! j) /\
    length (JoinedPendulum.trajectories c') = length (JoinedPendulum.trajectories c) /\
    JoinedPendulum.trajectoryIndex c' =
      (JoinedPendulum.trajectoryIndex c + 1) mod length (JoinedPendulum.trajectories c).
Proof.
  intros Hn Hidx.
  destruct (Update_general_captures settings c Hn Hidx)
    as (c' & v & Hrun & _ & Htip & Htraj & Hcur).
  exists c', v. rewrite Htraj.
  split; [exact Hrun |]. split; [exact Htip |].
  split; [apply list_lookup_insert_eq; exact Hidx |].
  split; [intros j Hj; apply list_lookup_insert_ne; congruence |].
  split; [apply length_insert | exact Hcur].
Qed.

(** A chain of two or more pendulums with a trajectory of no points:
    [Update] stores outside the trajectory. *)
Theorem Update_general_without_trajectory (settings : SimulationSettings.t)
    (c : JoinedPendulum.t) :
  2 <= length (JoinedPendulum.pendulums c) ->
  JoinedPendulum.trajectories c = [] ->
  JoinedPendulum.Update settings c = Undefined.
Proof.
  intros Hn Hempty. apply Update_general_outside; [exact Hn |].
  rewrite Hempty. simpl. lia.
Qed.

Lemma slots_differ (cap a j k : nat) :
  j < k -> k < j + cap -> (a + j) mod cap <> (a + k) mod cap.
Proof.
  intros Hjk Hk Heq.
  assert (Hcap : cap <> 0) by lia.
  pose proof (Nat.div_mod (a + j) cap Hcap) as Hj.
  pose proof (Nat.div_mod (a + k) cap Hcap) as Hk'.
  rewrite Heq in Hj.
  assert (Hq : cap * ((a + k) / cap) = cap * ((a + j) / cap) + (k - j)) by lia.
  assert (Hlt : (a + j) / cap < (a + k) / cap) by nia.
  nia.
Qed.

(** The state after [k] ticks of a chain of two or more pendulums whose
    cursor starts inside the buffer: the cursor has advanced by [k]
    modulo the capacity, and the entry written by tick [j + 1] is still
    in its slot as long as fewer than [capacity] ticks followed it. *)
Lemma ticks_general (settings : SimulationSettings.t) (c : JoinedPendulum.t) (k : nat) :
  2 <= length (JoinedPendulum.pendulums c) ->
  JoinedPendulum.trajectoryIndex c < length (JoinedPendulum.trajectories c) ->
  let cap := length (JoinedPendulum.trajectories c) in
  let idx := JoinedPendulum.trajectoryIndex c in
  exists ck,
    ticks settings k c = Ok ck /\
    length (JoinedPendulum.pendulums ck) = length (JoinedPendulum.pendulums c) /\
    length (JoinedPendulum.trajectories ck) = cap /\
    JoinedPendulum.trajectoryIndex ck = (idx + k) mod cap /\
    forall j, j < k -> k <= j + cap ->
      exists cj, ticks settings (j + 1) c = Ok cj /\
                 is_Some (tip cj) /\
                 JoinedPendulum.trajectories ck !! ((idx + j) mod cap) = tip cj.
Proof.
  intros Hn Hidx cap idx.
  induction k as [|k (ck & Hrun & Hlen & Hcap & Hcur & Hslots)].
  - exists c. simpl. repeat split; try reflexivity.
    + rewrite Nat.add_0_r. symmetry. apply Nat.mod_small. assumption.
    + intros j Hj. lia.
  - assert (Hcursor : JoinedPendulum.trajectoryIndex ck
                      < length (JoinedPendulum.trajectories ck)).
    { rewrite Hcur, Hcap. apply Nat.mod_upper_bound. unfold cap. lia. }
    destruct (Update_general_captures settings ck) as (c' & v & Hup & Hlen' & Htip & Htraj & Hcur');
      [lia | assumption |].
    assert (Hrun' : ticks settings (S k) c = Ok c').
    { simpl. rewrite Hrun. exact Hup. }
    exists c'. split; [exact Hrun' |].
    split; [lia |].
    split; [rewrite Htraj, length_insert; assumption |].
    split.
    { rewrite Hcur', Hcur, Hcap.
      rewrite Nat.Div0.add_mod_idemp_l. f_equal. lia. }
    intros j Hj Hjcap.
    destruct (decide (j = k)) as [->|Hne].
    + exists c'. replace (k + 1) with (S k) by lia.
      split; [exact Hrun' |]. split; [rewrite Htip; eauto |].
      rewrite Htraj, <- Hcur, Htip. apply list_lookup_insert_eq. assumption.
    + destruct (Hslots j) as (cj & Hcj & Hsome & Hslot); [lia | lia |].
      exists cj. split; [assumption |]. split; [assumption |].
      rewrite Htraj, list_lookup_insert_ne; [assumption |].
      rewrite Hcur. apply not_eq_sym, slots_differ; lia.
Qed.

(** C7, as the code has it. A chain of two or more pendulums with a
    trajectory of capacity [cap >= 1], after [cap + 1] ticks: the buffer
    still has [cap] entries; the entry of tick 1 is gone, its slot holds
    the position recorded by tick [cap + 1]; the oldest entry, the one at
    the cursor, is the position recorded by tick 2. *)
Theorem trajectory_after_capacity_plus_one_ticks
    (settings : SimulationSettings.t) (c : JoinedPendulum.t) :
  2 <= length (JoinedPendulum.pendulums c) ->
  JoinedPendulum.trajectoryIndex c < length (JoinedPendulum.trajectories c) ->
  let cap := length (JoinedPendulum.trajectories c) in
  exists c1 c2 c',
    ticks settings 1 c = Ok c1 /\
    ticks settings 2 c = Ok c2 /\
    ticks settings (cap + 1) c = Ok c' /\
    length (JoinedPendulum.trajectories c') = cap /\
    JoinedPendulum.trajectories c1 !! JoinedPendulum.trajectoryIndex c = tip c1 /\
    JoinedPendulum.trajectories c' !! JoinedPendulum.trajectoryIndex c = tip c' /\
    is_Some (oldest c') /\
    oldest c' = tip c2.
Proof.
  intros Hn Hidx cap.
  assert (Hcap : cap <> 0) by (unfold cap; lia).
  destruct (ticks_general settings c 1 Hn Hidx) as (c1 & Hc1 & _ & _ & _ & Hs1).
  destruct (ticks_general settings c (cap + 1) Hn Hidx)
    as (c' & Hc' & _ & Hlen & Hcur & Hs).
  fold cap in Hs1, Hs, Hcur, Hlen.
  destruct (Hs1 0) as (c1' & Hc1' & _ & Hslot1); [lia | lia |].
  destruct (Hs 1) as (c2 & Hc2 & Hsome2 & Hslot2); [lia | lia |].
  destruct (Hs cap) as (cl & Hcl & _ & Hslotl); [lia | lia |].
  change (0 + 1) with 1 in Hc1'. change (1 + 1) with 2 in Hc2.
  assert (c1' = c1) by congruence. assert (cl = c') by congruence. subst c1' cl.
  rewrite Nat.add_0_r, Nat.mod_small in Hslot1 by assumption.
  replace (JoinedPendulum.trajectoryIndex c + cap)
    with (JoinedPendulum.trajectoryIndex c + 1 * cap) in Hslotl by lia.
  rewrite Nat.Div0.mod_add, Nat.mod_small in Hslotl by assumption.
  assert (Hold : oldest c' = tip c2).
  { unfold oldest. rewrite Hcur, <- Hslot2. f_equal.
    replace (JoinedPendulum.trajectoryIndex c + (cap + 1))
      with (JoinedPendulum.trajectoryIndex c + 1 + 1 * cap) by lia.
    apply Nat.Div0.mod_add. }
  exists c1, c2, c'. repeat split; try assumption.
  rewrite Hold. assumption.
Qed.

End Trajectory.

(** ** The constructor *)

Section Constructor.
Context `{Extern}.

Lemma construct_loop (size : nat) (lengths masses initialAngles : list float) :
  length lengths = size -> length masses = size -> length initialAngles = size ->
  exists ps,
    for_ (JoinedPendulum.construct lengths masses initialAngles)
      (replicate size Pendulum.default) (seq 0 size) = Ok ps /\
    length ps = size /\
    forall j l m a,
      lengths !! j = Some l -> masses !! j = Some m -> initialAngles !! j = Some a ->
      ps !! j = Some (Pendulum.new l m a).
Proof.
  intros Hl Hm Ha.
  destruct (for_seq_invariant (JoinedPendulum.construct lengths masses initialAngles)
              (fun k ps => length ps = size /\
                 forall j l m a, j < k ->
                   lengths !! j = Some l -> masses !! j = Some m ->
                   initialAngles !! j = Some a -> ps !! j = Some (Pendulum.new l m a))
              size 0 (replicate size Pendulum.default))
    as (ps & Hrun & Hlen & Hps).
  - split; [apply length_replicate | intros; lia].
  - intros k ps Hk [Hlen Hps]. unfold JoinedPendulum.construct.
    destruct (lookup_lt_is_Some_2 lengths k) as [l Hlk]; [lia |].
    destruct (lookup_lt_is_Some_2 masses k) as [m Hmk]; [lia |].
    destruct (lookup_lt_is_Some_2 initialAngles k) as [a Hak]; [lia |].
    destruct (lookup_lt_is_Some_2 ps k) as [p Hpk]; [lia |].
    rewrite (at_Ok _ _ _ Hlk), (at_Ok _ _ _ Hmk), (at_Ok _ _ _ Hak), (at_Ok _ _ _ Hpk).
    simpl. eexists. split; [reflexivity |].
    split; [rewrite length_insert; assumption |].
    intros j l' m' a' Hj Hl' Hm' Ha'.
    destruct (decide (j = k)) as [->|Hne].
    + rewrite list_lookup_insert_eq by lia. congruence.
    + rewrite list_lookup_insert_ne by lia. apply Hps; [lia | assumption..].
  - exists ps. split; [assumption |]. split; [assumption |].
    intros j l m a Hlj Hmj Haj. apply (Hps j l m a); [| assumption..].
    apply lookup_lt_Some in Hlj. lia.
Qed.

Lemma positionConnected_S (ps1 : list Pendulum.t) (j : nat) (p : Pendulum.t) :
  ps1 !! (S j) = Some p ->
  positionConnected ps1 (S j) = JoinedPendulum.hang (positionConnected ps1 j) p.
Proof. intros Hp. simpl. rewrite Hp. reflexivity. Qed.

Lemma connect_step (ps1 : list Pendulum.t) (k : nat) (ps : list Pendulum.t) :
  1 <= k < length ps1 ->
  connectedTo ps1 k ps ->
  exists ps', JoinedPendulum.connect ps k = Ok ps' /\ connectedTo ps1 (k + 1) ps'.
Proof.
  intros Hk Hps. destruct k as [|k']; [lia |].
  destruct (lookup_lt_is_Some_2 ps1 (S k')) as [q Hq]; [lia |].
  destruct (lookup_lt_is_Some_2 ps1 k') as [q' Hq']; [lia |].
  pose proof (Hps (S k')) as Hp. rewrite Hq in Hp.
  cbn [fmap option_fmap option_map] in Hp. rewrite decide_False in Hp by lia.
  pose proof (Hps k') as Hp'. rewrite Hq' in Hp'.
  cbn [fmap option_fmap option_map] in Hp'.
  assert (Hpos : exists pp, ps !! k' = Some pp /\
                   Pendulum.position pp = positionConnected ps1 k').
  { case_decide as Hk'.
    - eexists. split; [exact Hp' | reflexivity].
    - exists q'. split; [exact Hp' |].
      assert (k' = 0) as -> by lia. unfold positionConnected. rewrite Hq'. reflexivity. }
  destruct Hpos as (pp & Hpp & Hpos).
  unfold JoinedPendulum.connect. replace (S k' - 1) with k' by lia.
  rewrite (at_Ok _ _ _ Hpp), (at_Ok _ _ _ Hp). simpl.
  eexists. split; [reflexivity |]. intros j.
  destruct (decide (j = S k')) as [->|Hne].
  - rewrite list_lookup_insert_eq by (eapply lookup_lt_Some; eassumption).
    rewrite Hq, (positionConnected_S ps1 k' q Hq), Hpos.
    cbn [fmap option_fmap option_map]. rewrite decide_True by lia. reflexivity.
  - rewrite list_lookup_insert_ne by lia. rewrite Hps.
    destruct (ps1 !! j) as [p|]; [| reflexivity].
    cbn [fmap option_fmap option_map].
    repeat case_decide; try lia; reflexivity.
Qed.

(** The constructor's second loop completes, and changes positions
    only. *)
Lemma connect_loop (ps1 : list Pendulum.t) :
  exists ps,
    for_ JoinedPendulum.connect ps1 (seq 1 (length ps1 - 1)) = Ok ps /\
    length ps = length ps1 /\
    forall j p, ps1 !! j = Some p ->
      exists v, ps !! j = Some (Pendulum.set_position v p).
Proof.
  destruct (for_seq_invariant JoinedPendulum.connect (connectedTo ps1)
              (length ps1 - 1) 1 ps1) as (ps & Hrun & Hps).
  - intros j. destruct (ps1 !! j) as [p|]; [| reflexivity].
    cbn [fmap option_fmap option_map]. rewrite decide_False by lia. reflexivity.
  - intros k st Hk Hst. apply connect_step; [lia | assumption].
  - exists ps. split; [assumption |].
    assert (Hlookup : forall j p, ps1 !! j = Some p ->
              exists v, ps !! j = Some (Pendulum.set_position v p)).
    { intros j p Hj. rewrite Hps, Hj. cbn [fmap option_fmap option_map].
      case_decide; [eauto |].
      exists (Pendulum.position p). destruct p; reflexivity. }
    split; [| assumption].
    apply Nat.le_antisymm.
    + apply Nat.nlt_ge. intros Hlt.
      destruct (lookup_lt_is_Some_2 ps (length ps1) Hlt) as [p Hp].
      rewrite Hps, (lookup_ge_None_2 ps1 (length ps1)) in Hp by lia. discriminate.
    + apply Nat.nlt_ge. intros Hlt.
      destruct (lookup_lt_is_Some_2 ps1 (length ps) Hlt) as [p Hp].
      destruct (Hlookup _ _ Hp) as [v Hv].
      apply lookup_lt_Some in Hv. lia.
Qed.

(** The constructor completes when the three vectors have the requested
    size: it then builds [size] pendulums with the given lengths, masses
    and angles, at rest, a trajectory of [trajectoriesSize] zero points
    and the cursor 0. *)
Lemma new_Ok (size : nat) (lengths masses initialAngles : list float)
    (trajectoriesSize : nat) :
  length lengths = size -> length masses = size -> length initialAngles = size ->
  exists ps,
    JoinedPendulum.new size lengths masses initialAngles trajectoriesSize =
      Ok (JoinedPendulum.mk ps (replicate trajectoriesSize Vector2Double.zero) 0) /\
    length ps = size /\
    forall j l m a,
      lengths !! j = Some l -> masses !! j = Some m -> initialAngles !! j = Some a ->
      exists v, ps !! j = Some (Pendulum.set_position v (Pendulum.new l m a)).
Proof.
  intros Hl Hm Ha.
  destruct (construct_loop size lengths masses initialAngles Hl Hm Ha)
    as (ps1 & Hrun1 & Hlen1 & Hps1).
  destruct (connect_loop ps1) as (ps & Hrun & Hlen & Hps).
  exists ps. unfold JoinedPendulum.new.
  rewrite !decide_False by (intros Hne; apply Hne; assumption).
  cbn zeta. rewrite length_replicate, Hrun1. simpl. rewrite Hrun. simpl.
  split; [reflexivity |]. split; [lia |].
  intros j l m a Hlj Hmj Haj. apply Hps. eapply Hps1; eassumption.
Qed.

(** C9. The constructor throws exactly when one of [lengths], [masses],
    [initialAngles] has a size other than the requested one, and
    otherwise completes; an outcome that is an exception carries no
    chain, and a chain that is built is built whole: [size] pendulums,
    [trajectoriesSize] points, cursor 0. *)
Theorem new_throws_exactly_on_a_size_mismatch
    (size : nat) (lengths masses initialAngles : list float) (trajectoriesSize : nat) :
  let mismatch :=
    length lengths <> size \/ length masses <> size \/ length initialAngles <> size in
  let built := JoinedPendulum.new size lengths masses initialAngles trajectoriesSize in
  ((exists what, built = Throw what) <-> mismatch) /\
  ((exists c, built = Ok c) <-> ~ mismatch) /\
  (forall c, built = Ok c ->
     length (JoinedPendulum.pendulums c) = size /\
     length (JoinedPendulum.trajectories c) = trajectoriesSize /\
     JoinedPendulum.trajectoryIndex c = 0).
Proof.
  intros mismatch built.
  destruct (decide (length lengths = size)) as [Hl|Hl];
    [destruct (decide (length masses = size)) as [Hm|Hm];
       [destruct (decide (length initialAngles = size)) as [Ha|Ha] |] |].
  - destruct (new_Ok size lengths masses initialAngles trajectoriesSize Hl Hm Ha)
      as (ps & Hrun & Hlen & _).
    fold built in Hrun. rewrite Hrun. unfold mismatch.
    split; [| split].
    + split; [intros [what Hwhat]; discriminate |].
      intros [Hne|[Hne|Hne]]; contradiction.
    + split; [intros _ [Hne|[Hne|Hne]]; contradiction | eauto].
    + intros c Hc. injection Hc as <-. simpl.
      rewrite length_replicate. auto.
  - assert (Hrun : built = Throw "Invalid size provided for initialAngles").
    { unfold built, JoinedPendulum.new.
      rewrite decide_False by (intros Hne; apply Hne; assumption).
      rewrite decide_False by (intros Hne; apply Hne; assumption).
      rewrite decide_True by assumption. reflexivity. }
    rewrite Hrun. unfold mismatch. repeat split; try discriminate; eauto.
    + intros [c Hc]. discriminate.
    + intros Hno. exfalso. apply Hno. auto.
  - assert (Hrun : built = Throw "Invalid size provided for masses").
    { unfold built, JoinedPendulum.new.
      rewrite decide_False by (intros Hne; apply Hne; assumption).
      rewrite decide_True by assumption. reflexivity. }
    rewrite Hrun. unfold mismatch. repeat split; try discriminate; eauto.
    + intros [c Hc]. discriminate.
    + intros Hno. exfalso. apply Hno. auto.
  - assert (Hrun : built = Throw "Invalid size provided for lengths").
    { unfold built, JoinedPendulum.new. rewrite decide_True by assumption. reflexivity. }
    rewrite Hrun. unfold mismatch. repeat split; try discriminate; eauto.
    + intros [c Hc]. discriminate.
    + intros Hno. exfalso. apply Hno. auto.
Qed.

End Constructor.

(** ** Seeding the population *)

Section Seeding.
Context `{Extern}.

(** The initial angles that the body of the seeding loop hands to the
    constructor, for a chain of one pendulum or more. *)
Lemma initialize_Ok (settings : SimulationSettings.t) (resets : Z)
    (pendulums : list JoinedPendulum.t) (i : nat) :
  let joined := N.to_nat (SimulationSettings.pendulumsJoined settings) in
  1 <= joined ->
  i < length pendulums ->
  exists ps,
    initialize settings resets pendulums i =
      Ok (<[i := JoinedPendulum.mk ps
                   (replicate (N.to_nat (SimulationSettings.trajectoryPoints settings))
                      Vector2Double.zero) 0]> pendulums) /\
    length ps = joined /\
    (exists v, ps !! 0 =
       Some (Pendulum.set_position v
               (Pendulum.new (SimulationSettings.pendulumLength settings)
                  (SimulationSettings.pendulumMass settings)
                  (firstAngle (N.of_nat i) (N.of_nat (length pendulums)) resets)))) /\
    (forall j, 1 <= j < joined ->
       exists v, ps !! j =
         Some (Pendulum.set_position v
                 (Pendulum.new (SimulationSettings.pendulumLength settings)
                    (SimulationSettings.pendulumMass settings) PI))).
Proof.
  intros joined Hjoined Hi. unfold initialize. fold joined.
  clearbody joined. destruct joined as [|rest]; [lia |].
  cbn [replicate at_ lookup list_lookup insert list_insert mbind outcome_bind].
  match goal with |- context [JoinedPendulum.new _ ?l ?m ?a _] =>
    destruct (new_Ok (S rest) l m a
                (N.to_nat (SimulationSettings.trajectoryPoints settings)))
      as (ps & Hrun & Hlen & Hps);
      [simpl; rewrite length_replicate; reflexivity..|]
  end.
  rewrite Hrun. cbn [mbind outcome_bind].
  destruct (at_inside _ _ Hi) as [c0 ->]. cbn [mbind outcome_bind].
  exists ps. split; [reflexivity |]. split; [assumption |]. split.
  - apply Hps; reflexivity.
  - intros j Hjr. destruct j as [|j]; [lia |].
    apply Hps; simpl; apply lookup_replicate_2; lia.
Qed.

(** C8. Seeding a population of [count] chains of one pendulum or more
    each, after [resets] resets, completes; chain [i] has its first
    pendulum at [PI + 0.125 + i / count * 0.0001
    + (fmod (resets * 0.5 + PI / 8) (PI / 4) - PI / 8)], every other
    pendulum at [PI], all of the configured length and mass and at rest,
    a trajectory of zero points of the configured size, and the cursor
    0. *)
Theorem InitializePendulums_seeds (settings : SimulationSettings.t) (resets : Z) :
  let joined := N.to_nat (SimulationSettings.pendulumsJoined settings) in
  let count := SimulationSettings.joinedPendulumsCount settings in
  1 <= joined ->
  exists pendulums,
    InitializePendulums settings resets = Ok pendulums /\
    length pendulums = N.to_nat count /\
    forall i, i < N.to_nat count ->
      exists c first,
        pendulums !! i = Some c /\
        length (JoinedPendulum.pendulums c) = joined /\
        JoinedPendulum.pendulums c !! 0 = Some first /\
        Pendulum.angle first = firstAngle (N.of_nat i) count resets /\
        (forall j p, 1 <= j -> JoinedPendulum.pendulums c !! j = Some p ->
           Pendulum.angle p = PI) /\
        (forall j p, JoinedPendulum.pendulums c !! j = Some p ->
           Pendulum.length p = SimulationSettings.pendulumLength settings /\
           Pendulum.mass p = SimulationSettings.pendulumMass settings /\
           Pendulum.angularVelocity p = 0%float /\
           Pendulum.angularAcceleration p = 0%float) /\
        JoinedPendulum.trajectories c =
          replicate (N.to_nat (SimulationSettings.trajectoryPoints settings))
            Vector2Double.zero /\
        JoinedPendulum.trajectoryIndex c = 0.
Proof.
  intros joined count Hjoined.
  set (seeded := fun (i : nat) (c : JoinedPendulum.t) =>
    exists first,
      length (JoinedPendulum.pendulums c) = joined /\
      JoinedPendulum.pendulums c !! 0 = Some first /\
      Pendulum.angle first = firstAngle (N.of_nat i) count resets /\
      (forall j p, 1 <= j -> JoinedPendulum.pendulums c !! j = Some p ->
         Pendulum.angle p = PI) /\
      (forall j p, JoinedPendulum.pendulums c !! j = Some p ->
         Pendulum.length p = SimulationSettings.pendulumLength settings /\
         Pendulum.mass p = SimulationSettings.pendulumMass settings /\
         Pendulum.angularVelocity p = 0%float /\
         Pendulum.angularAcceleration p = 0%float) /\
      JoinedPendulum.trajectories c =
        replicate (N.to_nat (SimulationSettings.trajectoryPoints settings))
          Vector2Double.zero /\
      JoinedPendulum.trajectoryIndex c = 0).
  unfold InitializePendulums. fold count. rewrite length_replicate.
  destruct (for_seq_invariant (initialize settings resets)
              (fun k pendulums =>
                 length pendulums = N.to_nat count /\
                 forall i, i < k -> exists c, pendulums !! i = Some c /\ seeded i c)
              (N.to_nat count) 0 (replicate (N.to_nat count) JoinedPendulum.default))
    as (pendulums & Hrun & Hlen & Hall).
  - split; [apply length_replicate | intros; lia].
  - intros k pendulums Hk [Hlen Hbefore].
    destruct (initialize_Ok settings resets pendulums k)
      as (ps & Hrun & Hps & (v & Hfirst) & Hrest); [assumption | lia |].
    fold joined in Hps, Hrest.
    eexists. split; [exact Hrun |]. split; [rewrite length_insert; assumption |].
    intros i Hi. destruct (decide (i = k)) as [->|Hne].
    + eexists. split; [apply list_lookup_insert_eq; lia |].
      eexists. simpl. split; [assumption |]. split; [exact Hfirst |].
      split; [simpl; rewrite Hlen, N2Nat.id; reflexivity |].
      split; [| split; [| split; reflexivity]]; intros j p.
      * intros Hj Hp.
        destruct (Hrest j) as [w Hw]; [apply lookup_lt_Some in Hp; lia |].
        rewrite Hw in Hp. injection Hp as <-. reflexivity.
      * intros Hp. destruct j as [|j].
        { rewrite Hfirst in Hp. injection Hp as <-. auto. }
        destruct (Hrest (S j)) as [w Hw]; [apply lookup_lt_Some in Hp; lia |].
        rewrite Hw in Hp. injection Hp as <-. auto.
    + rewrite list_lookup_insert_ne by lia. apply Hbefore. lia.
  - exists pendulums. split; [assumption |]. split; [assumption |].
    intros i Hi. destruct (Hall i) as (c & Hc & first & Hseed); [lia |].
    exists c, first. split; [assumption |]. exact Hseed.
Qed.

End Seeding.

(** ** Arithmetic in [float]: the sample index *)

Section SinglePrecision.
Local Open Scope Z_scope.

Lemma iter_pos_iter {A} (f : A -> A) (p : positive) (x : A) :
  SpecFloat.iter_pos f p x = Pos.iter f x p.
Proof.
  revert x. induction p as [p IH|p IH|]; intros x; simpl.
  - rewrite !IH. rewrite <- !Pos.iter_swap. reflexivity.
  - rewrite !IH. reflexivity.
  - reflexivity.
Qed.

Lemma iter_xO_value (p k : positive) : Z.pos (Pos.iter xO p k) = Z.pos p * 2 ^ Z.pos k.
Proof.
  induction k as [|k IH] using Pos.peano_ind.
  - simpl. lia.
  - rewrite Pos.iter_succ, Pos2Z.inj_succ, Z.pow_succ_r by lia. lia.
Qed.

Lemma shl_value (p : positive) (k : Z) : 0 <= k -> Z.pos (shl p k) = Z.pos p * 2 ^ k.
Proof.
  intros Hk. destruct k as [|k|k]; simpl; [lia | apply iter_xO_value | lia].
Qed.

Lemma iter_xO_digits (p k : positive) :
  digits2_pos (Pos.iter xO p k) = (digits2_pos p + k)%positive.
Proof.
  induction k as [|k IH] using Pos.peano_ind.
  - simpl. lia.
  - rewrite Pos.iter_succ. simpl. rewrite IH. lia.
Qed.

Lemma shl_digits (p : positive) (k : Z) :
  0 <= k -> Z.pos (digits2_pos (shl p k)) = Z.pos (digits2_pos p) + k.
Proof.
  intros Hk. destruct k as [|k|k]; simpl; [lia | rewrite iter_xO_digits; lia | lia].
Qed.

Lemma digits2_pos_bounds (p : positive) :
  2 ^ (Z.pos (digits2_pos p) - 1) <= Z.pos p < 2 ^ Z.pos (digits2_pos p).
Proof.
  induction p as [p IH|p IH|]; simpl digits2_pos.
  - rewrite Pos2Z.inj_succ. replace (Z.succ (Z.pos (digits2_pos p)) - 1)
      with (Z.succ (Z.pos (digits2_pos p) - 1)) by lia.
    rewrite !Z.pow_succ_r by lia. lia.
  - rewrite Pos2Z.inj_succ. replace (Z.succ (Z.pos (digits2_pos p)) - 1)
      with (Z.succ (Z.pos (digits2_pos p) - 1)) by lia.
    rewrite !Z.pow_succ_r by lia. lia.
  - simpl. lia.
Qed.

(** The number of bits is determined by the bounds. *)
Lemma digits2_pos_unique (p : positive) (d : Z) :
  2 ^ (d - 1) <= Z.pos p < 2 ^ d -> Z.pos (digits2_pos p) = d.
Proof.
  intros [Hlo Hhi]. pose proof (digits2_pos_bounds p) as [Hlo' Hhi'].
  assert (0 < d).
  { destruct (Z.le_gt_cases d 0) as [Hd|Hd]; [| lia].
    assert (2 ^ d <= 2 ^ 0) by (apply Z.pow_le_mono_r; lia). simpl in *. lia. }
  destruct (Z.lt_trichotomy (Z.pos (digits2_pos p)) d) as [Hlt|[Heq|Hgt]]; [| assumption |].
  - assert (2 ^ Z.pos (digits2_pos p) <= 2 ^ (d - 1)) by (apply Z.pow_le_mono_r; lia). lia.
  - assert (2 ^ d <= 2 ^ (Z.pos (digits2_pos p) - 1)) by (apply Z.pow_le_mono_r; lia). lia.
Qed.

Lemma fexp_linear (k : Z) : -125 <= k -> fexp 24 128 k = k - 24.
Proof. intros Hk. unfold fexp, emin. lia. Qed.

(** Exact right shifts: the bits shifted out are zero. *)
Lemma shr_exact (m0 : positive) (e k : Z) :
  0 <= k ->
  shr (Build_shr_record (Z.pos (shl m0 k)) false false) e k
  = (Build_shr_record (Z.pos m0) false false, e + k).
Proof.
  intros Hk. destruct k as [|k|k]; [simpl; f_equal; lia | | lia].
  unfold shr, shl. f_equal. rewrite iter_pos_iter. clear Hk.
  induction k as [|k IH] using Pos.peano_ind.
  - reflexivity.
  - rewrite (Pos.iter_succ k _ xO). rewrite Pos.iter_succ, <- Pos.iter_swap. simpl. exact IH.
Qed.

(** A mantissa of 24 bits followed by [k] zero bits rounds to itself. *)
Lemma binary_round_aux_exact (s : bool) (m0 : positive) (e k : Z) :
  Z.pos (digits2_pos m0) = 24 -> 0 <= k -> -149 <= e + k <= 104 ->
  binary_round_aux 24 128 s (Z.pos (shl m0 k)) e loc_Exact = S754_finite s m0 (e + k).
Proof.
  intros Hd Hk He. unfold binary_round_aux, shr_fexp.
  cbn [Zdigits2 shr_record_of_loc]. rewrite shl_digits, Hd by assumption.
  rewrite fexp_linear by lia.
  replace (24 + k + e - 24 - e) with k by lia.
  rewrite shr_exact by assumption.
  cbn [shr_m loc_of_shr_record round_nearest_even Zdigits2 shr_record_of_loc].
  rewrite Hd, fexp_linear by lia.
  replace (24 + (e + k) - 24 - (e + k)) with 0 by lia.
  cbn [shr shr_m]. replace (e + k <=? 128 - 24) with true by (symmetry; apply Z.leb_le; lia).
  reflexivity.
Qed.

(** The [float] of an integer below 2^24: the integer itself, its 24-bit
    mantissa being the integer shifted left. *)
Lemma of_size_small (p : positive) :
  let d := Z.pos (digits2_pos p) in
  d <= 24 ->
  Float32.of_size (N.pos p) = S754_finite false (shl p (24 - d)) (d - 24).
Proof.
  intros d Hd. unfold Float32.of_size, Float32.prec, Float32.emax.
  cbn [Z.of_N binary_normalize]. unfold binary_round.
  fold d. rewrite Z.add_0_r, fexp_linear by lia.
  assert (Hshl : shl_align p 0 (d - 24) = (shl p (24 - d), d - 24)).
  { unfold shl_align. rewrite Z.sub_0_r.
    destruct (d - 24) as [|k|k] eqn:Hk; [| lia |].
    - replace (24 - d) with 0 by lia. reflexivity.
    - replace (24 - d) with (Z.pos k) by lia. reflexivity. }
  rewrite Hshl.
  assert (Hm : Z.pos (digits2_pos (shl p (24 - d))) = 24).
  { rewrite shl_digits by lia. fold d. lia. }
  pose proof (binary_round_aux_exact false (shl p (24 - d)) (d - 24) 0 Hm) as Hround.
  simpl shl in Hround at 1. rewrite Z.add_0_r in Hround. apply Hround; lia.
Qed.


Lemma digits_le_24 (p : positive) : Z.pos p < 2 ^ 24 -> Z.pos (digits2_pos p) <= 24.
Proof.
  intros Hp. pose proof (digits2_pos_bounds p) as [Hlo _].
  destruct (Z.le_gt_cases (Z.pos (digits2_pos p)) 24) as [Hd|Hd]; [assumption |].
  assert (2 ^ 24 <= 2 ^ (Z.pos (digits2_pos p) - 1)) by (apply Z.pow_le_mono_r; lia). lia.
Qed.

Lemma digits_mul_lower (p q : positive) :
  Z.pos (digits2_pos p) + Z.pos (digits2_pos q) - 1 <= Z.pos (digits2_pos (p * q)).
Proof.
  pose proof (digits2_pos_bounds p) as [Hp _].
  pose proof (digits2_pos_bounds q) as [Hq _].
  pose proof (digits2_pos_bounds (p * q)) as [_ Hpq].
  assert (Hprod : 2 ^ (Z.pos (digits2_pos p) - 1 + (Z.pos (digits2_pos q) - 1))
                  <= Z.pos (p * q)).
  { rewrite Z.pow_add_r by lia. rewrite Pos2Z.inj_mul. nia. }
  destruct (Z.le_gt_cases (Z.pos (digits2_pos p) + Z.pos (digits2_pos q) - 1)
              (Z.pos (digits2_pos (p * q)))) as [Hd|Hd]; [assumption |].
  assert (2 ^ Z.pos (digits2_pos (p * q))
          <= 2 ^ (Z.pos (digits2_pos p) - 1 + (Z.pos (digits2_pos q) - 1)))
    by (apply Z.pow_le_mono_r; lia).
  lia.
Qed.

(** The product of two integers is exact in [float] when it is below
    2^24. *)
Lemma mul_small (p q : positive) :
  Z.pos (p * q) < 2 ^ 24 ->
  Float32.mul (Float32.of_size (N.pos p)) (Float32.of_size (N.pos q))
  = Float32.of_size (N.pos (p * q)).
Proof.
  intros Hpq.
  assert (Hp : Z.pos p < 2 ^ 24) by (rewrite Pos2Z.inj_mul in Hpq; nia).
  assert (Hq : Z.pos q < 2 ^ 24) by (rewrite Pos2Z.inj_mul in Hpq; nia).
  pose proof (digits_le_24 p Hp) as Hdp. pose proof (digits_le_24 q Hq) as Hdq.
  pose proof (digits_le_24 (p * q) Hpq) as Hdpq.
  pose proof (digits_mul_lower p q) as Hlow.
  rewrite (of_size_small p Hdp), (of_size_small q Hdq), (of_size_small (p * q) Hdpq).
  set (dp := Z.pos (digits2_pos p)) in *. set (dq := Z.pos (digits2_pos q)) in *.
  set (dpq := Z.pos (digits2_pos (p * q))) in *.
  unfold Float32.mul, Float32.prec, Float32.emax. cbn [SFmul xorb].
  assert (Hm : (shl p (24 - dp) * shl q (24 - dq))%positive
               = shl (shl (p * q) (24 - dpq)) (24 + dpq - dp - dq)).
  { apply Pos2Z.inj. rewrite Pos2Z.inj_mul, !shl_value by lia.
    rewrite Pos2Z.inj_mul.
    assert (Hpow : 2 ^ (24 - dp) * 2 ^ (24 - dq)
                   = 2 ^ (24 - dpq) * 2 ^ (24 + dpq - dp - dq)).
    { rewrite <- !Z.pow_add_r by lia. f_equal. lia. }
    transitivity (Z.pos p * Z.pos q * (2 ^ (24 - dp) * 2 ^ (24 - dq))); [ring |].
    rewrite Hpow. ring. }
  rewrite Hm.
  rewrite binary_round_aux_exact; [f_equal; lia | | lia | lia].
  rewrite shl_digits by lia. fold dpq. lia.
Qed.


(** The last step of [binary_round_aux]: a mantissa that rounding has
    carried to 2^24 is brought back to 24 bits. *)
Lemma round_finish (s : bool) (m1 : positive) (e : Z) :
  2 ^ 23 <= Z.pos m1 <= 2 ^ 24 -> -125 <= e <= 100 ->
  exists m ef,
    (let '(mrs, e'') := shr_fexp 24 128 (Z.pos m1) e loc_Exact in
     match shr_m mrs with
     | Z0 => S754_zero s
     | Z.pos m => if e'' <=? 128 - 24 then S754_finite s m e'' else S754_infinity s
     | Z.neg _ => S754_nan
     end) = S754_finite s m ef /\
    Z.pos (digits2_pos m) = 24 /\ e <= ef <= e + 1 /\
    Z.pos m * 2 ^ (ef - e) = Z.pos m1.
Proof.
  intros Hm He. unfold shr_fexp. cbn [Zdigits2 shr_record_of_loc].
  destruct (Z.eq_dec (Z.pos m1) (2 ^ 24)) as [Heq|Hne].
  - assert (m1 = 16777216%positive) as -> by lia.
    change (Z.pos (digits2_pos 16777216)) with 25.
    rewrite fexp_linear by lia. replace (25 + e - 24 - e) with 1 by lia.
    cbn [shr SpecFloat.iter_pos shr_1 shr_m].
    replace (e + 1 <=? 128 - 24) with true by (symmetry; apply Z.leb_le; lia).
    exists 8388608%positive, (e + 1). split; [reflexivity |].
    split; [reflexivity |]. split; [lia |].
    replace (e + 1 - e) with 1 by lia. reflexivity.
  - assert (Hd : Z.pos (digits2_pos m1) = 24) by (apply digits2_pos_unique; lia).
    rewrite Hd, fexp_linear by lia. replace (24 + e - 24 - e) with 0 by lia.
    cbn [shr shr_m].
    replace (e <=? 128 - 24) with true by (symmetry; apply Z.leb_le; lia).
    exists m1, e. split; [reflexivity |]. split; [assumption |]. split; [lia |].
    rewrite Z.sub_diag. lia.
Qed.

(** What rounding a quotient of 24 or 25 bits to nearest even can
    give, in units of the last place of the quotient: the quotient
    itself, or one more when the remainder says at least half (24 bits)
    or the quotient is odd (25 bits), or one less when the quotient has
    25 bits and is odd. *)
Lemma round_cases (q : positive) (e : Z) (loc : location) :
  2 ^ 23 <= Z.pos q < 2 ^ 25 -> -125 <= e <= 90 ->
  exists m ef,
    binary_round_aux 24 128 false (Z.pos q) e loc = S754_finite false m ef /\
    Z.pos (digits2_pos m) = 24 /\ e <= ef <= e + 2 /\
    let v := Z.pos m * 2 ^ (ef - e) in
    v = Z.pos q \/
    (v = Z.pos q + 1 /\ Z.pos q < 2 ^ 24 /\
     (loc = loc_Inexact Eq \/ loc = loc_Inexact Gt)) \/
    (v = Z.pos q + 1 /\ 2 ^ 24 <= Z.pos q /\ Z.odd (Z.pos q) = true) \/
    (v = Z.pos q - 1 /\ 2 ^ 24 <= Z.pos q /\ Z.odd (Z.pos q) = true).
Proof.
  intros Hq He. unfold binary_round_aux.
  destruct (Z.lt_ge_cases (Z.pos q) (2 ^ 24)) as [Hsmall|Hbig].
  - assert (Hd : Z.pos (digits2_pos q) = 24) by (apply digits2_pos_unique; lia).
    unfold shr_fexp at 1. cbn [Zdigits2]. rewrite Hd, fexp_linear by lia.
    replace (24 + e - 24 - e) with 0 by lia. cbn [shr].
    assert (Hkeep : exists m ef,
              (let '(mrs, e'') := shr_fexp 24 128 (Z.pos q) e loc_Exact in
               match shr_m mrs with
               | Z0 => S754_zero false
               | Z.pos m => if e'' <=? 128 - 24 then S754_finite false m e''
                            else S754_infinity false
               | Z.neg _ => S754_nan
               end) = S754_finite false m ef /\
              Z.pos (digits2_pos m) = 24 /\ e <= ef <= e + 2 /\
              Z.pos m * 2 ^ (ef - e) = Z.pos q).
    { destruct (round_finish false q e) as (m & ef & Hr & Hdm & Hef & Hv); [lia | lia |].
      exists m, ef. repeat split; try assumption; lia. }
    assert (Hup : exists m ef,
              (let '(mrs, e'') := shr_fexp 24 128 (Z.pos q + 1) e loc_Exact in
               match shr_m mrs with
               | Z0 => S754_zero false
               | Z.pos m => if e'' <=? 128 - 24 then S754_finite false m e''
                            else S754_infinity false
               | Z.neg _ => S754_nan
               end) = S754_finite false m ef /\
              Z.pos (digits2_pos m) = 24 /\ e <= ef <= e + 2 /\
              Z.pos m * 2 ^ (ef - e) = Z.pos q + 1).
    { destruct (round_finish false (q + 1) e) as (m & ef & Hr & Hdm & Hef & Hv); [lia | lia |].
      exists m, ef. repeat split; try assumption; lia. }
    destruct loc as [|[| |]];
      cbn [shr_record_of_loc shr_m loc_of_shr_record round_nearest_even].
    all: try destruct (Z.even (Z.pos q)).
    all: first [ destruct Hkeep as (m & ef & Hr & Hdm & Hef & Hv); exists m, ef;
                 split; [exact Hr |]; split; [assumption |]; split; [assumption |];
                 left; exact Hv
               | destruct Hup as (m & ef & Hr & Hdm & Hef & Hv); exists m, ef;
                 split; [exact Hr |]; split; [assumption |]; split; [assumption |];
                 right; left; auto ].
  - assert (Hd : Z.pos (digits2_pos q) = 25) by (apply digits2_pos_unique; lia).
    unfold shr_fexp at 1. cbn [Zdigits2]. rewrite Hd, fexp_linear by lia.
    replace (25 + e - 24 - e) with 1 by lia. cbn [shr SpecFloat.iter_pos].
    assert (Hhalf : forall h : positive, 2 ^ 23 <= Z.pos h < 2 ^ 24 ->
              forall w, w = Z.pos h \/ w = Z.pos h + 1 ->
              exists m ef,
                (let '(mrs, e'') := shr_fexp 24 128 w (e + 1) loc_Exact in
                 match shr_m mrs with
                 | Z0 => S754_zero false
                 | Z.pos m => if e'' <=? 128 - 24 then S754_finite false m e''
                              else S754_infinity false
                 | Z.neg _ => S754_nan
                 end) = S754_finite false m ef /\
                Z.pos (digits2_pos m) = 24 /\ e <= ef <= e + 2 /\
                Z.pos m * 2 ^ (ef - e) = 2 * w).
    { intros h Hh w Hw.
      assert (Hwp : exists w', w = Z.pos w' /\ 2 ^ 23 <= Z.pos w' <= 2 ^ 24).
      { destruct Hw as [-> | ->]; [exists h | exists (h + 1)%positive]; split; lia. }
      destruct Hwp as (w' & -> & Hw').
      destruct (round_finish false w' (e + 1)) as (m & ef & Hr & Hdm & Hef & Hv); [lia | lia |].
      exists m, ef. repeat split; try assumption; try lia.
      replace (ef - e) with (ef - (e + 1) + 1) by lia.
      rewrite Z.pow_add_r by lia. lia. }
    destruct q as [h|h|]; [| | lia].
    + (* odd quotient *)
      assert (Hh : 2 ^ 23 <= Z.pos h < 2 ^ 24) by lia.
      assert (Hdown : exists m ef,
                (let '(mrs, e'') := shr_fexp 24 128 (Z.pos h) (e + 1) loc_Exact in
                 match shr_m mrs with
                 | Z0 => S754_zero false
                 | Z.pos m => if e'' <=? 128 - 24 then S754_finite false m e''
                              else S754_infinity false
                 | Z.neg _ => S754_nan
                 end) = S754_finite false m ef /\
                Z.pos (digits2_pos m) = 24 /\ e <= ef <= e + 2 /\
                Z.pos m * 2 ^ (ef - e) = Z.pos h~1 - 1).
      { destruct (Hhalf h Hh (Z.pos h)) as (m & ef & Hr & Hdm & Hef & Hv); [auto |].
        exists m, ef. repeat split; try assumption; lia. }
      assert (Hup : exists m ef,
                (let '(mrs, e'') := shr_fexp 24 128 (Z.pos h + 1) (e + 1) loc_Exact in
                 match shr_m mrs with
                 | Z0 => S754_zero false
                 | Z.pos m => if e'' <=? 128 - 24 then S754_finite false m e''
                              else S754_infinity false
                 | Z.neg _ => S754_nan
                 end) = S754_finite false m ef /\
                Z.pos (digits2_pos m) = 24 /\ e <= ef <= e + 2 /\
                Z.pos m * 2 ^ (ef - e) = Z.pos h~1 + 1).
      { destruct (Hhalf h Hh (Z.pos h + 1)) as (m & ef & Hr & Hdm & Hef & Hv); [auto |].
        exists m, ef. repeat split; try assumption; lia. }
      assert (Hodd : Z.odd (Z.pos h~1) = true) by reflexivity.
      destruct loc as [|[| |]];
        cbn [shr_record_of_loc shr_1 orb shr_m loc_of_shr_record round_nearest_even];
        try destruct (Z.even (Z.pos h));
        first [ destruct Hdown as (m & ef & Hr & Hdm & Hef & Hv); exists m, ef;
                split; [exact Hr |]; split; [assumption |]; split; [assumption |];
                right; right; right; auto
              | destruct Hup as (m & ef & Hr & Hdm & Hef & Hv); exists m, ef;
                split; [exact Hr |]; split; [assumption |]; split; [assumption |];
                right; right; left; auto ].
    + (* even quotient *)
      assert (Hh : 2 ^ 23 <= Z.pos h < 2 ^ 24) by lia.
      destruct (Hhalf h Hh (Z.pos h)) as (m & ef & Hr & Hdm & Hef & Hv); [auto |].
      destruct loc as [|[| |]];
        cbn [shr_record_of_loc shr_1 orb shr_m loc_of_shr_record round_nearest_even];
        exists m, ef; (split; [exact Hr |]); (split; [assumption |]);
        (split; [assumption |]); left; lia.
Qed.


(** A remainder located at or above the middle is at least half the
    divisor. *)
Lemma new_location_up (b r : Z) :
  0 <= r < b ->
  new_location b r = loc_Inexact Eq \/ new_location b r = loc_Inexact Gt ->
  b <= 2 * r.
Proof.
  intros Hr. unfold new_location, new_location_even, new_location_odd.
  destruct (Z.even b); destruct (r =? 0) eqn:Hr0;
    try (intros [Hloc|Hloc]; discriminate).
  - destruct (Z.compare_spec (2 * r) b); intros [Hloc|Hloc]; try discriminate; lia.
  - destruct (Z.compare_spec (2 * r + 1) b); intros [Hloc|Hloc]; try discriminate; lia.
Qed.

(** The quotient of two integers below 2^24 in [float]: the integer
    quotient of the 24-bit mantissas, scaled by 2^24, rounded. *)
Lemma div_small (x y : positive) :
  let dx := Z.pos (digits2_pos x) in
  let dy := Z.pos (digits2_pos y) in
  let a := Z.pos (shl x (24 - dx)) in
  let b := Z.pos (shl y (24 - dy)) in
  dx <= 24 -> dy <= 24 ->
  Float32.div (Float32.of_size (N.pos x)) (Float32.of_size (N.pos y))
  = binary_round_aux 24 128 false (a * 2 ^ 24 / b) (dx - dy - 24)
      (new_location b (a * 2 ^ 24 mod b)).
Proof.
  intros dx dy a b Hdx Hdy.
  rewrite (of_size_small x Hdx), (of_size_small y Hdy). fold dx dy.
  unfold Float32.div, Float32.prec, Float32.emax. cbn [SFdiv xorb].
  unfold SFdiv_core_binary. cbn [Zdigits2].
  rewrite !shl_digits by lia. fold dx dy.
  replace (dx + (24 - dx) + (dx - 24) - (dy + (24 - dy) + (dy - 24)))
    with (dx - dy) by lia.
  rewrite fexp_linear by lia.
  replace (Z.min (dx - dy - 24) (dx - 24 - (dy - 24))) with (dx - dy - 24) by lia.
  replace (dx - 24 - (dy - 24) - (dx - dy - 24)) with 24 by lia.
  fold a b. rewrite Z.shiftl_mul_pow2 by lia.
  unfold Z.div, Z.modulo. destruct (Z.div_eucl (a * 2 ^ 24) b) as [q r]. reflexivity.
Qed.


(** [std::floor] then the conversion to [std::size_t], on a finite
    positive [float]: the integer part of its value. *)
Lemma to_size_floor (m : positive) (e : Z) :
  Z.pos (digits2_pos m) = 24 -> -100 <= e <= 40 ->
  Float32.to_size (Float32.floor (S754_finite false m e))
  = Ok (Z.to_N (Z.shiftl (Z.pos m) e)).
Proof.
  intros Hd He. pose proof (digits2_pos_bounds m) as Hm. rewrite Hd in Hm.
  unfold Float32.floor. destruct (0 <=? e) eqn:Hsign.
  - apply Z.leb_le in Hsign. unfold Float32.to_size. cbn [cond_Zopp].
    rewrite Z.max_l, Z.max_r by lia. rewrite Z.pow_0_r, Z.quot_1_r.
    rewrite Z.shiftl_mul_pow2 by lia.
    assert (Hpow : 0 < 2 ^ e <= 2 ^ 40).
    { split; [apply Z.pow_pos_nonneg; lia | apply Z.pow_le_mono_r; lia]. }
    replace ((0 <=? Z.pos m * 2 ^ e) && (Z.pos m * 2 ^ e <=? Z.of_N SIZE_MAX)) with true;
      [reflexivity |].
    symmetry. apply andb_true_iff. split; apply Z.leb_le; [nia |].
    change (Z.of_N SIZE_MAX) with (2 ^ 24 * 2 ^ 40 - 1). nia.
  - apply Z.leb_gt in Hsign. cbn [cond_Zopp].
    assert (Hshift : Z.shiftr (Z.pos m) (- e) = Z.shiftl (Z.pos m) e).
    { unfold Z.shiftr. rewrite Z.opp_involutive. reflexivity. }
    rewrite Hshift.
    assert (Hval : Z.shiftl (Z.pos m) e = Z.pos m / 2 ^ (- e)).
    { rewrite <- Hshift. apply Z.shiftr_div_pow2. lia. }
    assert (Hpow : 2 <= 2 ^ (- e)).
    { change 2 with (2 ^ 1) at 1. apply Z.pow_le_mono_r; lia. }
    assert (Hrange : 0 <= Z.shiftl (Z.pos m) e < 2 ^ 24).
    { rewrite Hval. split; [apply Z.div_pos; lia |].
      apply Z.div_lt_upper_bound; nia. }
    destruct (Z.shiftl (Z.pos m) e) as [|p|p]; [reflexivity | | lia].
    change (binary_normalize Float32.prec Float32.emax (Z.pos p) 0 false)
      with (Float32.of_size (N.pos p)).
    pose proof (digits_le_24 p (proj2 Hrange)) as Hdp.
    rewrite (of_size_small p Hdp). unfold Float32.to_size. cbn [cond_Zopp].
    rewrite Z.max_r, Z.max_l by lia. rewrite shl_value by lia.
    replace (- (Z.pos (digits2_pos p) - 24)) with (24 - Z.pos (digits2_pos p)) by lia.
    rewrite Z.pow_0_r, Z.mul_1_r.
    rewrite Z.quot_mul;
      [| apply Z.pow_nonzero; lia].
    replace ((0 <=? Z.pos p) && (Z.pos p <=? Z.of_N SIZE_MAX)) with true; [reflexivity |].
    symmetry. apply andb_true_iff. split; apply Z.leb_le; [lia |].
    change (Z.of_N SIZE_MAX) with (2 ^ 64 - 1). lia.
Qed.


(** The arithmetic of the rounded quotient: with a dividend below 2^24,
    rounding to nearest never reaches the next integer. [a] and [b] are
    the mantissas of [X] and [Y], [q] and [r] their scaled quotient and
    remainder, [v] the rounded quotient in units of 2^-t. *)
Lemma rounded_quotient_floor (X Y a b q r t v : Z) :
  0 < X < 2 ^ 24 -> 0 < Y -> 1 <= t -> 0 < b ->
  a * 2 ^ 24 * Y = X * 2 ^ t * b ->
  a * 2 ^ 24 = q * b + r -> 0 <= r < b -> 2 ^ 23 <= q ->
  (v = q \/
   (v = q + 1 /\ b <= 2 * r) \/
   (v = q + 1 /\ 2 ^ 24 <= q) \/
   (v = q - 1 /\ Z.odd q = true)) ->
  v / 2 ^ t = X / Y.
Proof.
  intros HX HY Ht Hb Hscale Hdiv Hr Hq Hv.
  assert (HP : exists P', 2 ^ t = 2 * P' /\ 1 <= P').
  { exists (2 ^ (t - 1)). split.
    - rewrite <- Z.pow_succ_r by lia. f_equal. lia.
    - apply (Z.pow_le_mono_r 2 0 (t - 1)); lia. }
  destruct HP as (P' & HP & HP').
  set (P := 2 ^ t) in *. clearbody P.
  set (r' := X * P - q * Y).
  assert (Hr' : 0 <= r' < Y) by (unfold r'; nia).
  assert (Hbr : b * r' = r * Y) by (unfold r'; nia).
  set (K := X / Y).
  assert (HK : K * Y <= X < (K + 1) * Y).
  { unfold K. pose proof (Z.div_mod X Y ltac:(lia)) as Hdm.
    pose proof (Z.mod_pos_bound X Y HY). nia. }
  assert (HK0 : 0 <= K) by (unfold K; apply Z.div_pos; lia).
  assert (HqK : K * P <= q < (K + 1) * P) by (unfold r' in *; nia).
  assert (Hgoal : K * P <= v < (K + 1) * P).
  { destruct Hv as [-> | [[-> Hup] | [[-> Hbig] | [-> Hodd]]]].
    - assumption.
    - split; [lia |].
      destruct (Z.eq_dec (q + 1) ((K + 1) * P)) as [Heq|Hne]; [exfalso | lia].
      assert (HY2 : Y <= 2 * r') by nia.
      assert (HXP : X * P <= (K + 1) * Y * P - P) by nia.
      assert (HrP : r' + P <= Y) by (unfold r' in *; nia).
      assert (HXbig : 2 ^ 23 * (2 * P) <= X * P) by (unfold r' in *; nia).
      nia.
    - split; [lia |].
      destruct (Z.eq_dec (q + 1) ((K + 1) * P)) as [Heq|Hne]; [exfalso | lia].
      assert (HXP : X * P <= (K + 1) * Y * P - P) by nia.
      assert (HPY : P <= Y) by (unfold r' in *; nia).
      assert (HXbig : 2 ^ 24 * P <= X * P) by (unfold r' in *; nia).
      nia.
    - split; [| lia].
      destruct (Z.eq_dec q (K * P)) as [Heq|Hne]; [exfalso | lia].
      rewrite Heq, HP in Hodd.
      replace (K * (2 * P')) with (2 * (K * P')) in Hodd by ring.
      rewrite Z.odd_mul in Hodd. discriminate. }
  symmetry. apply (Z.div_unique v P K (v - K * P)); [lia | lia].
Qed.


Lemma shl_mantissa (x : positive) :
  Z.pos (digits2_pos x) <= 24 ->
  2 ^ 23 <= Z.pos (shl x (24 - Z.pos (digits2_pos x))) < 2 ^ 24.
Proof.
  intros Hd.
  pose proof (digits2_pos_bounds (shl x (24 - Z.pos (digits2_pos x)))) as Hb.
  rewrite shl_digits in Hb by lia.
  replace (Z.pos (digits2_pos x) + (24 - Z.pos (digits2_pos x))) with 24 in Hb by lia.
  exact Hb.
Qed.

(** The quotient of two positive integers, the dividend below 2^24 and
    the divisor below 2^24, taken in [float], floored and converted: the
    integer quotient. *)
Lemma quotient_small (x y : positive) :
  Z.pos x < 2 ^ 24 -> Z.pos y < 2 ^ 24 ->
  Float32.to_size
    (Float32.floor (Float32.div (Float32.of_size (N.pos x)) (Float32.of_size (N.pos y))))
  = Ok (N.pos x / N.pos y)%N.
Proof.
  intros Hx Hy.
  pose proof (digits_le_24 x Hx) as Hdx. pose proof (digits_le_24 y Hy) as Hdy.
  rewrite (div_small x y Hdx Hdy).
  pose proof (shl_mantissa x Hdx) as Ha. pose proof (shl_mantissa y Hdy) as Hb.
  pose proof (shl_value x (24 - Z.pos (digits2_pos x)) ltac:(lia)) as Hxa.
  pose proof (shl_value y (24 - Z.pos (digits2_pos y)) ltac:(lia)) as Hyb.
  set (dx := Z.pos (digits2_pos x)) in *. set (dy := Z.pos (digits2_pos y)) in *.
  set (a := Z.pos (shl x (24 - dx))) in *. set (b := Z.pos (shl y (24 - dy))) in *.
  assert (Hdx1 : 1 <= dx) by (unfold dx; lia).
  assert (Hdy1 : 1 <= dy) by (unfold dy; lia).
  pose proof (Z.div_mod (a * 2 ^ 24) b ltac:(lia)) as Hdm.
  pose proof (Z.mod_pos_bound (a * 2 ^ 24) b ltac:(lia)) as Hrem.
  set (q := a * 2 ^ 24 / b) in *. set (r := (a * 2 ^ 24) mod b) in *.
  assert (Hq : 2 ^ 23 <= q < 2 ^ 25).
  { unfold q. split.
    - apply Z.div_le_lower_bound; lia.
    - apply Z.div_lt_upper_bound; lia. }
  destruct q as [|qp|qp] eqn:Hqp; [lia | | lia].
  destruct (round_cases qp (dx - dy - 24) (new_location b r))
    as (m & ef & Hround & Hdm24 & Hef & Hv); [lia | lia |].
  rewrite Hround, to_size_floor by (assumption || lia).
  f_equal.
  set (t := 24 + dy - dx).
  assert (Hscale : a * 2 ^ 24 * Z.pos y = Z.pos x * 2 ^ t * b).
  { rewrite Hxa, Hyb.
    assert (Hpow : 2 ^ (24 - dx) * 2 ^ 24 = 2 ^ t * 2 ^ (24 - dy)).
    { unfold t. rewrite <- !Z.pow_add_r by lia. f_equal. lia. }
    transitivity (Z.pos x * Z.pos y * (2 ^ (24 - dx) * 2 ^ 24)); [ring |].
    rewrite Hpow. ring. }
  assert (Hfloor : Z.pos m * 2 ^ (ef - (dx - dy - 24)) / 2 ^ t = Z.pos x / Z.pos y).
  { apply (rounded_quotient_floor (Z.pos x) (Z.pos y) a b (Z.pos qp) r t); try lia.
    cbv zeta in Hv.
    destruct Hv as [Hv | [(Hv & _ & Hloc) | [(Hv & Hbig & _) | (Hv & _ & Hodd)]]].
    - left. exact Hv.
    - right. left. split; [exact Hv |]. apply new_location_up; assumption.
    - right. right. left. split; [exact Hv | exact Hbig].
    - right. right. right. split; [exact Hv | exact Hodd]. }
  assert (Hshift : Z.shiftl (Z.pos m) ef = Z.pos m * 2 ^ (ef - (dx - dy - 24)) / 2 ^ t).
  { replace (ef - (dx - dy - 24)) with (ef + t) by (unfold t; lia).
    destruct (Z.le_gt_cases 0 ef) as [Hpos|Hneg].
    - rewrite Z.shiftl_mul_pow2 by lia. rewrite Z.pow_add_r by (unfold t; lia).
      rewrite Z.mul_assoc, Z.div_mul; [reflexivity |]. apply Z.pow_nonzero; unfold t; lia.
    - rewrite Z.shiftl_div_pow2 by lia.
      replace (2 ^ t) with (2 ^ (- ef) * 2 ^ (ef + t))
        by (rewrite <- Z.pow_add_r by (unfold t; lia); f_equal; lia).
      rewrite Z.div_mul_cancel_r; [reflexivity | |];
        apply Z.pow_nonzero; unfold t; lia. }
  rewrite Hshift, Hfloor.
  change (Z.pos x) with (Z.of_N (N.pos x)). change (Z.pos y) with (Z.of_N (N.pos y)).
  rewrite <- N2Z.inj_div. apply N2Z.id.
Qed.

(** The sample index taken in [float] is the integer quotient whenever
    there are fewer than 2^24 chains, the product of the sample number
    and the number of chains is below 2^24, and so is the number of
    samples plus one. *)
Lemma sampleIndex_exact (s size resetSamples : N) :
  (s < 2 ^ 24)%N -> (size < 2 ^ 24)%N -> (s * size < 2 ^ 24)%N ->
  (resetSamples + 1 < 2 ^ 24)%N ->
  sampleIndex s size resetSamples = Ok (specIndex s size resetSamples).
Proof.
  intros Hs Hsize Hprod Hsamples. unfold sampleIndex, specIndex.
  assert (Hadd : size_add resetSamples 1 = (resetSamples + 1)%N).
  { unfold size_add. apply N.mod_small.
    eapply N.lt_trans; [exact Hsamples |]. reflexivity. }
  rewrite Hadd.
  destruct (resetSamples + 1)%N as [|y] eqn:Hy; [lia |].
  assert (Hyz : Z.pos y < 2 ^ 24) by lia.
  assert (Hzero : Float32.to_size
                    (Float32.floor (Float32.div (S754_zero false)
                                      (Float32.of_size (N.pos y)))) = Ok 0%N).
  { rewrite (of_size_small y (digits_le_24 y Hyz)). reflexivity. }
  destruct s as [|ps].
  - rewrite N.mul_0_l, N.Div0.div_0_l.
    destruct size as [|pz]; [exact Hzero |].
    rewrite (of_size_small pz (digits_le_24 pz ltac:(lia))). exact Hzero.
  - destruct size as [|pz].
    + rewrite N.mul_0_r, N.Div0.div_0_l.
      rewrite (of_size_small ps (digits_le_24 ps ltac:(lia))). exact Hzero.
    + assert (Hpz : Z.pos (ps * pz) < 2 ^ 24) by lia.
      rewrite mul_small by assumption.
      change (N.pos ps * N.pos pz)%N with (N.pos (ps * pz)).
      apply quotient_small; assumption.
Qed.

(** In a population of fewer than 2^24 chains, sampled fewer than
    2^24 - 1 times, the index that [GetDivergence] takes in [float] for
    sample [s] is [floor (s * chainCount / (resetSampleCount + 1))] as
    long as [s * chainCount] is below 2^24: up to there the product is
    exact and the rounded quotient has the same floor. *)
Theorem sampleIndex_is_the_integer_quotient (chainCount resetSampleCount : N) :
  (chainCount < 2 ^ 24)%N -> (resetSampleCount + 1 < 2 ^ 24)%N ->
  forall s, (s < resetSampleCount)%N -> (s * chainCount < 2 ^ 24)%N ->
    sampleIndex s chainCount resetSampleCount
    = Ok (s * chainCount / (resetSampleCount + 1))%N.
Proof.
  intros Hcount Hsamples s Hs Hprod.
  apply sampleIndex_exact; try assumption.
  apply N.lt_trans with (resetSampleCount + 1)%N; [lia | assumption].
Qed.

End SinglePrecision.

(** ** The divergence *)

Section Divergence.

Lemma for_fmap {A B St} (f : A -> B) (body : St -> B -> outcome St) (st : St) (l : list A) :
  for_ body st (f <$> l) = for_ (fun st a => body st (f a)) st l.
Proof.
  revert st. induction l as [|a l IH]; intros st; [reflexivity |].
  simpl. destruct (body st (f a)); simpl; auto.
Qed.

Lemma tipOf_tip (pendulums : list JoinedPendulum.t) (i : N) (c : JoinedPendulum.t)
    (p : Vector2Double.t) :
  pendulums !! N.to_nat i = Some c -> tip c = Some p -> tipOf pendulums i = Ok p.
Proof.
  intros Hc Hp. unfold tipOf. rewrite (at_Ok _ _ _ Hc). simpl.
  unfold tip in Hp. unfold back.
  destruct (last (JoinedPendulum.pendulums c)) as [q|]; [| discriminate].
  simpl in *. congruence.
Qed.

(** Where the index taken in [float] is the one taken on the integers
    and the next index is a [std::size_t], the loop body adds the
    distance that the specification names. *)
Lemma addSample_spec (settings : SimulationSettings.t) (pendulums : list JoinedPendulum.t)
    (divergence : float) (s : N) (d : float) :
  let count := N.of_nat (length pendulums) in
  let samples := SimulationSettings.resetSamples settings in
  sampleIndex s count samples = Ok (specIndex s count samples) ->
  (specIndex s count samples + 1 <= SIZE_MAX)%N ->
  specSample pendulums samples s = Some d ->
  addSample settings pendulums divergence s = Ok (divergence + d)%float.
Proof.
  intros count samples Hindex Hsize Hd.
  unfold addSample. fold count samples. rewrite Hindex. simpl.
  unfold specSample in Hd. fold count in Hd.
  destruct (pendulums !! N.to_nat (specIndex s count samples)) as [c1|] eqn:Hc1;
    [| discriminate].
  destruct (pendulums !! N.to_nat (specIndex s count samples + 1)) as [c2|] eqn:Hc2;
    [| discriminate].
  simpl in Hd.
  destruct (tip c1) as [p1|] eqn:Hp1; [| discriminate].
  destruct (tip c2) as [p2|] eqn:Hp2; [| discriminate].
  simpl in Hd. injection Hd as <-.
  rewrite (tipOf_tip _ _ c1 p1 Hc1 Hp1). simpl.
  assert (Hnext : size_add (specIndex s count samples) 1
                  = (specIndex s count samples + 1)%N).
  { unfold size_add. apply N.mod_small. unfold SIZE_MAX in Hsize. lia. }
  rewrite Hnext, (tipOf_tip _ _ c2 p2 Hc2 Hp2). reflexivity.
Qed.

(** The loop of [GetDivergence] against the list of distances. *)
Lemma addSample_loop (settings : SimulationSettings.t) (pendulums : list JoinedPendulum.t)
    (range : list N) (distances : list float) (divergence : float) :
  let count := N.of_nat (length pendulums) in
  let samples := SimulationSettings.resetSamples settings in
  (forall s, s ∈ range ->
     sampleIndex s count samples = Ok (specIndex s count samples) /\
     (specIndex s count samples + 1 <= SIZE_MAX)%N) ->
  mapM (specSample pendulums samples) range = Some distances ->
  for_ (addSample settings pendulums) divergence range
  = Ok (foldl PrimFloat.add divergence distances).
Proof.
  intros count samples Hrange Hd. apply mapM_Some_1 in Hd.
  revert divergence. induction Hd as [|s d range distances Hs _ IH]; intros divergence.
  - reflexivity.
  - destruct (Hrange s) as [Hindex Hsize]; [left |].
    simpl. rewrite (addSample_spec settings pendulums divergence s d Hindex Hsize Hs).
    simpl. apply IH. intros s' Hs'. apply Hrange. right. assumption.
Qed.

Lemma elem_of_countFrom (k : nat) (s x : N) :
  x ∈ countFrom s k <-> (s <= x < s + N.of_nat k)%N.
Proof.
  revert s. induction k as [|k IH]; intros s; simpl.
  - rewrite elem_of_nil. lia.
  - rewrite elem_of_cons, IH. lia.
Qed.

Lemma elem_of_upto (n s : N) : s ∈ upto n <-> (s < n)%N.
Proof. unfold upto. rewrite elem_of_countFrom. lia. Qed.

(** The integer index stays inside the population, with room for the
    chain after it, exactly when there are more than
    [(resetSampleCount + 1) / 2] chains. *)
Lemma specIndex_inside (chainCount resetSampleCount : N) :
  (resetSampleCount + 1 < 2 * chainCount)%N ->
  forall s, (s < resetSampleCount)%N ->
    (specIndex s chainCount resetSampleCount + 1 < chainCount)%N.
Proof.
  intros Hcount s Hs. unfold specIndex.
  assert (Hlt : (s * chainCount / (resetSampleCount + 1) < chainCount - 1)%N).
  { apply N.Div0.div_lt_upper_bound. nia. }
  lia.
Qed.

Lemma specIndex_outside (chainCount resetSampleCount : N) :
  (1 <= resetSampleCount)%N -> (2 * chainCount <= resetSampleCount + 1)%N ->
  (chainCount <= specIndex (resetSampleCount - 1) chainCount resetSampleCount + 1)%N.
Proof.
  intros Hsamples Hcount. unfold specIndex.
  assert (Hle : (chainCount - 1
                 <= (resetSampleCount - 1) * chainCount / (resetSampleCount + 1))%N).
  { apply N.div_le_lower_bound; [lia | nia]. }
  lia.
Qed.

Lemma tip_is_Some (c : JoinedPendulum.t) :
  JoinedPendulum.pendulums c <> [] -> is_Some (tip c).
Proof.
  intros Hne. unfold tip. apply fmap_is_Some, last_is_Some. assumption.
Qed.

Lemma specSample_is_Some (pendulums : list JoinedPendulum.t) (resetSampleCount s : N) :
  (forall c, c ∈ pendulums -> JoinedPendulum.pendulums c <> []) ->
  (specIndex s (N.of_nat (length pendulums)) resetSampleCount + 1
   < N.of_nat (length pendulums))%N ->
  is_Some (specSample pendulums resetSampleCount s).
Proof.
  intros Hsegments Hinside. unfold specSample.
  set (index := specIndex s (N.of_nat (length pendulums)) resetSampleCount) in *.
  destruct (lookup_lt_is_Some_2 pendulums (N.to_nat index)) as [c1 Hc1]; [lia |].
  destruct (lookup_lt_is_Some_2 pendulums (N.to_nat (index + 1))) as [c2 Hc2]; [lia |].
  rewrite Hc1, Hc2. simpl.
  destruct (tip_is_Some c1) as [p1 ->];
    [apply Hsegments; eapply list_elem_of_lookup_2; eassumption |].
  destruct (tip_is_Some c2) as [p2 ->];
    [apply Hsegments; eapply list_elem_of_lookup_2; eassumption |].
  simpl. eauto.
Qed.

Lemma GetDivergence_nonempty (settings : SimulationSettings.t)
    (pendulums : list JoinedPendulum.t) :
  pendulums <> [] ->
  GetDivergence settings pendulums =
    divergence ← for_ (addSample settings pendulums) 0%float
                   (upto (SimulationSettings.resetSamples settings));
    Ok (divergence / double_of_size (SimulationSettings.resetSamples settings))%float.
Proof. destruct pendulums; [contradiction | reflexivity]. Qed.

Lemma specDivergence_nonempty (pendulums : list JoinedPendulum.t) (resetSampleCount : N) :
  pendulums <> [] ->
  specDivergence pendulums resetSampleCount =
    distances ← mapM (specSample pendulums resetSampleCount) (upto resetSampleCount);
    Some (mean distances resetSampleCount).
Proof. destruct pendulums; [contradiction | reflexivity]. Qed.

(** Where the index taken in [float] agrees with the integer index and
    the chain after it is there, [GetDivergence] and the specification
    agree. *)
Lemma GetDivergence_agrees (settings : SimulationSettings.t)
    (pendulums : list JoinedPendulum.t) :
  let count := N.of_nat (length pendulums) in
  let samples := SimulationSettings.resetSamples settings in
  (forall c, c ∈ pendulums -> JoinedPendulum.pendulums c <> []) ->
  (forall s, (s < samples)%N ->
     sampleIndex s count samples = Ok (specIndex s count samples) /\
     (specIndex s count samples + 1 < count)%N /\
     (specIndex s count samples + 1 <= SIZE_MAX)%N) ->
  exists v, GetDivergence settings pendulums = Ok v /\
            specDivergence pendulums samples = Some v.
Proof.
  intros count samples Hsegments Hsamples.
  destruct (decide (pendulums = [])) as [->|Hpop];
    [exists 0%float; split; reflexivity |].
  assert (Hsome : is_Some (mapM (specSample pendulums samples) (upto samples))).
  { apply mapM_is_Some, Forall_forall. intros s Hs.
    apply elem_of_upto in Hs. apply specSample_is_Some; [assumption |].
    apply Hsamples. assumption. }
  destruct Hsome as [distances Hdistances].
  exists (mean distances samples). split.
  - rewrite (GetDivergence_nonempty settings pendulums Hpop). fold samples.
    rewrite (addSample_loop settings pendulums (upto samples) distances 0%float);
      [reflexivity | | assumption].
    intros s Hs. apply elem_of_upto in Hs. fold count samples.
    destruct (Hsamples s Hs) as (Hexact & _ & Hsize). auto.
  - rewrite (specDivergence_nonempty pendulums samples Hpop), Hdistances. reflexivity.
Qed.

(** The index taken in [float] is the integer index for every sample,
    and the chain after it is there, in a population where the number
    of samples times the number of chains is below 2^24 and the number
    of samples plus one is below twice the number of chains. *)
Lemma sampleIndex_small (count samples s : N) :
  (samples * count < 2 ^ 24)%N -> (samples + 1 < 2 * count)%N -> (s < samples)%N ->
  sampleIndex s count samples = Ok (specIndex s count samples) /\
  (specIndex s count samples + 1 < count)%N.
Proof.
  intros Hsmall Hcount Hs.
  split; [| apply specIndex_inside; assumption].
  apply sampleIndex_exact; nia.
Qed.

(** C5, as the code has it. On the empty population [GetDivergence]
    returns 0. On a population whose chains all have a pendulum, where
    the number of samples times the number of chains is below 2^24 and
    the number of samples plus one is below twice the number of chains,
    [GetDivergence] reads inside the population only and returns the
    mean that the specification names: the distances between the tips of
    the chain at [floor (s * chainCount / (resetSampleCount + 1))] and
    the chain after it, summed in the order of the samples, over the
    number of samples. *)
Theorem GetDivergence_is_the_mean_adjacent_distance
    (settings : SimulationSettings.t) (pendulums : list JoinedPendulum.t) :
  let count := N.of_nat (length pendulums) in
  let samples := SimulationSettings.resetSamples settings in
  (forall c, c ∈ pendulums -> JoinedPendulum.pendulums c <> []) ->
  (samples * count < 2 ^ 24)%N ->
  (samples + 1 < 2 * count)%N ->
  GetDivergence settings [] = Ok 0%float /\
  exists v, GetDivergence settings pendulums = Ok v /\
            specDivergence pendulums samples = Some v.
Proof.
  intros count samples Hsegments Hsmall Hcount.
  split; [reflexivity |].
  apply GetDivergence_agrees; [assumption |]. fold count samples.
  intros s Hs.
  destruct (sampleIndex_small count samples s Hsmall Hcount Hs) as [Hexact Hinside].
  split; [assumption |]. split; [assumption |].
  unfold SIZE_MAX. change (2 ^ 64 - 1)%N with 18446744073709551615%N.
  change (2 ^ 24)%N with 16777216%N in Hsmall. nia.
Qed.

Lemma for_app {A St} (body : St -> A -> outcome St) (st : St) (l1 l2 : list A) :
  for_ body st (l1 ++ l2) = st' ← for_ body st l1; for_ body st' l2.
Proof.
  revert st. induction l1 as [|a l1 IH]; intros st; [reflexivity |].
  simpl. destruct (body st a); simpl; auto.
Qed.

Lemma countFrom_snoc (k : nat) (s : N) :
  countFrom s (S k) = countFrom s k ++ [(s + N.of_nat k)%N].
Proof.
  revert s. induction k as [|k IH]; intros s.
  - simpl. rewrite N.add_0_r. reflexivity.
  - change (countFrom s (S (S k))) with (s :: countFrom (N.succ s) (S k)).
    rewrite IH. cbn [countFrom app]. do 3 f_equal. lia.
Qed.

Lemma upto_snoc (n : N) : (1 <= n)%N -> upto n = upto (n - 1) ++ [(n - 1)%N].
Proof.
  intros Hn. unfold upto.
  replace (N.to_nat n) with (S (N.to_nat (n - 1))) by lia.
  rewrite countFrom_snoc. do 2 f_equal. lia.
Qed.

(** Nothing in the loop of [GetDivergence] throws. *)
Lemma to_size_throws_nothing (f : Float32.t) (what : string) : Float32.to_size f <> Throw what.
Proof.
  destruct f as [s|s| |s m e]; simpl; try discriminate.
  match goal with |- context [if ?b then _ else _] => destruct b end; discriminate.
Qed.

Lemma tipOf_throws_nothing (pendulums : list JoinedPendulum.t) (i : N) (what : string) :
  tipOf pendulums i <> Throw what.
Proof.
  unfold tipOf, at_, back. destruct (pendulums !! N.to_nat i) as [c|]; simpl; [| discriminate].
  destruct (last (JoinedPendulum.pendulums c)); simpl; discriminate.
Qed.

Lemma addSample_throws_nothing (settings : SimulationSettings.t)
    (pendulums : list JoinedPendulum.t) (divergence : float) (s : N) (what : string) :
  addSample settings pendulums divergence s <> Throw what.
Proof.
  unfold addSample, sampleIndex.
  match goal with |- context [Float32.to_size ?f] =>
    pose proof (to_size_throws_nothing f what); destruct (Float32.to_size f) as [i| |] end;
    simpl; [| congruence | discriminate].
  pose proof (tipOf_throws_nothing pendulums i what).
  destruct (tipOf pendulums i) as [p1| |]; simpl; [| congruence | discriminate].
  pose proof (tipOf_throws_nothing pendulums (size_add i 1) what).
  destruct (tipOf pendulums (size_add i 1)) as [p2| |]; simpl; [discriminate | congruence | discriminate].
Qed.

Lemma addSample_loop_throws_nothing (settings : SimulationSettings.t)
    (pendulums : list JoinedPendulum.t) (range : list N) (divergence : float) (what : string) :
  for_ (addSample settings pendulums) divergence range <> Throw what.
Proof.
  revert divergence. induction range as [|s range IH]; intros divergence; [discriminate |].
  simpl. pose proof (addSample_throws_nothing settings pendulums divergence s what).
  destruct (addSample settings pendulums divergence s) as [d| |]; simpl;
    [apply IH | congruence | discriminate].
Qed.

(** A sample whose index is the last chain, or beyond, reads outside the
    population. *)
Lemma addSample_outside (settings : SimulationSettings.t) (pendulums : list JoinedPendulum.t)
    (divergence : float) (s i : N) :
  let count := N.of_nat (length pendulums) in
  let samples := SimulationSettings.resetSamples settings in
  sampleIndex s count samples = Ok i ->
  (i + 1 <= SIZE_MAX)%N -> (count <= i + 1)%N ->
  addSample settings pendulums divergence s = Undefined.
Proof.
  intros count samples Hindex Hsize Houtside.
  unfold addSample. fold count samples. rewrite Hindex. simpl.
  assert (Hnext : size_add i 1 = (i + 1)%N).
  { unfold size_add. apply N.mod_small. unfold SIZE_MAX in Hsize. lia. }
  rewrite Hnext.
  assert (Hp2 : tipOf pendulums (i + 1) = Undefined).
  { unfold tipOf. rewrite at_outside by lia. reflexivity. }
  rewrite Hp2.
  pose proof (tipOf_throws_nothing pendulums i) as Hp1.
  destruct (tipOf pendulums i) as [p1|what|]; simpl; [reflexivity | | reflexivity].
  exfalso. apply (Hp1 what). reflexivity.
Qed.

(** [GetDivergence] reads outside the population whenever there is a
    sample to take and the number of samples plus one is at least twice
    the number of chains, in a population where the number of samples
    times the number of chains, and the number of samples plus one, are
    below 2^24: the last sample reads the chain after the last one, or
    further. *)
Theorem GetDivergence_reads_outside_a_small_population
    (settings : SimulationSettings.t) (pendulums : list JoinedPendulum.t) :
  let count := N.of_nat (length pendulums) in
  let samples := SimulationSettings.resetSamples settings in
  pendulums <> [] ->
  (1 <= samples)%N ->
  (samples * count < 2 ^ 24)%N -> (samples + 1 < 2 ^ 24)%N ->
  (2 * count <= samples + 1)%N ->
  GetDivergence settings pendulums = Undefined.
Proof.
  intros count samples Hpop Hsamples Hsmall Hsmall' Hcount.
  assert (Hpos : (1 <= count)%N).
  { unfold count. destruct pendulums; [contradiction | simpl; lia]. }
  change (2 ^ 24)%N with 16777216%N in Hsmall, Hsmall'.
  rewrite (GetDivergence_nonempty settings pendulums Hpop). fold samples.
  rewrite (upto_snoc samples Hsamples), for_app.
  pose proof (addSample_loop_throws_nothing settings pendulums (upto (samples - 1)) 0%float)
    as Hthrow.
  destruct (for_ (addSample settings pendulums) 0%float (upto (samples - 1)))
    as [divergence|what|]; simpl; [| exfalso; apply (Hthrow what); reflexivity | reflexivity].
  rewrite (addSample_outside settings pendulums divergence (samples - 1)
             (specIndex (samples - 1) count samples)); [reflexivity | | |].
  - apply sampleIndex_exact; change (2 ^ 24)%N with 16777216%N; nia.
  - fold count samples.
    assert (specIndex (samples - 1) count samples < count)%N.
    { unfold specIndex. apply N.Div0.div_lt_upper_bound. nia. }
    unfold SIZE_MAX. change (2 ^ 64 - 1)%N with 18446744073709551615%N. nia.
  - apply specIndex_outside; assumption.
Qed.


(** With no sample to take, [GetDivergence] on a population that is not
    empty returns 0 / 0, which is NaN. *)
Theorem GetDivergence_without_samples
    (settings : SimulationSettings.t) (pendulums : list JoinedPendulum.t) :
  pendulums <> [] ->
  SimulationSettings.resetSamples settings = 0%N ->
  GetDivergence settings pendulums = Ok nan.
Proof.
  intros Hpop Hsamples.
  rewrite (GetDivergence_nonempty settings pendulums Hpop), Hsamples. reflexivity.
Qed.
End Divergence.

(** ** The reset logic *)

Section Reset.
Context `{Extern}.



End Reset.

(* ===================================================================== *)
(** * The simulation over its frames *)
(* ===================================================================== *)

Section Shape.
Context `{Extern}.


Lemma Update_shape (settings : SimulationSettings.t) (joined capacity : nat)
    (c : JoinedPendulum.t) :
  shaped joined capacity c ->
  exists c',
    JoinedPendulum.Update settings c = Ok c' /\
    shaped joined capacity c' /\
    Forall2 (fun p p' => Pendulum.length p' = Pendulum.length p /\
                         Pendulum.mass p' = Pendulum.mass p)
      (JoinedPendulum.pendulums c) (JoinedPendulum.pendulums c').
Proof.
  intros (Hjoined & Hcap & Hcursor).
  destruct (JoinedPendulum.pendulums c) as [|p [|q ps]] eqn:Hps.
  - exists c. split.
    + unfold JoinedPendulum.Update. rewrite decide_True; [reflexivity |].
      rewrite Hps. reflexivity.
    + rewrite Hps. split; [| constructor].
      unfold shaped. rewrite Hps. auto.
  - eexists. split; [apply (Update_single settings c p); rewrite Hps; reflexivity |].
    simpl. split; [unfold shaped; simpl; simpl in Hjoined; auto |].
    repeat constructor.
  - assert (Hn : 2 <= length (JoinedPendulum.pendulums c)) by (rewrite Hps; simpl; lia).
    assert (Hidx : JoinedPendulum.trajectoryIndex c < length (JoinedPendulum.trajectories c)).
    { rewrite Hcap. apply Hcursor. rewrite <- Hjoined. simpl. lia. }
    destruct (Update_general settings c Hn Hidx) as (last & _ & Hrun).
    eexists. split; [exact Hrun |]. simpl. split.
    + unfold shaped. simpl.
      rewrite length_integrated, length_accelerated, length_insert, Hps.
      split; [assumption |]. split; [assumption |]. intros _.
      rewrite <- Hcap. apply Nat.mod_upper_bound. lia.
    + rewrite <- Hps. apply Forall2_same_length_lookup_2.
      * rewrite length_integrated, length_accelerated. reflexivity.
      * intros j p0 p' Hp0 Hp'.
        rewrite (lookup_updated _ _ _ _ _ Hp0) in Hp'. injection Hp' as <-.
        split; reflexivity.
Qed.




(** The constructor's second loop, with the positions it stores. *)
Lemma connect_loop_positions (ps1 : list Pendulum.t) :
  exists ps,
    for_ JoinedPendulum.connect ps1 (seq 1 (length ps1 - 1)) = Ok ps /\
    length ps = length ps1 /\
    forall j p, ps1 !! j = Some p ->
      ps !! j = Some (if decide (0 < j)
                      then Pendulum.set_position (positionConnected ps1 j) p else p).
Proof.
  destruct (connect_loop ps1) as (ps & Hrun & Hlen & _).
  destruct (for_seq_invariant JoinedPendulum.connect (connectedTo ps1)
              (length ps1 - 1) 1 ps1) as (ps' & Hrun' & Hps).
  - intros j. destruct (ps1 !! j) as [p|]; [| reflexivity].
    cbn [fmap option_fmap option_map]. rewrite decide_False by lia. reflexivity.
  - intros k st Hk Hst. apply connect_step; [lia | assumption].
  - assert (ps' = ps) as -> by congruence.
    exists ps. split; [assumption |]. split; [assumption |].
    intros j p Hj. rewrite Hps, Hj. cbn [fmap option_fmap option_map].
    apply lookup_lt_Some in Hj.
    repeat case_decide; try lia; reflexivity.
Qed.

(** The constructor, with the positions it leaves the pendulums in: the
    first one is not hung, and keeps the position (0, 0) that
    [Pendulum(length, mass, initialAngle)] gives it. *)
Lemma new_positions (size : nat) (lengths masses initialAngles : list float)
    (trajectoriesSize : nat) :
  length lengths = size -> length masses = size -> length initialAngles = size ->
  exists ps ps1,
    JoinedPendulum.new size lengths masses initialAngles trajectoriesSize =
      Ok (JoinedPendulum.mk ps (replicate trajectoriesSize Vector2Double.zero) 0) /\
    length ps = size /\ length ps1 = size /\
    (forall j l m a,
       lengths !! j = Some l -> masses !! j = Some m -> initialAngles !! j = Some a ->
       ps1 !! j = Some (Pendulum.new l m a)) /\
    (forall j p, ps1 !! j = Some p ->
       ps !! j = Some (if decide (0 < j)
                       then Pendulum.set_position (positionConnected ps1 j) p else p)).
Proof.
  intros Hl Hm Ha.
  destruct (construct_loop size lengths masses initialAngles Hl Hm Ha)
    as (ps1 & Hrun1 & Hlen1 & Hps1).
  destruct (connect_loop_positions ps1) as (ps & Hrun & Hlen & Hps).
  exists ps, ps1. unfold JoinedPendulum.new.
  rewrite !decide_False by (intros Hne; apply Hne; assumption).
  cbn zeta. rewrite length_replicate, Hrun1. simpl. rewrite Hrun. simpl.
  split; [reflexivity |]. split; [lia |]. split; [assumption |]. split; assumption.
Qed.

Lemma positionConnected_resting (settings : SimulationSettings.t) (ps1 : list Pendulum.t)
    (p0 : Pendulum.t) :
  ps1 !! 0 = Some p0 -> Pendulum.position p0 = Vector2Double.zero ->
  (forall j, 1 <= j < length ps1 ->
     ps1 !! j = Some (Pendulum.new (SimulationSettings.pendulumLength settings)
                        (SimulationSettings.pendulumMass settings) PI)) ->
  forall j, j < length ps1 -> positionConnected ps1 j = restingPosition settings j.
Proof.
  intros H0 Hzero Hrest j. induction j as [|j IH]; intros Hj.
  - simpl. rewrite H0. assumption.
  - rewrite (positionConnected_S ps1 j _ (Hrest (S j) ltac:(lia))).
    rewrite IH by lia. reflexivity.
Qed.

Lemma initialize_fresh (settings : SimulationSettings.t) (resets : Z)
    (pendulums : list JoinedPendulum.t) (i : nat) :
  1 <= N.to_nat (SimulationSettings.pendulumsJoined settings) ->
  i < length pendulums ->
  exists c, initialize settings resets pendulums i = Ok (<[i := c]> pendulums) /\
            fresh settings c.
Proof.
  intros Hjoined Hi. unfold initialize, fresh.
  set (joined := N.to_nat (SimulationSettings.pendulumsJoined settings)) in *.
  clearbody joined. destruct joined as [|rest]; [lia |].
  cbn [replicate at_ lookup list_lookup insert list_insert mbind outcome_bind].
  match goal with |- context [JoinedPendulum.new _ ?l ?m ?a _] =>
    destruct (new_positions (S rest) l m a
                (N.to_nat (SimulationSettings.trajectoryPoints settings)))
      as (ps & ps1 & Hrun & Hlen & Hlen1 & Hps1 & Hps);
      [simpl; rewrite length_replicate; reflexivity..|]
  end.
  rewrite Hrun. cbn [mbind outcome_bind].
  destruct (at_inside _ _ Hi) as [c0 ->]. cbn [mbind outcome_bind].
  eexists. split; [reflexivity |]. cbn [JoinedPendulum.pendulums
    JoinedPendulum.trajectories JoinedPendulum.trajectoryIndex].
  split; [assumption |]. split; [reflexivity |]. split; [reflexivity |].
  unfold tip. cbn [JoinedPendulum.pendulums]. rewrite last_lookup, Hlen.
  cbn [Nat.pred]. replace (S rest - 1) with rest by lia.
  assert (H0 : ps1 !! 0 = Some (Pendulum.new (SimulationSettings.pendulumLength settings)
                                  (SimulationSettings.pendulumMass settings)
                                  (firstAngle (N.of_nat i) (N.of_nat (length pendulums)) resets))).
  { apply Hps1; reflexivity. }
  assert (Hrest : forall j, 1 <= j < length ps1 ->
            ps1 !! j = Some (Pendulum.new (SimulationSettings.pendulumLength settings)
                               (SimulationSettings.pendulumMass settings) PI)).
  { intros j Hj. destruct j as [|j]; [lia |].
    apply Hps1; simpl; apply lookup_replicate_2; lia. }
  destruct rest as [|rest].
  - rewrite (Hps 0 _ H0). reflexivity.
  - rewrite (Hps (S rest) _ (Hrest (S rest) ltac:(lia))).
    cbn [fmap option_fmap option_map]. rewrite decide_True by lia.
    cbn [Pendulum.position Pendulum.set_position]. f_equal.
    apply (positionConnected_resting settings ps1 _ H0); [reflexivity | assumption | lia].
Qed.

Lemma InitializePendulums_fresh (settings : SimulationSettings.t) (resets : Z) :
  1 <= N.to_nat (SimulationSettings.pendulumsJoined settings) ->
  exists pendulums,
    InitializePendulums settings resets = Ok pendulums /\
    length pendulums = N.to_nat (SimulationSettings.joinedPendulumsCount settings) /\
    Forall (fresh settings) pendulums.
Proof.
  intros Hjoined. unfold InitializePendulums. rewrite length_replicate.
  set (count := N.to_nat (SimulationSettings.joinedPendulumsCount settings)).
  destruct (for_seq_invariant (initialize settings resets)
              (fun k pendulums =>
                 length pendulums = count /\
                 forall i c, i < k -> pendulums !! i = Some c -> fresh settings c)
              count 0 (replicate count JoinedPendulum.default))
    as (pendulums & Hrun & Hlen & Hall).
  - split; [apply length_replicate | intros; lia].
  - intros k pendulums Hk [Hlen Hbefore].
    destruct (initialize_fresh settings resets pendulums k) as (c & Hrun & Hc);
      [assumption | lia |].
    eexists. split; [exact Hrun |]. split; [rewrite length_insert; assumption |].
    intros i c' Hi Hc'. destruct (decide (i = k)) as [->|Hne].
    + rewrite list_lookup_insert_eq in Hc' by lia. congruence.
    + rewrite list_lookup_insert_ne in Hc' by lia. apply (Hbefore i); [lia | assumption].
  - exists pendulums. split; [assumption |]. split; [assumption |].
    apply Forall_lookup. intros i c Hc. apply (Hall i); [| assumption].
    apply lookup_lt_Some in Hc. lia.
Qed.



(** One [Update] of a chain whose cursor is inside the trajectory where
    there are two pendulums or more: it completes, and keeps the number
    of pendulums, the capacity of the trajectory, the cursor inside it,
    and the length and the mass of every pendulum. *)
Theorem Update_keeps_the_shape (settings : SimulationSettings.t) (c : JoinedPendulum.t) :
  (2 <= length (JoinedPendulum.pendulums c) ->
   JoinedPendulum.trajectoryIndex c < length (JoinedPendulum.trajectories c)) ->
  exists c',
    JoinedPendulum.Update settings c = Ok c' /\
    length (JoinedPendulum.pendulums c') = length (JoinedPendulum.pendulums c) /\
    length (JoinedPendulum.trajectories c') = length (JoinedPendulum.trajectories c) /\
    (2 <= length (JoinedPendulum.pendulums c) ->
     JoinedPendulum.trajectoryIndex c' < length (JoinedPendulum.trajectories c)) /\
    forall i p, JoinedPendulum.pendulums c !! i = Some p ->
      exists p', JoinedPendulum.pendulums c' !! i = Some p' /\
                 Pendulum.length p' = Pendulum.length p /\
                 Pendulum.mass p' = Pendulum.mass p.
Proof.
  intros Hcursor.
  destruct (Update_shape settings (length (JoinedPendulum.pendulums c))
              (length (JoinedPendulum.trajectories c)) c)
    as (c' & Hrun & (Hlen & Hcap & Hcursor') & Hsame).
  { split; [reflexivity |]. split; [reflexivity | assumption]. }
  exists c'. split; [assumption |]. split; [assumption |]. split; [assumption |].
  split; [assumption |].
  intros i p Hp. destruct (Forall2_lookup_l _ _ _ _ _ Hsame Hp) as (p' & Hp' & Hpp).
  exists p'. split; [assumption | exact Hpp].
Qed.

Lemma for_each_Undefined {A} (body : A -> outcome A) (a : A) (v : list A) :
  body a = Undefined -> for_each body (a :: v) = Undefined.
Proof. intros Ha. simpl. rewrite Ha. reflexivity. Qed.

(** With two pendulums or more per chain and a trajectory of no points,
    seeding completes and the first frame stores outside the
    trajectory. *)
Theorem first_frame_without_trajectory_points (settings : SimulationSettings.t) (resets : Z) :
  2 <= N.to_nat (SimulationSettings.pendulumsJoined settings) ->
  SimulationSettings.trajectoryPoints settings = 0%N ->
  1 <= N.to_nat (SimulationSettings.joinedPendulumsCount settings) ->
  exists seeded,
    InitializePendulums settings resets = Ok seeded /\
    UpdatePendulums settings seeded = Undefined.
Proof.
  intros Hjoined Hpoints Hcount.
  destruct (InitializePendulums_fresh settings resets) as (seeded & Hseed & Hlen & Hfresh);
    [lia |].
  exists seeded. split; [assumption |].
  destruct seeded as [|c rest]; [simpl in Hlen; lia |].
  apply Forall_cons in Hfresh as [(Hc & Htraj & Hcur & _) _].
  apply for_each_Undefined, Update_general_outside; [lia |].
  rewrite Htraj, Hpoints. simpl. lia.
Qed.

(** With no pendulum per chain and one chain or more, seeding stores
    outside the vector of initial angles. *)
Theorem InitializePendulums_without_pendulums (settings : SimulationSettings.t) (resets : Z) :
  SimulationSettings.pendulumsJoined settings = 0%N ->
  1 <= N.to_nat (SimulationSettings.joinedPendulumsCount settings) ->
  InitializePendulums settings resets = Undefined.
Proof.
  intros Hjoined Hcount. unfold InitializePendulums. rewrite length_replicate.
  destruct (N.to_nat (SimulationSettings.joinedPendulumsCount settings)) as [|count]; [lia |].
  assert (Hbody : forall pendulums i, initialize settings resets pendulums i = Undefined).
  { intros pendulums i. unfold initialize. rewrite Hjoined. reflexivity. }
  cbn [seq for_]. rewrite Hbody. reflexivity.
Qed.


End Shape.

Section FreshDivergence.
Context `{Extern}.

(** A finite [double] minus itself is zero. *)
Lemma sub_diag_finite (x : float) : finite x = true -> (x - x = 0)%float.
Proof.
  intros Hx. apply Prim2SF_inj. rewrite sub_spec. unfold finite in Hx.
  destruct (Prim2SF x) as [s|s| |s m e]; try discriminate.
  - destruct s; reflexivity.
  - unfold SF64sub, SFsub. cbv zeta.
    match goal with |- binary_normalize _ _ ?z _ _ = _ =>
      replace z with 0%Z by (symmetry; apply Z.sub_diag)
    end.
    reflexivity.
Qed.

Lemma distance_diag (v : Vector2Double.t) :
  finite (Vector2Double.x v) = true -> finite (Vector2Double.y v) = true ->
  distance v v = 0%float.
Proof.
  intros Hx Hy. unfold distance. cbn [Vector2Double.x Vector2Double.y].
  rewrite (sub_diag_finite _ Hx), (sub_diag_finite _ Hy). reflexivity.
Qed.

Lemma foldl_add_zeros (l : list N) (f : N -> option float) (distances : list float) :
  (forall s d, f s = Some d -> d = 0%float) ->
  mapM f l = Some distances ->
  foldl PrimFloat.add 0%float distances = 0%float.
Proof.
  intros Hzero Hd. apply mapM_Some_1 in Hd.
  induction Hd as [|s d l distances Hs _ IH]; [reflexivity |].
  rewrite (Hzero s d Hs). simpl. change (0 + 0)%float with 0%float. exact IH.
Qed.

(** In a population where every chain has its tip at one finite place,
    every sampled distance is zero. *)
Lemma specDivergence_coincide (pendulums : list JoinedPendulum.t) (samples : N)
    (v : Vector2Double.t) (d : float) :
  finite (Vector2Double.x v) = true -> finite (Vector2Double.y v) = true ->
  (forall c, c ∈ pendulums -> tip c = Some v) ->
  pendulums <> [] ->
  specDivergence pendulums samples = Some d ->
  d = (0 / double_of_size samples)%float.
Proof.
  intros Hx Hy Htips Hpop Hd.
  rewrite (specDivergence_nonempty pendulums samples Hpop) in Hd.
  destruct (mapM (specSample pendulums samples) (upto samples)) as [distances|] eqn:Hmap;
    [| discriminate].
  simpl in Hd. injection Hd as <-. unfold mean.
  rewrite (foldl_add_zeros (upto samples) (specSample pendulums samples) distances);
    [reflexivity | | assumption].
  intros s ds Hds. unfold specSample in Hds. cbv zeta in Hds.
  set (index := specIndex s (N.of_nat (length pendulums)) samples) in Hds.
  destruct (pendulums !! N.to_nat index) as [c1|] eqn:Hc1; [| discriminate].
  destruct (pendulums !! N.to_nat (index + 1)) as [c2|] eqn:Hc2; [| discriminate].
  simpl in Hds.
  rewrite (Htips c1), (Htips c2) in Hds
    by (eapply list_elem_of_lookup_2; eassumption).
  simpl in Hds. injection Hds as <-. apply distance_diag; assumption.
Qed.

(** The divergence of a population that has just been seeded is
    [0.0 / resetSamples]: zero when there is a sample to take. *)
Theorem GetDivergence_after_InitializePendulums (settings : SimulationSettings.t)
    (resets : Z) :
  let joined := N.to_nat (SimulationSettings.pendulumsJoined settings) in
  let count := SimulationSettings.joinedPendulumsCount settings in
  let samples := SimulationSettings.resetSamples settings in
  let v := restingPosition settings (joined - 1) in
  1 <= joined ->
  (samples * count < 2 ^ 24)%N -> (samples + 1 < 2 * count)%N ->
  finite (Vector2Double.x v) = true -> finite (Vector2Double.y v) = true ->
  exists pendulums,
    InitializePendulums settings resets = Ok pendulums /\
    GetDivergence settings pendulums = Ok (0 / double_of_size samples)%float.
Proof.
  intros joined count samples v Hjoined Hsmall Hcount Hx Hy.
  destruct (InitializePendulums_fresh settings resets Hjoined)
    as (pendulums & Hrun & Hlen & Hfresh).
  exists pendulums. split; [assumption |].
  rewrite Forall_forall in Hfresh.
  assert (Hsize : N.of_nat (length pendulums) = count).
  { rewrite Hlen. apply N2Nat.id. }
  destruct (GetDivergence_agrees settings pendulums) as (d & Hd & Hspec).
  - intros c Hc. destruct (Hfresh c Hc) as (Hc1 & _).
    intros Hnil. rewrite Hnil in Hc1. simpl in Hc1. fold joined in Hc1. lia.
  - rewrite Hsize. fold samples. intros s Hs.
    destruct (sampleIndex_small count samples s Hsmall Hcount Hs) as [Hexact Hinside].
    split; [assumption |]. split; [assumption |].
    unfold SIZE_MAX. change (2 ^ 64 - 1)%N with 18446744073709551615%N.
    change (2 ^ 24)%N with 16777216%N in Hsmall. nia.
  - rewrite Hd. f_equal. fold samples in Hspec.
    apply (specDivergence_coincide pendulums samples v); try assumption.
    + intros c Hc. apply (Hfresh c Hc).
    + intros Hnil. rewrite Hnil in Hsize. simpl in Hsize. lia.
Qed.

End FreshDivergence.

(** ** The pending reset *)

Section PendingReset.
Context `{Extern}.






End PendingReset.

Section History.
Context `{Extern}.

(** The trajectory read from the cursor is the history of the tip,
    oldest first: after [k] ticks of a chain of two pendulums or more,
    the point [i] places after the cursor is the tip after tick
    [k + i + 1 - capacity], for every place that has been written
    ([capacity <= k + i]). *)
Theorem trajectory_is_the_history (settings : SimulationSettings.t) (c : JoinedPendulum.t)
    (k : nat) :
  let capacity := length (JoinedPendulum.trajectories c) in
  2 <= length (JoinedPendulum.pendulums c) ->
  JoinedPendulum.trajectoryIndex c < capacity ->
  exists ck,
    ticks settings k c = Ok ck /\
    length (JoinedPendulum.trajectories ck) = capacity /\
    forall i, i < capacity -> capacity <= k + i ->
      exists cj,
        ticks settings (k + i + 1 - capacity) c = Ok cj /\
        is_Some (tip cj) /\
        JoinedPendulum.trajectories ck
          !! ((JoinedPendulum.trajectoryIndex ck + i) mod capacity) = tip cj.
Proof.
  intros capacity Hn Hidx.
  destruct (ticks_general settings c k Hn Hidx) as (ck & Hrun & _ & Hcap & Hcur & Hslots).
  fold capacity in Hcap, Hcur, Hslots.
  exists ck. split; [assumption |]. split; [assumption |].
  intros i Hi Hwritten.
  destruct (Hslots (k + i - capacity)) as (cj & Hcj & Htip & Hslot); [lia | lia |].
  exists cj. replace (k + i + 1 - capacity) with (k + i - capacity + 1) by lia.
  split; [assumption |]. split; [assumption |].
  rewrite <- Hslot, Hcur. f_equal.
  rewrite Nat.Div0.add_mod_idemp_l.
  replace (JoinedPendulum.trajectoryIndex c + k + i)
    with (JoinedPendulum.trajectoryIndex c + (k + i - capacity) + 1 * capacity) by lia.
  apply Nat.Div0.mod_add.
Qed.

End History.


(* ===================================================================== *)
(** * The settings file *)
(* ===================================================================== *)

Section Loading.
Context `{Conversions}.

Lemma for_invariant {A St} (body : St -> A -> outcome St) (Inv : St -> Prop)
    (range : list A) (st st' : St) :
  (forall st a st', Inv st -> body st a = Ok st' -> Inv st') ->
  Inv st -> for_ body st range = Ok st' -> Inv st'.
Proof.
  intros Hbody. revert st. induction range as [|a range IH]; intros st Hst Hrun.
  - simpl in Hrun. congruence.
  - simpl in Hrun. destruct (body st a) as [st1| |] eqn:Hstep; try discriminate.
    simpl in Hrun. apply (IH st1); [| assumption]. eapply Hbody; eassumption.
Qed.

Lemma for_throws_nothing {A St} (body : St -> A -> outcome St) (range : list A) (st : St)
    (what : string) :
  (forall st a, body st a <> Throw what) -> for_ body st range <> Throw what.
Proof.
  intros Hbody. revert st. induction range as [|a range IH]; intros st; [discriminate |].
  simpl. pose proof (Hbody st a) as Hstep.
  destruct (body st a) as [st1| |]; simpl; [apply IH | congruence | discriminate].
Qed.





Lemma dispatch_needsReset (key value : list ascii) (s s' : SimulationSettings.t)
    (needsReset needsReset' : bool) :
  Settings.dispatch key value s needsReset = Ok (Converted (s', needsReset')) ->
  needsReset' = false ->
  needsReset = false /\ resetSettings s' = resetSettings s.
Proof.
  intros Hrun Hfalse. subst needsReset'. destruct s. revert Hrun.
  dispatch_cases; cbn [orb]; intros Hrun; try discriminate;
    try (injection Hrun as <- <-; split; reflexivity);
    try (injection Hrun as <- Hr; try discriminate;
         try (apply orb_false_elim in Hr as [-> Hr]; try discriminate);
         subst; split; reflexivity).
  destruct (size_of_double a); simpl in Hrun; try discriminate.
  injection Hrun as <- <-. split; reflexivity.
Qed.

Lemma dispatch_Failed (key value : list ascii) (s : SimulationSettings.t)
    (needsReset : bool) (what : string) :
  Settings.dispatch key value s needsReset = Ok (Failed what) ->
  stod value = Failed what \/ stoul value = Failed what.
Proof.
  unfold Settings.dispatch.
  repeat case_decide;
    try (destruct (stod value) eqn:Hd;
         [repeat match goal with |- context [negb ?b] => destruct b; cbn [negb] end;
          try discriminate;
          try (destruct (size_of_double _); simpl; discriminate)
         | intros Hrun; injection Hrun as <-; left; reflexivity]);
    try (destruct (stoul value) eqn:Hu;
         [repeat match goal with |- context [negb ?b] => destruct b; cbn [negb] end;
          discriminate
         | intros Hrun; injection Hrun as <-; right; reflexivity]).
  discriminate.
Qed.

Lemma loadLine_needsReset (lines : list (list ascii)) (i : nat)
    (s s' : SimulationSettings.t) (needsReset : bool) (log log' : list Settings.Trace) :
  Settings.loadLine lines (s, needsReset, log) i = Ok (s', false, log') ->
  needsReset = false /\ resetSettings s' = resetSettings s.
Proof.
  unfold Settings.loadLine. unfold at_.
  destruct (lines !! i) as [tmp0|]; simpl; [| discriminate].
  repeat case_decide; try (intros Hrun; injection Hrun as <- <- <-; auto; fail).
  destruct (Settings.uncomment _ !! 0) as [key|]; simpl; [| discriminate].
  destruct (Settings.uncomment _ !! 1) as [value|]; simpl; [| discriminate].
  destruct (Settings.dispatch key value s needsReset) as [[[s1 r1]|what]| |] eqn:Hd;
    simpl; try discriminate.
  - intros Hrun. injection Hrun as <- -> <-.
    eapply dispatch_needsReset; [exact Hd | reflexivity].
  - intros Hrun. injection Hrun as <- <- <-. auto.
Qed.

(** When [LoadSettings] returns [false], none of the five settings that
    ask for a reset of the simulation has changed: the number of
    pendulums per chain, the number of chains, the number of trajectory
    points, the length and the mass of a pendulum. *)
Theorem LoadSettings_false_keeps_the_reset_settings (file : option (list ascii))
    (s s' : SimulationSettings.t) (log : list Settings.Trace) :
  Settings.LoadSettings file s = Ok (s', false, log) ->
  SimulationSettings.pendulumsJoined s' = SimulationSettings.pendulumsJoined s /\
  SimulationSettings.joinedPendulumsCount s' = SimulationSettings.joinedPendulumsCount s /\
  SimulationSettings.trajectoryPoints s' = SimulationSettings.trajectoryPoints s /\
  SimulationSettings.pendulumLength s' = SimulationSettings.pendulumLength s /\
  SimulationSettings.pendulumMass s' = SimulationSettings.pendulumMass s.
Proof.
  destruct file as [text|]; [| discriminate]. unfold Settings.LoadSettings.
  intros Hrun.
  pose proof (for_invariant (Settings.loadLine (Settings.split "010" text))
                (fun st => st.1.2 = false -> resetSettings st.1.1 = resetSettings s)
                (seq 0 (length (Settings.split "010" text))) (s, false, []) (s', false, log))
    as Hsame.
  cbn [fst snd] in Hsame. unfold resetSettings in Hsame.
  assert (Hfields : (SimulationSettings.pendulumsJoined s',
                     SimulationSettings.joinedPendulumsCount s',
                     SimulationSettings.trajectoryPoints s',
                     SimulationSettings.pendulumLength s',
                     SimulationSettings.pendulumMass s')
                    = (SimulationSettings.pendulumsJoined s,
                       SimulationSettings.joinedPendulumsCount s,
                       SimulationSettings.trajectoryPoints s,
                       SimulationSettings.pendulumLength s,
                       SimulationSettings.pendulumMass s)).
  { apply Hsame; [| reflexivity | exact Hrun | reflexivity].
    intros [[s1 r1] l1] i [[s2 r2] l2] Hinv Hstep. cbn [fst snd] in *.
    intros Hr2. subst r2. apply loadLine_needsReset in Hstep as [Hr1 Hstep]. subst r1.
    unfold resetSettings in Hstep. rewrite Hstep. apply Hinv. reflexivity. }
  injection Hfields as -> -> -> -> ->. auto.
Qed.

End Loading.

(** ** The tokens of a line *)

Section Tokens.

Lemma untab_blank (l : list ascii) : Forall blank l -> Settings.untab l = replicate (length l) " "%char.
Proof.
  induction 1 as [|c l [->| ->] _ IH]; [reflexivity | |]; simpl; rewrite <- IH; reflexivity.
Qed.

Lemma untab_word (w : list ascii) : word w -> Settings.untab w = w.
Proof.
  intros [_ Hw]. induction Hw as [|c w (_ & Ht & _) _ IH]; [reflexivity |].
  unfold Settings.untab in *. cbn [fmap list_fmap]. rewrite decide_False by assumption.
  f_equal. exact IH.
Qed.

Lemma untab_app (l k : list ascii) : Settings.untab (l ++ k) = Settings.untab l ++ Settings.untab k.
Proof. apply fmap_app. Qed.

Lemma squeeze_cons (c : ascii) (l : list ascii) :
  c <> " "%char -> Settings.squeeze (c :: l) = c :: Settings.squeeze l.
Proof.
  intros Hc. destruct l as [|d l]; [reflexivity |].
  cbn [Settings.squeeze]. rewrite decide_False by (intros [? _]; contradiction). reflexivity.
Qed.

Lemma squeeze_word (w l : list ascii) :
  word w -> Settings.squeeze (w ++ l) = w ++ Settings.squeeze l.
Proof.
  intros [_ Hw]. induction Hw as [|c w (Hc & _) _ IH]; [reflexivity |].
  cbn [app]. rewrite squeeze_cons by assumption. f_equal. exact IH.
Qed.

Lemma squeeze_spaces (n : nat) (l : list ascii) :
  head l <> Some " "%char ->
  Settings.squeeze (replicate (S n) " "%char ++ l) = " "%char :: Settings.squeeze l.
Proof.
  intros Hl. induction n as [|n IH].
  - destruct l as [|d l]; [reflexivity |].
    cbn [replicate app Settings.squeeze].
    rewrite decide_False; [reflexivity |]. intros [_ ->]. apply Hl. reflexivity.
  - change (replicate (S (S n)) " "%char ++ l) with (" "%char :: " "%char :: (replicate n " "%char ++ l)).
    cbn [Settings.squeeze]. rewrite decide_True by auto. exact IH.
Qed.

Lemma head_word (w l : list ascii) : word w -> head (w ++ l) <> Some " "%char.
Proof.
  intros [Hne Hw]. destruct w as [|c w]; [contradiction |].
  apply Forall_cons in Hw as [(Hc & _) _]. simpl. congruence.
Qed.

Lemma squeeze_edge (blanks l : list ascii) :
  head l <> Some " "%char ->
  Settings.squeeze (replicate (length blanks) " "%char ++ l) = edge blanks ++ Settings.squeeze l.
Proof.
  intros Hl. destruct blanks as [|b blanks]; [reflexivity |].
  cbn [length]. rewrite squeeze_spaces by assumption. reflexivity.
Qed.

Lemma cleaned (lead mid trail key value : list ascii) :
  Forall blank lead -> Forall blank mid -> Forall blank trail -> mid <> [] ->
  word key -> word value ->
  Settings.squeeze (Settings.untab (lead ++ key ++ mid ++ value ++ trail))
  = edge lead ++ key ++ " "%char :: value ++ edge trail.
Proof.
  intros Hlead Hmid Htrail Hne Hkey Hvalue.
  rewrite !untab_app, (untab_blank lead), (untab_blank mid), (untab_blank trail),
    (untab_word key), (untab_word value) by assumption.
  rewrite squeeze_edge by (apply head_word; assumption).
  rewrite squeeze_word by assumption.
  rewrite squeeze_edge by (apply head_word; assumption).
  rewrite squeeze_word by assumption.
  destruct mid as [|b mid]; [contradiction |]. cbn [edge app].
  do 3 f_equal.
  destruct trail as [|b' trail]; [reflexivity |].
  rewrite <- (app_nil_r (replicate _ _)). rewrite squeeze_edge by (simpl; congruence).
  reflexivity.
Qed.

Lemma skipSpaces_word (w l : list ascii) : word w -> Settings.skipSpaces (w ++ l) = w ++ l.
Proof.
  intros [Hne Hw]. destruct w as [|c w]; [contradiction |].
  apply Forall_cons in Hw as [(Hc & _) _]. simpl. rewrite decide_False by assumption.
  reflexivity.
Qed.

Lemma word_reverse (w : list ascii) : word w -> word (reverse w).
Proof.
  intros [Hne Hw]. split.
  - intros Hnil. apply Hne. rewrite <- (reverse_involutive w), Hnil. reflexivity.
  - apply Forall_reverse. assumption.
Qed.

Lemma forallb_word (w : list ascii) : word w -> forallb (negb ∘ Settings.lineTerminator) w = true.
Proof.
  intros [_ Hw]. induction Hw as [|c w (_ & _ & Hc) _ IH]; [reflexivity |].
  simpl. rewrite Hc, IH. reflexivity.
Qed.

Lemma last_word (w l : list ascii) : word w -> last (l ++ w) <> Some " "%char.
Proof.
  intros Hw. rewrite <- head_reverse, reverse_app. apply head_word, word_reverse, Hw.
Qed.

(** What the third replacement does to a cleaned line: it removes the
    spaces at the two ends when there is one at each end, and nothing
    otherwise. *)
Lemma strip_cleaned (lead trail key value : list ascii) :
  word key -> word value ->
  Settings.strip (edge lead ++ key ++ " "%char :: value ++ edge trail)
  = if bool_decide (lead <> [] /\ trail <> [])
    then key ++ " "%char :: value
    else edge lead ++ key ++ " "%char :: value ++ edge trail.
Proof.
  intros Hkey Hvalue. unfold Settings.strip.
  destruct lead as [|b lead]; cbn [edge app].
  - rewrite (bool_decide_eq_false_2 (head _ = Some " "%char)) by (apply head_word; assumption).
    rewrite (bool_decide_eq_false_2 (_ /\ _)) by (intros [? _]; contradiction).
    rewrite andb_false_l. reflexivity.
  - destruct trail as [|b' trail]; cbn [edge].
    + rewrite app_nil_r.
      rewrite (bool_decide_eq_false_2 (last _ = Some " "%char)).
      * rewrite andb_false_r. reflexivity.
      * assert (Heq : " "%char :: key ++ " "%char :: value
                      = (" "%char :: key ++ [" "%char]) ++ value)
          by (simpl; rewrite <- app_assoc; reflexivity).
        rewrite Heq. apply last_word. assumption.
    + rewrite (bool_decide_eq_true_2 (_ /\ _)) by (split; discriminate).
      assert (Hinner : reverse (Settings.skipSpaces
                                  (reverse (Settings.skipSpaces
                                              (" "%char :: key ++ " "%char :: value ++ [" "%char]))))
                       = key ++ " "%char :: value).
      { assert (HX : key ++ " "%char :: value ++ [" "%char]
                     = (key ++ " "%char :: value) ++ [" "%char])
          by (rewrite <- app_assoc; reflexivity).
        assert (HR : reverse (key ++ " "%char :: value)
                     = reverse value ++ " "%char :: reverse key)
          by (rewrite reverse_app, reverse_cons, <- app_assoc; reflexivity).
        cbn [Settings.skipSpaces]. rewrite decide_True by reflexivity.
        rewrite skipSpaces_word by assumption.
        rewrite HX, reverse_snoc. cbn [Settings.skipSpaces].
        rewrite decide_True by reflexivity.
        rewrite HR, skipSpaces_word by (apply word_reverse; assumption).
        rewrite <- HR. apply reverse_involutive. }
      rewrite Hinner.
      rewrite bool_decide_eq_true_2 by reflexivity.
      rewrite bool_decide_eq_true_2.
      * rewrite bool_decide_eq_true_2 by (simpl; rewrite length_app; simpl; lia).
        rewrite forallb_app. cbn [forallb]. rewrite !forallb_word by assumption.
        reflexivity.
      * assert (Heq : " "%char :: key ++ " "%char :: value ++ [" "%char]
                      = (" "%char :: key ++ " "%char :: value) ++ [" "%char])
          by (simpl; rewrite <- app_assoc; reflexivity).
        rewrite Heq. apply last_snoc.
Qed.

Lemma pieces_word (w : list ascii) : word w -> Settings.pieces " "%char w = [w].
Proof.
  intros [_ Hw]. induction Hw as [|c w (Hc & _) _ IH]; [reflexivity |].
  simpl. rewrite decide_False by assumption. rewrite IH. reflexivity.
Qed.

Lemma pieces_word_app (w l : list ascii) :
  word w -> Settings.pieces " "%char (w ++ " "%char :: l) = w :: Settings.pieces " "%char l.
Proof.
  intros [_ Hw]. induction Hw as [|c w (Hc & _) _ IH].
  - reflexivity.
  - cbn [app Settings.pieces]. rewrite decide_False by assumption. rewrite IH. reflexivity.
Qed.

Lemma split_pieces (d : ascii) (l : list ascii) : l <> [] -> Settings.split d l = Settings.pieces d l.
Proof. destruct l; [contradiction | reflexivity]. Qed.

Lemma app_word_ne (w l k : list ascii) : word w -> k ++ w ++ l <> [].
Proof.
  intros [Hne _] Hnil. apply app_eq_nil in Hnil as [_ Hnil].
  apply app_eq_nil in Hnil as [Hnil _]. contradiction.
Qed.

(** The tokens of a line that holds a key and a value. Blanks between
    the two, however many, separate them. Blanks at both ends of the
    line, or at neither, leave the two tokens; blanks at one end only
    leave an empty token at that end. *)
Theorem tokenize_key_value (lead mid trail key value : list ascii) :
  Forall blank lead -> Forall blank mid -> Forall blank trail -> mid <> [] ->
  word key -> word value ->
  Settings.tokenize (lead ++ key ++ mid ++ value ++ trail)
  = match lead, trail with
    | [], [] | _ :: _, _ :: _ => [key; value]
    | _ :: _, [] => [[]; key; value]
    | [], _ :: _ => [key; value; []]
    end.
Proof.
  intros Hlead Hmid Htrail Hne Hkey Hvalue. unfold Settings.tokenize.
  rewrite cleaned, strip_cleaned by assumption.
  destruct lead as [|b lead], trail as [|b' trail]; cbn [edge app].
  - rewrite bool_decide_eq_false_2 by (intros [? _]; contradiction).
    rewrite app_nil_r, split_pieces by (apply (app_word_ne key _ []); assumption).
    rewrite pieces_word_app, pieces_word by assumption. reflexivity.
  - rewrite bool_decide_eq_false_2 by (intros [? _]; contradiction).
    rewrite split_pieces by (apply (app_word_ne key _ []); assumption).
    rewrite pieces_word_app by assumption.
    change (value ++ [" "%char]) with (value ++ " "%char :: []).
    rewrite pieces_word_app by assumption. reflexivity.
  - rewrite bool_decide_eq_false_2 by (intros [_ ?]; contradiction).
    rewrite app_nil_r. cbn [Settings.split Settings.pieces].
    rewrite decide_True by reflexivity.
    rewrite pieces_word_app, pieces_word by assumption. reflexivity.
  - rewrite bool_decide_eq_true_2 by (split; discriminate).
    rewrite split_pieces by (apply (app_word_ne key _ []); assumption).
    rewrite pieces_word_app, pieces_word by assumption. reflexivity.
Qed.

End Tokens.

(** ** A file of one line *)

Section Lines.
Context `{Conversions}.

Lemma pieces_whole (d : ascii) (l : list ascii) :
  Forall (fun c => c <> d) l -> Settings.pieces d l = [l].
Proof.
  induction 1 as [|c l Hc _ IH]; [reflexivity |].
  simpl. rewrite decide_False by assumption. rewrite IH. reflexivity.
Qed.

Lemma blank_no_newline (l : list ascii) :
  Forall blank l -> Forall (fun c => c <> "010"%char) l.
Proof. intros Hl. eapply Forall_impl; [exact Hl |]. intros c [->| ->]; discriminate. Qed.

Lemma word_no_newline (w : list ascii) :
  word w -> Forall (fun c => c <> "010"%char) w.
Proof.
  intros [_ Hw]. eapply Forall_impl; [exact Hw |].
  intros c (_ & _ & Hc) ->. discriminate.
Qed.

(** The one line of a text that holds a key and a value. *)
Lemma split_key_value (lead mid trail key value : list ascii) :
  Forall blank lead -> Forall blank mid -> Forall blank trail ->
  word key -> word value ->
  Settings.split "010"%char (lead ++ key ++ mid ++ value ++ trail)
  = [lead ++ key ++ mid ++ value ++ trail].
Proof.
  intros Hlead Hmid Htrail Hkey Hvalue.
  rewrite split_pieces by (apply app_word_ne; assumption).
  apply pieces_whole.
  repeat apply Forall_app_2; auto using blank_no_newline, word_no_newline.
Qed.

Lemma uncomment_none (tokens : list (list ascii)) :
  Forall (fun token => token <> chars ";") tokens -> Settings.uncomment tokens = tokens.
Proof.
  intros Htokens. unfold Settings.uncomment.
  destruct (list_find _ tokens) as [[j token]|] eqn:Hfind; [| reflexivity].
  apply list_find_Some in Hfind as (Hj & Htoken & _).
  rewrite Forall_forall in Htokens. exfalso. apply (Htokens token); [| assumption].
  eapply list_elem_of_lookup_2. eassumption.
Qed.

(** A text of one line that holds a key and a value, with blanks at
    both ends or at neither: the line reaches the chain of [if]s with
    the two as its tokens. *)
Lemma LoadSettings_key_value (lead mid trail key value : list ascii)
    (s : SimulationSettings.t) :
  Forall blank lead -> Forall blank mid -> Forall blank trail -> mid <> [] ->
  word key -> word value -> (lead = [] <-> trail = []) ->
  key <> chars ";" -> value <> chars ";" ->
  Settings.LoadSettings (Some (lead ++ key ++ mid ++ value ++ trail)) s
  = result ← Settings.dispatch key value s false;
    match result with
    | Converted (s, needsReset) => Ok (s, needsReset, [])
    | Failed what => Ok (s, false, [Settings.Error 1 what])
    end.
Proof.
  intros Hlead Hmid Htrail Hne Hkey Hvalue Hends Hk Hv.
  unfold Settings.LoadSettings. rewrite split_key_value by assumption.
  cbn [length seq for_]. unfold Settings.loadLine at 1.
  cbn [at_ lookup list_lookup mbind outcome_bind].
  fold (Settings.tokenize (lead ++ key ++ mid ++ value ++ trail)).
  rewrite tokenize_key_value by assumption.
  assert (Htokens : match lead, trail with
                    | [], [] | _ :: _, _ :: _ => [key; value]
                    | _ :: _, [] => [[]; key; value]
                    | [], _ :: _ => [key; value; []]
                    end = [key; value]).
  { destruct lead, trail; try reflexivity.
    - destruct Hends as [Hends _]. specialize (Hends eq_refl). discriminate.
    - destruct Hends as [_ Hends]. specialize (Hends eq_refl). discriminate. }
  rewrite Htokens. rewrite decide_False by discriminate.
  rewrite uncomment_none by (repeat constructor; assumption).
  rewrite decide_False by discriminate.
  rewrite decide_False by (intros Hlen; apply Hlen; reflexivity).
  cbn [at_ lookup list_lookup mbind outcome_bind].
  destruct (Settings.dispatch key value s false) as [[[s' r']|what]| |]; reflexivity.
Qed.

End Lines.

Section Keys.
Context `{Conversions}.

Lemma word_chars_double (key : list ascii) get set resets :
  (key, get, set, resets) ∈ doubleSettings -> word key /\ key <> chars ";".
Proof.
  intros Hin. unfold doubleSettings in Hin.
  repeat (apply elem_of_cons in Hin as [Heq | Hin];
          [injection Heq as -> _ _ _;
           split; [split; [discriminate | repeat constructor; discriminate] | discriminate] |]).
  apply elem_of_nil in Hin. contradiction.
Qed.

Lemma word_chars_size (key : list ascii) get set :
  (key, get, set) ∈ sizeSettings -> word key /\ key <> chars ";".
Proof.
  intros Hin. unfold sizeSettings in Hin.
  repeat (apply elem_of_cons in Hin as [Heq | Hin];
          [injection Heq as -> _ _;
           split; [split; [discriminate | repeat constructor; discriminate] | discriminate] |]).
  apply elem_of_nil in Hin. contradiction.
Qed.

(** A line "key value" for one of the seven settings that are a
    [double], alone in the file, with any blanks between the two and
    blanks at both ends or at neither. The value is what [std::stod]
    makes of the second token. The member is stored to when it compares
    unequal to the value, and [LoadSettings] then returns [true] for the
    length and the mass of a pendulum only; an exception of [std::stod]
    is logged and changes nothing. *)
Theorem LoadSettings_reads_a_double (lead mid trail key value : list ascii)
    (get : SimulationSettings.t -> float)
    (set : float -> SimulationSettings.t -> SimulationSettings.t) (resets : bool)
    (s : SimulationSettings.t) :
  (key, get, set, resets) ∈ doubleSettings ->
  Forall blank lead -> Forall blank mid -> Forall blank trail -> mid <> [] ->
  (lead = [] <-> trail = []) ->
  word value -> value <> chars ";" ->
  Settings.LoadSettings (Some (lead ++ key ++ mid ++ value ++ trail)) s
  = match stod value with
    | Converted v =>
        if negb (get s =? v)%float then Ok (set v s, resets, []) else Ok (s, false, [])
    | Failed what => Ok (s, false, [Settings.Error 1 what])
    end.
Proof.
  intros Hin Hlead Hmid Htrail Hne Hends Hvalue Hv.
  destruct (word_chars_double key get set resets Hin) as [Hkey Hk].
  rewrite LoadSettings_key_value by assumption.
  unfold doubleSettings in Hin.
  repeat (apply elem_of_cons in Hin as [Heq | Hin];
          [injection Heq as -> -> -> ->; unfold Settings.dispatch; decide_key;
           destruct (stod value) as [v|what]; [| reflexivity];
           destruct (negb _); reflexivity |]).
  apply elem_of_nil in Hin. contradiction.
Qed.

(** A line "key value" for one of the three settings that are a
    [std::size_t] read with [std::stoul], alone in the file: the member
    is stored to, and [LoadSettings] returns [true], exactly when the
    value differs from the member. *)
Theorem LoadSettings_reads_a_size (lead mid trail key value : list ascii)
    (get : SimulationSettings.t -> N)
    (set : N -> SimulationSettings.t -> SimulationSettings.t)
    (s : SimulationSettings.t) :
  (key, get, set) ∈ sizeSettings ->
  Forall blank lead -> Forall blank mid -> Forall blank trail -> mid <> [] ->
  (lead = [] <-> trail = []) ->
  word value -> value <> chars ";" ->
  Settings.LoadSettings (Some (lead ++ key ++ mid ++ value ++ trail)) s
  = match stoul value with
    | Converted v => if decide (get s = v) then Ok (s, false, []) else Ok (set v s, true, [])
    | Failed what => Ok (s, false, [Settings.Error 1 what])
    end.
Proof.
  intros Hin Hlead Hmid Htrail Hne Hends Hvalue Hv.
  destruct (word_chars_size key get set Hin) as [Hkey Hk].
  rewrite LoadSettings_key_value by assumption.
  unfold sizeSettings in Hin.
  repeat (apply elem_of_cons in Hin as [Heq | Hin];
          [injection Heq as -> -> ->; unfold Settings.dispatch; decide_key;
           destruct (stoul value) as [v|what]; [| reflexivity];
           case_decide as Hsame;
           [rewrite (proj2 (N.eqb_eq _ _) Hsame) | rewrite (proj2 (N.eqb_neq _ _) Hsame)];
           reflexivity |]).
  apply elem_of_nil in Hin. contradiction.
Qed.

End Keys.

Section MoreLines.
Context `{Conversions}.

Lemma split_one_line (text : list ascii) :
  text <> [] -> Forall (fun c => c <> "010"%char) text ->
  Settings.split "010"%char text = [text].
Proof. intros Hne Htext. rewrite split_pieces by assumption. apply pieces_whole, Htext. Qed.


(** A line "key value" whose key is none of the eleven, alone in the
    file: nothing changes and nothing is logged. The two colour
    settings that [SaveSettings] writes, [pendulumColorSaturation] and
    [pendulumColorValue], are such keys. *)
Theorem LoadSettings_ignores_an_unknown_key (lead mid trail key value : list ascii)
    (s : SimulationSettings.t) :
  Forall blank lead -> Forall blank mid -> Forall blank trail -> mid <> [] ->
  (lead = [] <-> trail = []) ->
  word key -> word value -> key <> chars ";" -> value <> chars ";" ->
  key ∉ keys ->
  Settings.LoadSettings (Some (lead ++ key ++ mid ++ value ++ trail)) s = Ok (s, false, []) /\
  (chars "pendulumColorSaturation" ∉ keys) /\ (chars "pendulumColorValue" ∉ keys).
Proof.
  intros Hlead Hmid Htrail Hne Hends Hkey Hvalue Hk Hv Hunknown. split.
  - rewrite LoadSettings_key_value by assumption.
    unfold Settings.dispatch.
    repeat case_decide; try reflexivity; exfalso; apply Hunknown; subst key;
      apply (bool_decide_unpack _); vm_compute; exact I.
  - split; apply (bool_decide_unpack _); vm_compute; exact I.
Qed.

Lemma head_squeeze (l : list ascii) : head (Settings.squeeze l) = head l.
Proof.
  induction l as [|c l IH]; [reflexivity |].
  destruct l as [|d l]; [reflexivity |].
  change (Settings.squeeze (c :: d :: l))
    with (if decide (c = " "%char /\ d = " "%char)
          then Settings.squeeze (d :: l) else c :: Settings.squeeze (d :: l)).
  case_decide as Hcd; [| reflexivity].
  destruct Hcd as [-> ->]. rewrite IH. reflexivity.
Qed.

Lemma strip_no_lead (l : list ascii) : head l <> Some " "%char -> Settings.strip l = l.
Proof.
  intros Hl. unfold Settings.strip. rewrite (bool_decide_eq_false_2 (head l = _)) by assumption.
  reflexivity.
Qed.

Lemma untab_no_newline (l : list ascii) :
  Forall (fun c => c <> "010"%char) l -> Forall (fun c => c <> "010"%char) (Settings.untab l).
Proof.
  intros Hl. unfold Settings.untab. apply Forall_fmap.
  eapply Forall_impl; [exact Hl |]. intros c Hc. simpl. case_decide; [discriminate | assumption].
Qed.

(** A line that begins with [;] followed by a blank, or that is [;]
    alone, is a comment: alone in the file, it changes nothing and
    nothing is logged, whatever follows the blank. *)
Theorem LoadSettings_skips_a_comment (b : ascii) (rest : list ascii)
    (s : SimulationSettings.t) :
  blank b -> Forall (fun c => c <> "010"%char) rest ->
  Settings.LoadSettings (Some (chars ";" ++ b :: rest)) s = Ok (s, false, []) /\
  Settings.LoadSettings (Some (chars ";")) s = Ok (s, false, []).
Proof.
  intros Hb Hrest. split; [| reflexivity].
  unfold Settings.LoadSettings.
  rewrite split_one_line; [| discriminate |].
  2:{ constructor; [discriminate |]. constructor; [| assumption].
      destruct Hb as [->| ->]; discriminate. }
  cbn [length seq for_]. unfold Settings.loadLine at 1.
  cbn [at_ lookup list_lookup mbind outcome_bind].
  assert (Htokens : exists tokens,
            Settings.split " "%char
              (Settings.strip (Settings.squeeze (Settings.untab (chars ";" ++ b :: rest))))
            = chars ";" :: tokens).
  { change (chars ";" ++ b :: rest) with (";"%char :: b :: rest).
    assert (Huntab : Settings.untab (";"%char :: b :: rest)
                     = ";"%char :: " "%char :: Settings.untab rest).
    { unfold Settings.untab. cbn [fmap list_fmap].
      rewrite decide_False by discriminate.
      destruct Hb as [->| ->]; reflexivity. }
    rewrite Huntab, squeeze_cons by discriminate.
    rewrite strip_no_lead by (simpl; congruence).
    pose proof (head_squeeze (" "%char :: Settings.untab rest)) as Hhead.
    destruct (Settings.squeeze (" "%char :: Settings.untab rest)) as [|c l]; [discriminate |].
    simpl in Hhead. injection Hhead as ->.
    cbn [Settings.split Settings.pieces].
    rewrite decide_False by discriminate. rewrite decide_True by reflexivity.
    eexists. reflexivity. }
  destruct Htokens as [tokens ->].
  rewrite decide_False by discriminate.
  assert (Hcomment : Settings.uncomment (chars ";" :: tokens) = []) by reflexivity.
  rewrite Hcomment, decide_True by reflexivity. reflexivity.
Qed.

End MoreLines.

Section Samples.
Context `{Conversions}.

(** The line "resetSamples value", alone in the file. *)
Lemma LoadSettings_resetSamples_line (lead mid trail value : list ascii)
    (s : SimulationSettings.t) :
  Forall blank lead -> Forall blank mid -> Forall blank trail -> mid <> [] ->
  (lead = [] <-> trail = []) ->
  word value -> value <> chars ";" ->
  Settings.LoadSettings (Some (lead ++ chars "resetSamples" ++ mid ++ value ++ trail)) s
  = match stod value with
    | Converted v =>
        if (double_of_size (SimulationSettings.resetSamples s) =? v)%float
        then Ok (s, false, [])
        else samples ← size_of_double v; Ok (Settings.set_resetSamples samples s, false, [])
    | Failed what => Ok (s, false, [Settings.Error 1 what])
    end.
Proof.
  intros Hlead Hmid Htrail Hne Hends Hvalue Hv.
  rewrite LoadSettings_key_value; try assumption.
  - unfold Settings.dispatch. decide_key.
    destruct (stod value) as [v|what]; [| reflexivity].
    destruct (_ =? _)%float; cbn [negb]; [reflexivity |].
    destruct (size_of_double v); reflexivity.
  - split; [discriminate | repeat constructor; discriminate].
  - discriminate.
Qed.

Local Open Scope Z_scope.

(** A [double] at or below -1 has no [std::size_t]. *)
Lemma size_of_double_below_zero (v : float) :
  (v <=? -1)%float = true -> size_of_double v = Undefined.
Proof.
  intros Hv. rewrite leb_spec in Hv. pose proof (Prim2SF_valid v) as Hvalid.
  unfold size_of_double.
  assert (Hone : exists one, Prim2SF (-1) = S754_finite true one (-52) /\ Z.pos one = 2 ^ 52)
    by (eexists; split; reflexivity).
  destruct Hone as (one & Hminus & Hone). rewrite Hminus in Hv. clear Hminus.
  destruct (Prim2SF v) as [s|s| |s m e]; try reflexivity.
  - destruct s; discriminate.
  - destruct s; [| discriminate].
    assert (Hm : 2 ^ 52 <= Z.pos m /\ -52 <= e).
    { unfold SFleb, SFcompare in Hv.
      destruct (e ?= -52) eqn:He.
      - apply Z.compare_eq in He. subst e. split; [| lia].
        rewrite Pos.compare_cont_spec in Hv. unfold Pos.switch_Eq in Hv.
        destruct (m ?= one)%positive eqn:Hc; try discriminate.
        + apply Pos.compare_eq in Hc. subst m. lia.
        + apply Pos.compare_gt_iff in Hc. lia.
      - discriminate.
      - apply Z.compare_gt_iff in He.
        unfold FloatAxioms.valid_binary, valid_binary, bounded, canonical_mantissa in Hvalid.
        apply andb_prop in Hvalid as [Hcanon _]. apply Z.eqb_eq in Hcanon.
        unfold fexp, emin, FloatOps.prec, FloatOps.emax in Hcanon.
        pose proof (digits2_pos_bounds m) as [Hlo _].
        assert (Hd : Z.pos (digits2_pos m) = 53) by lia.
        rewrite Hd in Hlo. split; [exact Hlo | lia]. }
    destruct Hm as [Hm He]. cbn [cond_Zopp].
    assert (Hz : Z.quot (Z.neg m * 2 ^ Z.max e 0) (2 ^ Z.max (- e) 0) < 0).
    { assert (Hpow : 0 < 2 ^ Z.max (- e) 0) by (apply Z.pow_pos_nonneg; lia).
      assert (Hpow' : 0 < 2 ^ Z.max e 0) by (apply Z.pow_pos_nonneg; lia).
      change (Z.neg m) with (- Z.pos m). rewrite Z.mul_opp_l, Z.quot_opp_l by lia.
      rewrite Z.quot_div_nonneg by nia.
      assert (1 <= Z.pos m * 2 ^ Z.max e 0 / 2 ^ Z.max (- e) 0); [| lia].
      apply Z.div_le_lower_bound; [assumption |].
      destruct (Z.le_gt_cases 0 e) as [Hpos|Hneg].
      - rewrite (Z.max_r (- e) 0) by lia. simpl. nia.
      - rewrite (Z.max_r e 0), (Z.max_l (- e) 0) by lia.
        assert (2 ^ (- e) <= 2 ^ 52) by (apply Z.pow_le_mono_r; lia). nia. }
    replace (0 <=? _) with false by (symmetry; apply Z.leb_gt; exact Hz). reflexivity.
Qed.

End Samples.

Section BelowZero.
Context `{Conversions}.

(** The [double] of a [std::size_t] below 2^63 is the one the
    specification of rounding gives. *)
Lemma double_of_size_spec (n : N) :
  (n < 2 ^ 63)%N ->
  Prim2SF (double_of_size n) = binary_normalize prec emax (Z.of_N n) 0 false.
Proof.
  intros Hn. unfold double_of_size, double_of_Z.
  assert (Hphi : Uint63.to_Z (Uint63.of_Z (Z.of_N n)) = Z.of_N n).
  { rewrite Uint63.of_Z_spec. apply Z.mod_small.
    change Uint63.wB with (2 ^ 63)%Z. lia. }
  rewrite <- Hphi, <- of_uint63_spec, SF2Prim_Prim2SF. reflexivity.
Qed.

Lemma binary_normalize_sign (n : N) :
  match binary_normalize prec emax (Z.of_N n) 0 false with
  | S754_zero s | S754_infinity s | S754_finite s _ _ => s = false
  | S754_nan => True
  end.
Proof.
  destruct n as [|p]; [reflexivity |]. cbn [Z.of_N binary_normalize].
  unfold binary_round. destruct (shl_align _ _ _) as [mz ez].
  unfold binary_round_aux.
  destruct (shr_fexp prec emax (Z.pos mz) ez loc_Exact) as [mrs' e'].
  destruct (shr_fexp prec emax _ e' loc_Exact) as [mrs'' e''].
  destruct (shr_m mrs''); [reflexivity | | exact I].
  destruct (e'' <=? emax - prec)%Z; reflexivity.
Qed.

Lemma double_of_size_differs (n : N) (v : float) :
  (n < 2 ^ 63)%N -> (v <=? -1)%float = true -> (double_of_size n =? v)%float = false.
Proof.
  intros Hn Hv. rewrite FloatAxioms.eqb_spec, (double_of_size_spec n Hn).
  pose proof (binary_normalize_sign n) as Hsign.
  rewrite leb_spec in Hv.
  assert (Hone : exists one, Prim2SF (-1) = S754_finite true one (-52))
    by (eexists; reflexivity).
  destruct Hone as (one & Hminus). rewrite Hminus in Hv. clear Hminus.
  destruct (Prim2SF v) as [s|s| |s m e]; try discriminate;
    (destruct s; [| discriminate]);
    destruct (binary_normalize _ _ _ _ _) as [s|s| |s m' e']; try subst s; reflexivity.
Qed.

(** The line "resetSamples value", alone in the file: the value is read
    with [std::stod], as a [double]; the member is converted to [double]
    for the comparison, and the value converted to [std::size_t], by
    truncation, for the store. [LoadSettings] returns [false]. When the
    value is a number at or below -1, the store converts a [double] that
    no [std::size_t] holds, and the behaviour is undefined. *)
Theorem LoadSettings_reads_resetSamples_as_a_double (lead mid trail value : list ascii)
    (s : SimulationSettings.t) :
  Forall blank lead -> Forall blank mid -> Forall blank trail -> mid <> [] ->
  (lead = [] <-> trail = []) ->
  word value -> value <> chars ";" ->
  let loaded :=
    Settings.LoadSettings (Some (lead ++ chars "resetSamples" ++ mid ++ value ++ trail)) s in
  loaded
  = match stod value with
    | Converted v =>
        if (double_of_size (SimulationSettings.resetSamples s) =? v)%float
        then Ok (s, false, [])
        else samples ← size_of_double v; Ok (Settings.set_resetSamples samples s, false, [])
    | Failed what => Ok (s, false, [Settings.Error 1 what])
    end /\
  (forall v, (SimulationSettings.resetSamples s < 2 ^ 63)%N ->
     stod value = Converted v -> (v <=? -1)%float = true -> loaded = Undefined).
Proof.
  intros Hlead Hmid Htrail Hne Hends Hvalue Hsemi loaded.
  assert (Hline := LoadSettings_resetSamples_line lead mid trail value s
                     Hlead Hmid Htrail Hne Hends Hvalue Hsemi).
  fold loaded in Hline. split; [exact Hline |].
  intros v Hsamples Hstod Hv.
  rewrite Hline, Hstod, (double_of_size_differs _ v Hsamples Hv).
  rewrite (size_of_double_below_zero v Hv). reflexivity.
Qed.

End BelowZero.

(** ** A file of several lines *)

Section Composition.
Context `{Conversions}.

Lemma renumber_0 (log : list Settings.Trace) : renumber 0 log = log.
Proof.
  unfold renumber. induction log as [|[n l|n w] log IH]; [reflexivity | |];
    cbn [fmap list_fmap]; f_equal; assumption.
Qed.

Lemma renumber_renumber (j k : nat) (log : list Settings.Trace) :
  renumber j (renumber k log) = renumber (j + k) log.
Proof.
  unfold renumber. rewrite <- list_fmap_compose. apply list_fmap_ext.
  intros i [n l|n w] _; simpl; f_equal; lia.
Qed.

Lemma renumber_app (k : nat) (l1 l2 : list Settings.Trace) :
  renumber k (l1 ++ l2) = renumber k l1 ++ renumber k l2.
Proof. apply fmap_app. Qed.

(** [needsReset] is only ever set: the flag after a key is the flag
    before, or what the key sets from [false]. *)
Lemma dispatch_flag (key value : list ascii) (s : SimulationSettings.t) (r : bool) :
  Settings.dispatch key value s r
  = result ← Settings.dispatch key value s false;
    Ok (match result with
        | Converted (s', r') => Converted (s', r || r')
        | Failed what => Failed what
        end).
Proof.
  unfold Settings.dispatch.
  repeat case_decide;
    repeat match goal with
           | |- context [stod ?v] => destruct (stod v)
           | |- context [stoul ?v] => destruct (stoul v)
           | |- context [negb ?b] => destruct b; cbn [negb]
           end;
    cbn [mbind outcome_bind orb]; rewrite ?orb_false_r, ?orb_true_r; try reflexivity.
  destruct (size_of_double a); cbn [mbind outcome_bind]; rewrite ?orb_false_r; reflexivity.
Qed.

(** One line of the file, by itself: the line at index [i] acts as if it
    were the only one, on the settings alone; the flag and the log
    accumulate. *)
Lemma loadLine_at (lines : list (list ascii)) (i : nat) (line : list ascii)
    (s : SimulationSettings.t) (r : bool) (log : list Settings.Trace) :
  lines !! i = Some line ->
  Settings.loadLine lines (s, r, log) i
  = '(s', r', l) ← Settings.loadLine [line] (s, false, []) 0;
    Ok (s', r || r', log ++ renumber i l).
Proof.
  intros Hline. unfold Settings.loadLine. rewrite (at_Ok _ _ _ Hline).
  cbn [at_ lookup list_lookup mbind outcome_bind].
  repeat case_decide; cbn [mbind outcome_bind renumber fmap list_fmap];
    rewrite ?orb_false_r, ?app_nil_r; try reflexivity.
  unfold at_.
  destruct (Settings.uncomment _ !! 0) as [key|]; [| reflexivity].
  destruct (Settings.uncomment _ !! 1) as [value|]; [| reflexivity].
  cbn [mbind outcome_bind].
  rewrite (dispatch_flag key value s r).
  destruct (Settings.dispatch key value s false) as [[[s' r']|what]| |];
    cbn [mbind outcome_bind renumber fmap list_fmap];
    rewrite ?orb_false_r, ?app_nil_r; reflexivity.
Qed.

(** The lines [ls] of a file after the lines [pre]: they act as if they
    were a file of their own. *)
Lemma for_loadLine_shift (ls pre : list (list ascii))
    (s : SimulationSettings.t) (r : bool) (log : list Settings.Trace) :
  for_ (Settings.loadLine (pre ++ ls)) (s, r, log) (seq (length pre) (length ls))
  = '(s', r', l) ← for_ (Settings.loadLine ls) (s, false, []) (seq 0 (length ls));
    Ok (s', r || r', log ++ renumber (length pre) l).
Proof.
  revert pre s r log. induction ls as [|x ls IH]; intros pre s r log.
  - simpl. rewrite orb_false_r, app_nil_r. reflexivity.
  - cbn [length seq for_].
    rewrite (loadLine_at (pre ++ x :: ls) (length pre) x)
      by (apply list_lookup_middle; reflexivity).
    rewrite (loadLine_at (x :: ls) 0 x) by reflexivity.
    destruct (Settings.loadLine [x] (s, false, []) 0) as [[[s1 r1] l1]| |];
      cbn [mbind outcome_bind]; [| reflexivity..].
    pose proof (IH (pre ++ [x]) s1 (r || r1) (log ++ renumber (length pre) l1)) as Hpre.
    rewrite <- app_assoc, length_app in Hpre. cbn [app length] in Hpre.
    rewrite Nat.add_1_r in Hpre. rewrite Hpre.
    pose proof (IH [x] s1 r1 (renumber 0 l1)) as Hone.
    cbn [app length] in Hone. cbn [app orb]. rewrite Hone.
    destruct (for_ (Settings.loadLine ls) (s1, false, []) (seq 0 (length ls)))
      as [[[s2 r2] l2]| |]; cbn [mbind outcome_bind]; [| reflexivity..].
    rewrite renumber_0, renumber_app, renumber_renumber, <- app_assoc, orb_assoc.
    cbn [orb]. do 4 f_equal. f_equal. lia.
Qed.

Lemma for_ext {A St} (body body' : St -> A -> outcome St) (range : list A) (st : St) :
  (forall st a, a ∈ range -> body st a = body' st a) ->
  for_ body st range = for_ body' st range.
Proof.
  revert st. induction range as [|a range IH]; intros st Hext; [reflexivity |].
  simpl. rewrite (Hext st a) by left.
  destruct (body' st a); simpl; [| reflexivity..].
  apply IH. intros st' a' Ha'. apply Hext. right. assumption.
Qed.

Lemma loadLine_prefix (ls post : list (list ascii)) (i : nat)
    (st : SimulationSettings.t * bool * list Settings.Trace) :
  i < length ls -> Settings.loadLine (ls ++ post) st i = Settings.loadLine ls st i.
Proof.
  intros Hi. destruct st as [[s r] log]. unfold Settings.loadLine, at_.
  rewrite lookup_app_l by assumption. reflexivity.
Qed.

Lemma pieces_ne (d : ascii) (a : list ascii) : Settings.pieces d a <> [].
Proof.
  destruct a as [|c a]; [discriminate |]. simpl. case_decide; [discriminate |].
  destruct (Settings.pieces d a); discriminate.
Qed.

Lemma pieces_app (d : ascii) (a b : list ascii) :
  Settings.pieces d (a ++ d :: b) = Settings.pieces d a ++ Settings.pieces d b.
Proof.
  induction a as [|c a IH].
  - simpl. rewrite decide_True by reflexivity. reflexivity.
  - cbn [app Settings.pieces]. rewrite IH. case_decide; [reflexivity |].
    pose proof (pieces_ne d a) as Hne.
    destruct (Settings.pieces d a) as [|p ps]; [contradiction | reflexivity].
Qed.

(** The lines of a text, run from line 1: the empty text has no line,
    which comes to the same as its one empty line. *)
Lemma LoadSettings_pieces (text : list ascii) (s : SimulationSettings.t) :
  Settings.LoadSettings (Some text) s
  = for_ (Settings.loadLine (Settings.pieces "010"%char text)) (s, false, [])
      (seq 0 (length (Settings.pieces "010"%char text))).
Proof. destruct text; reflexivity. Qed.

(** Two texts joined by a newline are loaded as the first and then the
    second: the settings go through both, [LoadSettings] returns [true]
    when it does for either, and the log of the second follows that of
    the first, its lines numbered after them. *)
Theorem LoadSettings_composes (a b : list ascii) (s sa sb : SimulationSettings.t)
    (ra rb : bool) (la lb : list Settings.Trace) :
  Settings.LoadSettings (Some a) s = Ok (sa, ra, la) ->
  Settings.LoadSettings (Some b) sa = Ok (sb, rb, lb) ->
  Settings.LoadSettings (Some (a ++ "010"%char :: b)) s
  = Ok (sb, ra || rb, la ++ renumber (length (Settings.pieces "010"%char a)) lb).
Proof.
  intros Ha Hb. rewrite LoadSettings_pieces in Ha, Hb. rewrite LoadSettings_pieces.
  rewrite pieces_app, length_app, seq_app, for_app.
  rewrite (for_ext _ (Settings.loadLine (Settings.pieces "010"%char a))).
  2:{ intros st i Hi. apply loadLine_prefix. apply elem_of_seq in Hi. lia. }
  rewrite Ha. cbn [mbind outcome_bind].
  rewrite for_loadLine_shift, Hb. reflexivity.
Qed.

End Composition.

(* ===================================================================== *)
(** * Drawing *)
(* ===================================================================== *)

(** ** The faded alpha *)

Section Fading.
Local Open Scope Z_scope.

(** Right shifts keep the quotient: [k] shifts of a mantissa that is
    not negative leave it divided by [2 ^ k]. *)
Lemma shr_1_m (mrs : shr_record) : 0 <= shr_m mrs -> shr_m (shr_1 mrs) = shr_m mrs / 2.
Proof.
  destruct mrs as [m r s]. cbn [shr_m]. intros Hm.
  destruct m as [|p|p]; [reflexivity | | lia].
  destruct p as [p|p|]; cbn [shr_1 shr_m].
  - rewrite Pos2Z.inj_xI. apply (Z.div_unique _ 2 _ 1); lia.
  - rewrite Pos2Z.inj_xO. apply (Z.div_unique _ 2 _ 0); lia.
  - reflexivity.
Qed.

Lemma iter_shr_1_m (k : positive) (mrs : shr_record) :
  0 <= shr_m mrs -> shr_m (Pos.iter shr_1 mrs k) = shr_m mrs / 2 ^ Z.pos k.
Proof.
  revert mrs. induction k as [|k IH] using Pos.peano_ind; intros mrs Hm.
  - simpl. rewrite shr_1_m by assumption. reflexivity.
  - rewrite Pos.iter_succ. rewrite shr_1_m.
    + rewrite IH by assumption. rewrite Pos2Z.inj_succ, Z.pow_succ_r by lia.
      rewrite Z.div_div by lia. f_equal. lia.
    + rewrite IH by assumption. apply Z.div_pos; lia.
Qed.

Lemma shr_m_quotient (mrs : shr_record) (e n : Z) :
  0 <= shr_m mrs ->
  shr_m (shr mrs e n).1 = shr_m mrs / 2 ^ Z.max n 0 /\ (shr mrs e n).2 = e + Z.max n 0.
Proof.
  intros Hm. destruct n as [|k|k]; cbn [shr fst snd].
  - simpl. rewrite Z.div_1_r. lia.
  - rewrite iter_pos_iter, iter_shr_1_m by assumption.
    rewrite Z.max_l by lia. auto.
  - simpl. rewrite Z.div_1_r. lia.
Qed.

Lemma round_nearest_even_bounds (m : Z) (l : location) :
  m <= round_nearest_even m l <= m + 1.
Proof.
  unfold round_nearest_even. destruct l as [|[| |]]; try lia.
  destruct (Z.even m); lia.
Qed.

Lemma Zdigits2_bound (m d : Z) : 0 <= m < 2 ^ d -> 0 <= d -> Zdigits2 m <= d.
Proof.
  intros [Hlo Hhi] Hd. destruct m as [|p|p]; [simpl; lia | | lia].
  cbn [Zdigits2]. pose proof (digits2_pos_bounds p) as [Hp _].
  destruct (Z.le_gt_cases (Z.pos (digits2_pos p)) d) as [Hle|Hgt]; [assumption |].
  assert (2 ^ d <= 2 ^ (Z.pos (digits2_pos p) - 1)) by (apply Z.pow_le_mono_r; lia). lia.
Qed.

Lemma pow_split (x y : Z) : 0 <= x -> 0 <= y -> 2 ^ (x + y) = 2 ^ x * 2 ^ y.
Proof. intros. apply Z.pow_add_r; assumption. Qed.

(** The first half of rounding [M * 2 ^ E], a positive number that is at
    most [a]: the mantissa it leaves, in units of [2 ^ e']. *)
Lemma round_below_first (a M E : Z) :
  0 <= a <= 255 -> 0 < M -> E <= -52 -> M <= a * 2 ^ (- E) ->
  let '(mrs', e') := shr_fexp prec emax M E loc_Exact in
  let m2 := round_nearest_even (shr_m mrs') (loc_of_shr_record mrs') in
  0 <= m2 < (a + 1) * 2 ^ (- e') /\ e' <= -45.
Proof.
  intros Ha HM HE Hle. unfold shr_fexp.
  set (fe := fexp prec emax (Zdigits2 M + E)).
  assert (Hpow : 0 < 2 ^ (- E)) by (apply Z.pow_pos_nonneg; lia).
  assert (Hd : Zdigits2 M + E <= 8).
  { assert (Zdigits2 M <= 8 - E); [| lia].
    apply Zdigits2_bound; [| lia]. split; [lia |].
    replace (8 - E) with (8 + - E) by lia. rewrite Z.pow_add_r by lia.
    change (2 ^ 8) with 256. nia. }
  assert (Hfe : -1074 <= fe <= -45).
  { unfold fe, fexp, emin, prec, emax. lia. }
  destruct (Z.le_gt_cases (fe - E) 0) as [Hn|Hn].
  - (* no shift: the number is exact *)
    assert (Hshr : shr (shr_record_of_loc M loc_Exact) E (fe - E)
                   = (shr_record_of_loc M loc_Exact, E)).
    { destruct (fe - E) as [|k|k]; [reflexivity | lia | reflexivity]. }
    rewrite Hshr. cbn [shr_record_of_loc shr_m loc_of_shr_record round_nearest_even].
    split; [nia | lia].
  - destruct (shr_m_quotient (shr_record_of_loc M loc_Exact) E (fe - E)) as [Hm1 He1];
      [simpl; lia |].
    destruct (shr (shr_record_of_loc M loc_Exact) E (fe - E)) as [mrs' e'].
    cbn [fst snd] in Hm1, He1. cbn [shr_record_of_loc shr_m] in Hm1.
    rewrite Z.max_l in Hm1, He1 by lia.
    assert (e' = fe) as -> by lia.
    pose proof (round_nearest_even_bounds (shr_m mrs') (loc_of_shr_record mrs')) as Hm2.
    assert (Hm1' : 0 <= shr_m mrs') by (rewrite Hm1; apply Z.div_pos; lia).
    assert (Hq : shr_m mrs' <= a * 2 ^ (- fe)).
    { rewrite Hm1. apply Z.div_le_upper_bound; [apply Z.pow_pos_nonneg; lia |].
      replace (2 ^ (fe - E) * (a * 2 ^ (- fe))) with (a * 2 ^ (- E)); [assumption |].
      replace (- E) with ((fe - E) + (- fe)) by lia.
      rewrite pow_split by lia. ring. }
    assert (2 <= 2 ^ (- fe)).
    { change 2 with (2 ^ 1) at 1. apply Z.pow_le_mono_r; lia. }
    split; [| lia]. nia.
Qed.

(** Rounding a positive number that is at most [a], an integer below
    256, to [double]: the result is zero or a positive number whose
    integer part is at most [a]. The number is [M * 2 ^ E]. *)
Lemma binary_round_aux_below (a M E : Z) :
  0 <= a <= 255 -> 0 < M -> E <= -52 -> M <= a * 2 ^ (- E) ->
  match binary_round_aux prec emax false M E loc_Exact with
  | S754_zero s => s = false
  | S754_finite s m e => s = false /\ e <= 0 /\ Z.pos m < (a + 1) * 2 ^ (- e)
  | _ => False
  end.
Proof.
  intros Ha HM HE Hle. unfold binary_round_aux.
  pose proof (round_below_first a M E Ha HM HE Hle) as Hfirst.
  destruct (shr_fexp prec emax M E loc_Exact) as [mrs' e'].
  set (m2 := round_nearest_even (shr_m mrs') (loc_of_shr_record mrs')) in *.
  destruct Hfirst as [Hm2 He']. clearbody m2.
  unfold shr_fexp.
  set (fe := fexp prec emax (Zdigits2 m2 + e')).
  assert (Hpow : 0 < 2 ^ (- e')) by (apply Z.pow_pos_nonneg; lia).
  assert (Hd : Zdigits2 m2 + e' <= 8).
  { assert (Zdigits2 m2 <= 8 - e'); [| lia].
    apply Zdigits2_bound; [| lia]. split; [lia |].
    replace (8 - e') with (8 + - e') by lia. rewrite Z.pow_add_r by lia.
    change (2 ^ 8) with 256. nia. }
  assert (Hfe : fe <= -45).
  { unfold fe, fexp, emin, prec, emax. lia. }
  destruct (shr_m_quotient (shr_record_of_loc m2 loc_Exact) e' (fe - e')) as [Hm3 He3];
    [simpl; lia |].
  destruct (shr (shr_record_of_loc m2 loc_Exact) e' (fe - e')) as [mrs'' e''].
  cbn [fst snd] in Hm3, He3. cbn [shr_record_of_loc shr_m] in Hm3.
  set (k := Z.max (fe - e') 0) in *.
  assert (Hk : 0 <= k) by lia.
  assert (He'' : e'' <= -45) by lia.
  assert (Hpk : 0 < 2 ^ k) by (apply Z.pow_pos_nonneg; lia).
  assert (Hm3' : 0 <= shr_m mrs'' /\ shr_m mrs'' * 2 ^ k <= m2).
  { rewrite Hm3. split; [apply Z.div_pos; lia |].
    rewrite Z.mul_comm. apply Z.mul_div_le. assumption. }
  assert (Hsplit : 2 ^ (- e') = 2 ^ (- e'') * 2 ^ k).
  { replace (- e') with (- e'' + k) by lia. apply pow_split; lia. }
  assert (Hpow'' : 0 < 2 ^ (- e'')) by (apply Z.pow_pos_nonneg; lia).
  destruct (shr_m mrs'') as [|m|m]; [reflexivity | | lia].
  replace (e'' <=? emax - prec) with true
    by (symmetry; apply Z.leb_le; unfold emax, prec; lia).
  split; [reflexivity |]. split; [lia |]. nia.
Qed.


Lemma double_of_byte (a : Z) : 0 <= a <= 255 -> byteExact a = true.
Proof.
  intros Ha.
  assert (Hall : forallb byteExact (Z.of_nat <$> seq 0 256) = true)
    by (vm_compute; reflexivity).
  rewrite forallb_forall in Hall. apply Hall.
  apply list_elem_of_In. apply (list_elem_of_fmap_2' _ _ (Z.to_nat a)); [| lia].
  apply elem_of_seq. lia.
Qed.

(** What the two clamps leave of an opacity that is not NaN: a zero, or
    a positive number that is at most 1. *)
Lemma clamp_cases (alpha : float) :
  Prim2SF alpha <> S754_nan ->
  match Prim2SF (Draw.clamp alpha) with
  | S754_zero _ => True
  | S754_finite s m e => s = false /\ e <= -52 /\ Z.pos m <= 2 ^ (- e)
  | _ => False
  end.
Proof.
  intros Hnan. unfold Draw.clamp. rewrite !ltb_spec.
  assert (Hone : exists one, Prim2SF 1 = S754_finite false one (-52) /\ Z.pos one = 2 ^ 52)
    by (eexists; split; reflexivity).
  destruct Hone as (one & Hone & Hval).
  change (Prim2SF 0) with (S754_zero false).
  assert (Hkeep : forall s m e,
            FloatAxioms.valid_binary (S754_finite s m e) = true ->
            SFltb (Prim2SF 1) (S754_finite s m e) = false ->
            SFltb (S754_finite s m e) (S754_zero false) = false ->
            s = false /\ e <= -52 /\ Z.pos m <= 2 ^ (- e)).
  { intros s m e Hvalid Hle Hpos. rewrite Hone in Hle.
    destruct s; [discriminate |]. split; [reflexivity |].
    unfold FloatAxioms.valid_binary, valid_binary, bounded, canonical_mantissa in Hvalid.
    apply andb_prop in Hvalid as [Hcanon _]. apply Z.eqb_eq in Hcanon.
    unfold fexp, emin, FloatOps.prec, FloatOps.emax in Hcanon.
    pose proof (digits2_pos_bounds m) as [_ Hhi].
    assert (Hd : Z.pos (digits2_pos m) <= 53) by lia.
    assert (Hm : Z.pos m < 2 ^ 53).
    { eapply Z.lt_le_trans; [exact Hhi |]. apply Z.pow_le_mono_r; lia. }
    unfold SFltb, SFcompare in Hle.
    destruct (-52 ?= e) eqn:He.
    - apply Z.compare_eq in He. subst e. split; [lia |].
      rewrite Pos.compare_cont_spec in Hle. unfold Pos.switch_Eq in Hle.
      destruct (one ?= m)%positive eqn:Hc; try discriminate.
      + apply Pos.compare_eq in Hc. subst m. simpl. lia.
      + apply Pos.compare_gt_iff in Hc. simpl. lia.
    - discriminate.
    - apply Z.compare_gt_iff in He. split; [lia |].
      assert (2 ^ 53 <= 2 ^ (- e)) by (apply Z.pow_le_mono_r; lia). lia. }
  pose proof (Prim2SF_valid alpha) as Hvalid.
  destruct (SFltb (Prim2SF 1) (Prim2SF alpha)) eqn:Hgt.
  - rewrite Hone. cbn [SFltb SFcompare]. rewrite Hone.
    split; [reflexivity |]. split; [lia |]. rewrite Hval. simpl. lia.
  - destruct (SFltb (Prim2SF alpha) (S754_zero false)) eqn:Hlt; [exact I |].
    destruct (Prim2SF alpha) as [s|s| |s m e]; [exact I | | contradiction |].
    + destruct s; discriminate.
    + apply Hkeep; assumption.
Qed.

Lemma pow_le_pow (a M m ea e : Z) :
  0 <= a -> ea <= 0 -> e <= 0 -> M = a * 2 ^ (- ea) -> 0 < m <= 2 ^ (- e) ->
  M * m <= a * 2 ^ (- (ea + e)).
Proof.
  intros Ha Hea He -> Hm.
  replace (- (ea + e)) with (- ea + - e) by lia. rewrite pow_split by lia.
  assert (0 < 2 ^ (- ea)) by (apply Z.pow_pos_nonneg; lia). nia.
Qed.

(** Fading a colour by an opacity that is not NaN is defined, and does
    not raise the alpha of the colour. *)
Lemma fade_clamp (color : Color.t) (alpha : float) :
  0 <= Color.a color <= 255 -> Prim2SF alpha <> S754_nan ->
  exists a, Draw.fade color (Draw.clamp alpha)
            = Ok (Color.mk (Color.r color) (Color.g color) (Color.b color) a) /\
            0 <= a <= Color.a color.
Proof.
  intros Ha Hnan. unfold Draw.fade.
  pose proof (double_of_byte (Color.a color) Ha) as Hbyte. unfold byteExact in Hbyte.
  pose proof (clamp_cases alpha Hnan) as Hclamp.
  unfold uchar_of_double. rewrite mul_spec. unfold SF64mul.
  set (a := Color.a color) in *.
  destruct (Prim2SF (double_of_Z a)) as [sa|sa| |sa ma ea]; try discriminate.
  - (* the colour is transparent *)
    destruct sa; [discriminate |]. apply Z.eqb_eq in Hbyte.
    destruct (Prim2SF (Draw.clamp alpha)) as [s|s| |s m e]; try contradiction;
      cbn [SFmul mbind outcome_bind]; exists 0; split; try reflexivity; lia.
  - destruct sa; [discriminate |].
    apply andb_prop in Hbyte as [Hbyte Hma]. apply andb_prop in Hbyte as [Hea Hea'].
    apply Z.leb_le in Hea, Hea'. apply Z.eqb_eq in Hma.
    destruct (Prim2SF (Draw.clamp alpha)) as [s|s| |s m e]; try contradiction.
    + cbn [SFmul mbind outcome_bind]. exists 0. split; [reflexivity | lia].
    + destruct Hclamp as (-> & He & Hm). cbn [SFmul xorb].
      pose proof (binary_round_aux_below a (Z.pos (ma * m)) (ea + e) Ha
                    ltac:(lia) ltac:(lia)) as Hround.
      rewrite Pos2Z.inj_mul in Hround.
      specialize (Hround (pow_le_pow a (Z.pos ma) (Z.pos m) ea e
                            ltac:(lia) Hea ltac:(lia) Hma ltac:(lia))).
      rewrite <- Pos2Z.inj_mul in Hround.
      destruct (binary_round_aux prec emax false (Z.pos (ma * m)) (ea + e) loc_Exact)
        as [s'|s'| |s' m' e']; try contradiction.
      * cbn [mbind outcome_bind]. exists 0. split; [reflexivity | lia].
      * destruct Hround as (-> & He' & Hm'). cbn [cond_Zopp].
        rewrite (Z.max_r e' 0), (Z.max_l (- e') 0) by lia.
        rewrite Z.pow_0_r, Z.mul_1_r.
        assert (Hpow : 0 < 2 ^ (- e')) by (apply Z.pow_pos_nonneg; lia).
        rewrite Z.quot_div_nonneg by lia.
        assert (Hq : 0 <= Z.pos m' / 2 ^ (- e') <= a).
        { split; [apply Z.div_pos; lia |].
          assert (Z.pos m' / 2 ^ (- e') < a + 1); [| lia].
          apply Z.div_lt_upper_bound; [assumption | lia]. }
        replace (0 <=? _) with true by (symmetry; apply Z.leb_le; lia).
        replace (_ <=? 255) with true by (symmetry; apply Z.leb_le; lia).
        cbn [andb mbind outcome_bind]. eexists. split; [reflexivity | lia].
Qed.

(** An opacity that is NaN stays NaN through the two clamps, and the
    faded alpha has no [unsigned char]. *)
Lemma fade_nan (color : Color.t) (alpha : float) :
  Prim2SF alpha = S754_nan -> Draw.fade color (Draw.clamp alpha) = Undefined.
Proof.
  intros Hnan. unfold Draw.fade, Draw.clamp. rewrite !ltb_spec, Hnan.
  assert (Hone : SFltb (Prim2SF 1) S754_nan = false)
    by (destruct (Prim2SF 1); reflexivity).
  rewrite Hone, Hnan. cbn [SFltb SFcompare].
  unfold uchar_of_double. rewrite mul_spec, Hnan.
  destruct (Prim2SF (double_of_Z (Color.a color))); reflexivity.
Qed.

End Fading.

(** ** The trajectory and the rods *)

Section Trajectories.
Context `{Power}.

Lemma fade_throws_nothing (base : Color.t) (alpha : float) (what : string) :
  Draw.fade base alpha <> Throw what.
Proof.
  unfold Draw.fade, uchar_of_double.
  destruct (Prim2SF _) as [s|s| |s m e]; try discriminate.
  match goal with |- context [if ?b then _ else _] => destruct b end; discriminate.
Qed.

(** One iteration of the loop of [DrawTrajectory], on a trajectory that
    is not empty: the two points are inside the trajectory. *)
Lemma drawSegment_inside (settings : SimulationSettings.t) (base : Color.t)
    (c : JoinedPendulum.t) (lines : list Line) (i : nat) :
  JoinedPendulum.trajectories c <> [] ->
  exists current next,
    JoinedPendulum.trajectories c
      !! ((JoinedPendulum.trajectoryIndex c + i) mod length (JoinedPendulum.trajectories c))
    = Some current /\
    JoinedPendulum.trajectories c
      !! ((JoinedPendulum.trajectoryIndex c + i + 1)
          mod length (JoinedPendulum.trajectories c))
    = Some next /\
    Draw.drawSegment settings base c lines i
    = if Draw.unrecorded current || Draw.unrecorded next then Ok lines
      else fadedColor ← Draw.fade base
                          (Draw.clamp
                             (Draw.opacity settings
                                (length (JoinedPendulum.trajectories c)) i));
           Ok (lines ++ [DrawLineV (toVector2 current) (toVector2 next) fadedColor]).
Proof.
  intros Hne.
  assert (Hsize : length (JoinedPendulum.trajectories c) <> 0).
  { destruct (JoinedPendulum.trajectories c); [contradiction | discriminate]. }
  destruct (lookup_lt_is_Some_2 (JoinedPendulum.trajectories c)
              ((JoinedPendulum.trajectoryIndex c + i)
               mod length (JoinedPendulum.trajectories c))) as [current Hcurrent];
    [apply Nat.mod_upper_bound; assumption |].
  destruct (lookup_lt_is_Some_2 (JoinedPendulum.trajectories c)
              ((JoinedPendulum.trajectoryIndex c + i + 1)
               mod length (JoinedPendulum.trajectories c))) as [next Hnext];
    [apply Nat.mod_upper_bound; assumption |].
  exists current, next. split; [assumption |]. split; [assumption |].
  unfold Draw.drawSegment. cbv zeta.
  rewrite (at_Ok _ _ _ Hcurrent), (at_Ok _ _ _ Hnext). reflexivity.
Qed.

Lemma drawSegment_throws_nothing (settings : SimulationSettings.t) (base : Color.t)
    (c : JoinedPendulum.t) (lines : list Line) (i : nat) (what : string) :
  Draw.drawSegment settings base c lines i <> Throw what.
Proof.
  unfold Draw.drawSegment. cbv zeta. unfold at_.
  repeat (destruct (JoinedPendulum.trajectories c !! _); simpl; try discriminate).
  destruct (_ || _); [discriminate |].
  pose proof (fade_throws_nothing base
                (Draw.clamp (Draw.opacity settings
                               (length (JoinedPendulum.trajectories c)) i)) what).
  destruct (Draw.fade _ _); cbn [mbind outcome_bind]; [discriminate | congruence | discriminate].
Qed.

Lemma DrawTrajectory_nonempty (settings : SimulationSettings.t) (base : Color.t)
    (c : JoinedPendulum.t) :
  JoinedPendulum.trajectories c <> [] ->
  Draw.DrawTrajectory settings base c
  = for_ (Draw.drawSegment settings base c) []
      (seq 0 (length (JoinedPendulum.trajectories c) - 1)).
Proof.
  intros Hne. unfold Draw.DrawTrajectory.
  destruct (JoinedPendulum.trajectories c); [contradiction | reflexivity].
Qed.

(** [DrawTrajectory] on a chain, whatever its cursor, in a colour of
    [unsigned char] components, when [std::pow] does not return NaN: it
    completes, reading inside the trajectory only, and makes fewer calls
    of [DrawLineV] than there are points; each call joins two
    consecutive recorded points, counted from the cursor, in the given
    colour faded. *)
Theorem DrawTrajectory_is_defined (settings : SimulationSettings.t) (base : Color.t)
    (c : JoinedPendulum.t) :
  let size := length (JoinedPendulum.trajectories c) in
  (0 <= Color.a base <= 255)%Z ->
  (forall i, i + 1 < size -> Prim2SF (Draw.opacity settings size i) <> S754_nan) ->
  exists lines,
    Draw.DrawTrajectory settings base c = Ok lines /\
    length lines <= size - 1 /\
    Forall (segmentOf base c) lines.
Proof.
  intros size Ha Hpow. unfold size in *. clear size.
  destruct (decide (JoinedPendulum.trajectories c = [])) as [Hnil|Hne].
  { exists []. unfold Draw.DrawTrajectory. rewrite Hnil.
    split; [reflexivity |]. split; [simpl; lia | constructor]. }
  rewrite (DrawTrajectory_nonempty settings base c Hne).
  destruct (for_seq_invariant (Draw.drawSegment settings base c)
              (fun k lines => length lines <= k /\ Forall (segmentOf base c) lines)
              (length (JoinedPendulum.trajectories c) - 1) 0 [])
    as (lines & Hrun & Hlen & Hlines).
  - split; [simpl; lia | constructor].
  - intros i lines Hi [Hlen Hlines].
    destruct (drawSegment_inside settings base c lines i Hne)
      as (current & next & Hcurrent & Hnext & ->).
    destruct (Draw.unrecorded current || Draw.unrecorded next) eqn:Hzero.
    + exists lines. split; [reflexivity |]. split; [lia | assumption].
    + apply orb_false_elim in Hzero as [Hc Hn].
      destruct (fade_clamp base
                  (Draw.opacity settings (length (JoinedPendulum.trajectories c)) i) Ha)
        as (a & Hfade & Hrange); [apply Hpow; lia |].
      rewrite Hfade. cbn [mbind outcome_bind].
      eexists. split; [reflexivity |]. split; [rewrite length_app; simpl; lia |].
      apply Forall_app_2; [assumption |]. constructor; [| constructor].
      exists i, current, next.
      cbn [startPos endPos color Color.r Color.g Color.b Color.a].
      repeat (split; [first [assumption | reflexivity | lia] |]). lia.
  - exists lines. split; [assumption |]. split; [lia | assumption].
Qed.

(** [DrawTrajectory] when [std::pow] returns NaN for a segment whose
    two points are recorded: the faded alpha is NaN and has no
    [unsigned char]. *)
Theorem DrawTrajectory_with_an_opacity_that_is_NaN (settings : SimulationSettings.t)
    (base : Color.t) (c : JoinedPendulum.t) (i : nat) (current next : Vector2Double.t) :
  let trajectories := JoinedPendulum.trajectories c in
  let cursor := JoinedPendulum.trajectoryIndex c in
  i + 1 < length trajectories ->
  trajectories !! ((cursor + i) mod length trajectories) = Some current ->
  trajectories !! ((cursor + i + 1) mod length trajectories) = Some next ->
  Draw.unrecorded current = false -> Draw.unrecorded next = false ->
  Prim2SF (Draw.opacity settings (length trajectories) i) = S754_nan ->
  Draw.DrawTrajectory settings base c = Undefined.
Proof.
  intros trajectories cursor Hi Hcurrent Hnext Hc Hn Hnan.
  unfold trajectories, cursor in *. clear trajectories cursor.
  rewrite DrawTrajectory_nonempty
    by (intros Hnil; rewrite Hnil in Hi; simpl in Hi; lia).
  assert (Hrange : seq 0 (length (JoinedPendulum.trajectories c) - 1)
                   = seq 0 i
                     ++ i :: seq (S i) (length (JoinedPendulum.trajectories c) - 1 - S i)).
  { replace (length (JoinedPendulum.trajectories c) - 1)
      with (i + S (length (JoinedPendulum.trajectories c) - 1 - S i)) at 1 by lia.
    rewrite seq_app. reflexivity. }
  rewrite Hrange, for_app.
  pose proof (for_throws_nothing (Draw.drawSegment settings base c) (seq 0 i) [])
    as Hthrow.
  destruct (for_ (Draw.drawSegment settings base c) [] (seq 0 i)) as [lines|what|];
    cbn [mbind outcome_bind]; [| | reflexivity].
  - cbn [for_].
    destruct (drawSegment_inside settings base c lines i)
      as (current' & next' & Hcurrent' & Hnext' & ->);
      [intros Hnil; rewrite Hnil in Hi; simpl in Hi; lia |].
    assert (current' = current) as -> by congruence.
    assert (next' = next) as -> by congruence.
    rewrite Hc, Hn. cbn [orb].
    rewrite (fade_nan base _ Hnan). reflexivity.
  - exfalso. apply (Hthrow what); [| reflexivity].
    intros st a. apply drawSegment_throws_nothing.
Qed.

(** A trajectory in which every point has a coordinate that compares
    equal to zero, as every point of a trajectory is before anything is
    recorded: [DrawTrajectory] draws nothing. *)
Lemma DrawTrajectory_unrecorded (settings : SimulationSettings.t) (base : Color.t)
    (c : JoinedPendulum.t) :
  Forall (fun v => Draw.unrecorded v = true) (JoinedPendulum.trajectories c) ->
  Draw.DrawTrajectory settings base c = Ok [].
Proof.
  intros Hzero.
  destruct (decide (JoinedPendulum.trajectories c = [])) as [Hnil|Hne].
  { unfold Draw.DrawTrajectory. rewrite Hnil. reflexivity. }
  rewrite (DrawTrajectory_nonempty settings base c Hne).
  destruct (for_seq_invariant (Draw.drawSegment settings base c)
              (fun k lines => lines = [])
              (length (JoinedPendulum.trajectories c) - 1) 0 []) as (lines & Hrun & ->).
  - reflexivity.
  - intros i lines Hi ->.
    destruct (drawSegment_inside settings base c [] i Hne)
      as (current & next & Hcurrent & Hnext & ->).
    rewrite Forall_forall in Hzero.
    rewrite (Hzero current) by (eapply list_elem_of_lookup_2; eassumption).
    exists []. auto.
  - assumption.
Qed.

End Trajectories.

Section SingleTrajectory.
Context `{Extern} `{Power}.

Lemma ticks_single (settings : SimulationSettings.t) (c : JoinedPendulum.t) (k : nat) :
  length (JoinedPendulum.pendulums c) = 1 ->
  exists ck,
    ticks settings k c = Ok ck /\
    length (JoinedPendulum.pendulums ck) = 1 /\
    JoinedPendulum.trajectories ck = JoinedPendulum.trajectories c /\
    JoinedPendulum.trajectoryIndex ck = JoinedPendulum.trajectoryIndex c.
Proof.
  intros Hn. induction k as [|k (ck & Hrun & Hlen & Htraj & Hcur)].
  - exists c. auto.
  - destruct (JoinedPendulum.pendulums ck) as [|p [|q ps]] eqn:Hps; try discriminate.
    eexists. split.
    + simpl. rewrite Hrun. simpl.
      apply (Update_single settings ck p); rewrite Hps; reflexivity.
    + simpl. auto.
Qed.

(** A chain of one pendulum, as its constructor builds it, never has a
    trajectory to draw: after any number of ticks [DrawTrajectory]
    makes no call of [DrawLineV]. *)
Theorem single_pendulum_draws_no_trajectory (settings : SimulationSettings.t)
    (base : Color.t) (l m a : float) (trajectoriesSize k : nat) :
  exists c ck,
    JoinedPendulum.new 1 [l] [m] [a] trajectoriesSize = Ok c /\
    ticks settings k c = Ok ck /\
    Draw.DrawTrajectory settings base ck = Ok [].
Proof.
  destruct (new_Ok 1 [l] [m] [a] trajectoriesSize)
    as (ps & Hnew & Hlen & _); try reflexivity.
  destruct (ticks_single settings
              (JoinedPendulum.mk ps (replicate trajectoriesSize Vector2Double.zero) 0) k)
    as (ck & Hrun & _ & Htraj & _); [exact Hlen |].
  eexists _, ck. split; [exact Hnew |]. split; [exact Hrun |].
  apply DrawTrajectory_unrecorded. rewrite Htraj. simpl.
  apply Forall_replicate. reflexivity.
Qed.

End SingleTrajectory.

Section Rods.
Context `{Extern}.

(** [DrawPendulums] draws the chain as one broken line from the centre:
    a call of [DrawLineV] for every pendulum, in order, from the end of
    the pendulum before (the centre for the first) to its own end, in
    the colour given. *)
Theorem DrawPendulums_draws_the_chain (base : Color.t) (c : JoinedPendulum.t) :
  exists lines,
    Draw.DrawPendulums base c = Ok lines /\
    length lines = length (JoinedPendulum.pendulums c) /\
    (forall i p, JoinedPendulum.pendulums c !! i = Some p ->
       exists line,
         lines !! i = Some line /\
         color line = base /\
         endPos line = toVector2 (Pendulum.position p) /\
         startPos line = match i with
                         | 0 => toVector2 Vector2Double.zero
                         | S j => default (toVector2 Vector2Double.zero)
                                    (endPos <$> lines !! j)
                         end).
Proof.
  unfold Draw.DrawPendulums.
  destruct (for_seq_invariant (Draw.drawPendulum base c)
              (fun k lines =>
                 length lines = k /\
                 forall i p, i < k -> JoinedPendulum.pendulums c !! i = Some p ->
                   exists line,
                     lines !! i = Some line /\ color line = base /\
                     endPos line = toVector2 (Pendulum.position p) /\
                     startPos line = match i with
                                     | 0 => toVector2 Vector2Double.zero
                                     | S j => default (toVector2 Vector2Double.zero)
                                                (endPos <$> lines !! j)
                                     end)
              (length (JoinedPendulum.pendulums c)) 0 []) as (lines & Hrun & Hlen & Hlines).
  - split; [reflexivity | intros; lia].
  - intros k lines Hk [Hlen Hlines]. unfold Draw.drawPendulum.
    destruct (lookup_lt_is_Some_2 (JoinedPendulum.pendulums c) k) as [p Hp]; [lia |].
    destruct k as [|j].
    + rewrite decide_False by (intros Hne; apply Hne; reflexivity).
      cbn [mbind outcome_bind]. rewrite (at_Ok _ _ _ Hp). cbn [mbind outcome_bind].
      eexists. split; [reflexivity |]. split; [rewrite length_app, Hlen; reflexivity |].
      intros i q Hi Hq. assert (i = 0) as -> by lia.
      destruct lines; [| discriminate]. simpl.
      eexists. split; [reflexivity |]. cbn [color endPos startPos].
      split; [reflexivity |]. split; [congruence | reflexivity].
    + rewrite decide_True by lia. replace (S j - 1) with j by lia.
      destruct (lookup_lt_is_Some_2 (JoinedPendulum.pendulums c) j) as [pp Hpp]; [lia |].
      rewrite (at_Ok _ _ _ Hpp). cbn [mbind outcome_bind].
      rewrite (at_Ok _ _ _ Hp). cbn [mbind outcome_bind].
      eexists. split; [reflexivity |]. split; [rewrite length_app, Hlen; simpl; lia |].
      intros i q Hi Hq. destruct (decide (i = S j)) as [->|Hne].
      * rewrite lookup_app_r by lia. rewrite Hlen, Nat.sub_diag. simpl.
        eexists. split; [reflexivity |]. cbn [color endPos startPos].
        split; [reflexivity |]. split; [congruence |].
        destruct (Hlines j pp) as (line & Hline & _ & Hend & _); [lia | assumption |].
        rewrite lookup_app_l by lia. rewrite Hline. simpl. congruence.
      * destruct (Hlines i q) as (line & Hline & Hcolor & Hend & Hstart);
          [lia | assumption |].
        exists line. rewrite lookup_app_l by lia.
        split; [assumption |]. split; [assumption |]. split; [assumption |].
        destruct i as [|i']; [assumption |].
        rewrite lookup_app_l by lia. assumption.
  - exists lines. split; [assumption |]. split; [lia |].
    intros i p Hp. apply Hlines; [| assumption]. apply lookup_lt_Some in Hp. lia.
Qed.

End Rods.

(* ===================================================================== *)
(** * Concrete runs *)
(* ===================================================================== *)

(** Two points whose first coordinates have different representations
    are different. *)
Lemma points_differ (v w : option Vector2Double.t) :
  (Prim2SF ∘ Vector2Double.x) <$> v <> (Prim2SF ∘ Vector2Double.x) <$> w -> v <> w.
Proof. intros Hne ->. apply Hne. reflexivity. Qed.

(** ** The single pendulum *)

(** C2, at a failing input. The chain [Examples.single] has one
    pendulum and a trajectory of three points. One [Update] moves the
    end of the pendulum to about (0.0988, 0.9951) and records nothing:
    the three points are still zero and the cursor is still 0. *)
Theorem Update_of_a_single_pendulum_records_no_trajectory :
  JoinedPendulum.Update (H := Reference.extern) Examples.settings Examples.single
  = Ok Examples.singleAfter1 /\
  tip Examples.singleAfter1
  = Some (Vector2Double.mk 0.098840020407322635 0.99510333652635297) /\
  JoinedPendulum.trajectories Examples.singleAfter1 = replicate 3 Vector2Double.zero /\
  JoinedPendulum.trajectoryIndex Examples.singleAfter1 = 0.
Proof. evaluate. Qed.

Lemma Update_single_pendulum_physics_witness :
  length (JoinedPendulum.pendulums Examples.single) = 1 /\
  exists c' p',
    JoinedPendulum.Update (H := Reference.extern) Examples.settings Examples.single = Ok c' /\
    JoinedPendulum.pendulums c' = [p'] /\
    Pendulum.angularVelocity p' = (Pendulum.angularAcceleration p' * 0.1)%float /\
    Pendulum.angle p' = (0.1 + Pendulum.angularVelocity p' * 0.1)%float.
Proof.
  split; [reflexivity |].
  destruct (Update_single_pendulum_physics (H := Reference.extern)
              Examples.settings Examples.single (Pendulum.new 1 1 0.1) eq_refl eq_refl)
    as (c' & p' & Hrun & Hps & _ & Hw & Ha & _).
  exists c', p'. auto.
Defined.

(** ** Chains of two and three pendulums *)

Lemma Update_general_reads_the_state_before_witness :
  2 <= length (JoinedPendulum.pendulums Examples.double) /\
  JoinedPendulum.trajectoryIndex Examples.double
  < length (JoinedPendulum.trajectories Examples.double) /\
  exists c',
    JoinedPendulum.Update (H := Reference.extern) Examples.settings Examples.double = Ok c' /\
    length (JoinedPendulum.pendulums c') = 2.
Proof.
  split; [simpl; lia |]. split; [simpl; lia |].
  destruct (Update_general_reads_the_state_before (H := Reference.extern)
              Examples.settings Examples.double) as (c' & Hrun & Hlen & _);
    [simpl; lia | simpl; lia |].
  exists c'. auto.
Defined.

Lemma interior_acceleration_is_stored_twice_witness :
  3 <= length (JoinedPendulum.pendulums Examples.triple) /\
  exists ps stores,
    JoinedPendulum.accelerateAll (H := Reference.extern) 1 (JoinedPendulum.pendulums Examples.triple)
    = Ok (ps, stores) /\
    length (storesTo 1 stores) = 2.
Proof.
  split; [simpl; lia |].
  destruct (interior_acceleration_is_stored_twice (H := Reference.extern)
              Examples.settings Examples.triple 1
              (Pendulum.new 1 1 0.5) (Pendulum.new 1 1 0.25) (Pendulum.new 1 1 0.125))
    as (ps & stores & c' & p1' & Hacc & _ & Hstores & _);
    [simpl; lia | simpl; lia | lia | simpl; lia | reflexivity | reflexivity | reflexivity |].
  exists ps, stores. split; [exact Hacc |]. rewrite Hstores. reflexivity.
Defined.

Lemma Update_single_records_nothing_witness :
  length (JoinedPendulum.pendulums Examples.single) = 1 /\
  exists c',
    JoinedPendulum.Update (H := Reference.extern) Examples.settings Examples.single = Ok c' /\
    JoinedPendulum.trajectories c' = JoinedPendulum.trajectories Examples.single /\
    JoinedPendulum.trajectoryIndex c' = JoinedPendulum.trajectoryIndex Examples.single.
Proof.
  split; [reflexivity |].
  apply (Update_single_records_nothing (H := Reference.extern)
           Examples.settings Examples.single). reflexivity.
Defined.

Lemma Update_general_records_the_tip_witness :
  2 <= length (JoinedPendulum.pendulums Examples.double) /\
  JoinedPendulum.trajectoryIndex Examples.double
  < length (JoinedPendulum.trajectories Examples.double) /\
  exists c' v,
    JoinedPendulum.Update (H := Reference.extern) Examples.settings Examples.double = Ok c' /\
    tip c' = Some v /\
    JoinedPendulum.trajectories c' !! 0 = Some v /\
    JoinedPendulum.trajectoryIndex c' = 1.
Proof.
  split; [simpl; lia |]. split; [simpl; lia |].
  destruct (Update_general_records_the_tip (H := Reference.extern)
              Examples.settings Examples.double)
    as (c' & v & Hrun & Htip & Hslot & _ & _ & Hcur); [simpl; lia | simpl; lia |].
  exists c', v. auto.
Defined.

Lemma Update_general_without_trajectory_witness :
  2 <= length (JoinedPendulum.pendulums Examples.bare) /\
  JoinedPendulum.trajectories Examples.bare = [] /\
  JoinedPendulum.Update (H := Reference.extern) Examples.settings Examples.bare = Undefined.
Proof.
  split; [simpl; lia |]. split; [reflexivity |].
  apply (Update_general_without_trajectory (H := Reference.extern)
           Examples.settings Examples.bare); [simpl; lia | reflexivity].
Defined.

(** ** The trajectory after a wrap *)

(** C7 as stated fails. [Examples.double] has two pendulums and a
    trajectory of capacity 2. After 3 ticks the oldest entry is not the
    position recorded at tick 1, about (0.7248, 1.8487): it is the
    position recorded at tick 2, about (0.7207, 1.8529). *)
Lemma oldest_entry_is_not_the_one_of_tick_1 :
  ticks (H := Reference.extern) Examples.settings 1 Examples.double
  = Ok Examples.doubleAfter1 /\
  ticks (H := Reference.extern) Examples.settings 3 Examples.double
  = Ok Examples.doubleAfter3 /\
  length (JoinedPendulum.trajectories Examples.doubleAfter3) = 2 /\
  tip Examples.doubleAfter1
  = Some (Vector2Double.mk 0.72483411208046911 1.8487032237000673) /\
  oldest Examples.doubleAfter3
  = Some (Vector2Double.mk 0.7207495743808876 1.8529296012968746) /\
  oldest Examples.doubleAfter3 <> tip Examples.doubleAfter1.
Proof.
  do 5 (split; [vm_compute; reflexivity |]).
  apply points_differ. vm_compute. discriminate.
Qed.

Lemma trajectory_after_capacity_plus_one_ticks_witness :
  2 <= length (JoinedPendulum.pendulums Examples.double) /\
  exists c2 c',
    ticks (H := Reference.extern) Examples.settings 2 Examples.double = Ok c2 /\
    ticks (H := Reference.extern) Examples.settings 3 Examples.double = Ok c' /\
    oldest c' = tip c2.
Proof.
  split; [simpl; lia |].
  destruct (trajectory_after_capacity_plus_one_ticks (H := Reference.extern)
              Examples.settings Examples.double)
    as (c1 & c2 & c' & _ & Hc2 & Hc' & _ & _ & _ & _ & Hold);
    [simpl; lia | simpl; lia |].
  exists c2, c'. auto.
Defined.

(** ** Seeding *)

Lemma InitializePendulums_seeds_witness :
  1 <= N.to_nat (SimulationSettings.pendulumsJoined Examples.settings) /\
  exists pendulums c first,
    InitializePendulums (H := Reference.extern) Examples.settings 3 = Ok pendulums /\
    length pendulums = 2 /\
    pendulums !! 1 = Some c /\
    JoinedPendulum.pendulums c !! 0 = Some first /\
    Pendulum.angle first = firstAngle (H := Reference.extern) 1 2 3.
Proof.
  split; [vm_compute; lia |].
  destruct (InitializePendulums_seeds (H := Reference.extern) Examples.settings 3)
    as (pendulums & Hrun & Hlen & Hall); [vm_compute; lia |].
  destruct (Hall 1) as (c & first & Hc & _ & Hfirst & Hangle & _); [vm_compute; lia |].
  exists pendulums, c, first. auto.
Defined.

(** ** The divergence *)

(** C6, at failing inputs. With one chain and one sample, sample 0 has
    index 0 and the chain after it, at index 1, is not there:
    [GetDivergence] reads outside the population. The same happens under
    the default 100 samples with 50 chains: sample 99 has index 49. *)
Theorem GetDivergence_reads_outside_the_population :
  sampleIndex 0 1 1 = Ok 0%N /\
  tipOf [Examples.chainAt Vector2Double.zero] 1 = Undefined /\
  GetDivergence (Examples.sampling 1 1) [Examples.chainAt Vector2Double.zero] = Undefined /\
  sampleIndex 99 50 100 = Ok 49%N /\
  tipOf (replicate 50 (Examples.chainAt Vector2Double.zero)) 50 = Undefined /\
  GetDivergence SimulationSettings.default
    (replicate 50 (Examples.chainAt Vector2Double.zero)) = Undefined.
Proof. evaluate. Qed.

(** C5 as stated fails. With 8192 chains and 4096 samples, sample 2049
    reads the chains at 4097 and 4098: the index taken in [float] is
    4097, one more than [floor (2049 * 8192 / 4097) = 4096]. On
    [Examples.stepped], whose tips change between the chains 4096 and
    4097, [GetDivergence] returns 0 and the mean of the specification is
    5 / 4096. With one chain and one sample [GetDivergence] returns
    nothing. *)
Lemma GetDivergence_is_not_the_mean_of_the_specification :
  sampleIndex 2049 8192 4096 = Ok 4097%N /\
  specIndex 2049 8192 4096 = 4096%N /\
  N.of_nat (length Examples.stepped) = 8192%N /\
  GetDivergence (Examples.sampling 8192 4096) Examples.stepped = Ok 0%float /\
  specDivergence Examples.stepped 4096 = Some 0.001220703125%float /\
  GetDivergence (Examples.sampling 1 1) [Examples.chainAt Vector2Double.zero] = Undefined.
Proof. evaluate. Qed.

Lemma GetDivergence_is_the_mean_adjacent_distance_witness :
  (forall c, c ∈ Examples.three -> JoinedPendulum.pendulums c <> []) /\
  (2 * 3 < 2 ^ 24)%N /\ (2 + 1 < 2 * 3)%N /\
  exists v, GetDivergence (Examples.sampling 3 2) Examples.three = Ok v /\
            specDivergence Examples.three 2 = Some v.
Proof.
  assert (Hsegments : forall c, c ∈ Examples.three -> JoinedPendulum.pendulums c <> []).
  { intros c Hc. unfold Examples.three in Hc.
    repeat (apply elem_of_cons in Hc as [-> | Hc]); try discriminate.
    apply elem_of_nil in Hc. contradiction. }
  split; [exact Hsegments |]. split; [reflexivity |]. split; [reflexivity |].
  apply (GetDivergence_is_the_mean_adjacent_distance
           (Examples.sampling 3 2) Examples.three Hsegments); reflexivity.
Defined.

(** The run behind it: the samples 0 and 1 read the chains 0, 1 and
    1, 2, at the distances 5 and 4. *)
Lemma GetDivergence_of_three_chains :
  sampleIndex 0 3 2 = Ok 0%N /\ sampleIndex 1 3 2 = Ok 1%N /\
  GetDivergence (Examples.sampling 3 2) Examples.three = Ok 4.5%float.
Proof. evaluate. Qed.

Lemma GetDivergence_reads_outside_a_small_population_witness :
  [Examples.chainAt Vector2Double.zero] <> [] /\
  (1 <= 1)%N /\ (1 * 1 < 2 ^ 24)%N /\ (1 + 1 < 2 ^ 24)%N /\ (2 * 1 <= 1 + 1)%N /\
  GetDivergence (Examples.sampling 1 1) [Examples.chainAt Vector2Double.zero] = Undefined.
Proof.
  split; [discriminate |]. split; [reflexivity |]. split; [reflexivity |].
  split; [reflexivity |]. split; [vm_compute; discriminate |].
  apply (GetDivergence_reads_outside_a_small_population
           (Examples.sampling 1 1) [Examples.chainAt Vector2Double.zero]);
    [discriminate | vm_compute; discriminate | reflexivity | reflexivity
    | vm_compute; discriminate].
Defined.

Lemma GetDivergence_without_samples_witness :
  Examples.three <> [] /\
  SimulationSettings.resetSamples (Examples.sampling 3 0) = 0%N /\
  GetDivergence (Examples.sampling 3 0) Examples.three = Ok nan.
Proof.
  split; [discriminate |]. split; [reflexivity |].
  apply GetDivergence_without_samples; [discriminate | reflexivity].
Defined.

Lemma sampleIndex_is_the_integer_quotient_witness :
  (50 < 2 ^ 24)%N /\ (100 + 1 < 2 ^ 24)%N /\ (99 < 100)%N /\ (99 * 50 < 2 ^ 24)%N /\
  sampleIndex 99 50 100 = Ok (99 * 50 / (100 + 1))%N.
Proof.
  split; [reflexivity |]. split; [reflexivity |]. split; [reflexivity |].
  split; [reflexivity |].
  apply (sampleIndex_is_the_integer_quotient 50 100); reflexivity.
Defined.

(** ** The reset keys *)



(** ** Frames, settings files and drawings *)

(** A run of [LoadSettings] on [Scenes.text]: the comment, the empty
    lines and the colour are passed over, the gravity and the number of
    pendulums are stored, the indented line is reported as invalid and
    the value that is no number as an exception. *)
Lemma LoadSettings_of_a_text :
  Settings.LoadSettings (H := Library.conversions) (Some Scenes.text)
    SimulationSettings.default
  = Ok (SimulationSettings.mk 5 0.1666667 2.5 3 1000 50 150 10 10 100 2.5, true,
        [Settings.Warning 6 (chars " resetSamples 7"); Settings.Error 7 "stod"]).
Proof. vm_compute. reflexivity. Qed.

Lemma Update_keeps_the_shape_witness :
  JoinedPendulum.trajectoryIndex Examples.double
  < length (JoinedPendulum.trajectories Examples.double) /\
  exists c',
    JoinedPendulum.Update (H := Reference.extern) Examples.settings Examples.double = Ok c' /\
    length (JoinedPendulum.pendulums c') = 2 /\
    length (JoinedPendulum.trajectories c') = 2.
Proof.
  split; [simpl; lia |].
  destruct (Update_keeps_the_shape (H := Reference.extern) Examples.settings Examples.double)
    as (c' & Hrun & Hlen & Hcap & _); [intros _; simpl; lia |].
  exists c'. auto.
Defined.


Lemma first_frame_without_trajectory_points_witness :
  2 <= N.to_nat (SimulationSettings.pendulumsJoined Scenes.noPoints) /\
  SimulationSettings.trajectoryPoints Scenes.noPoints = 0%N /\
  exists seeded,
    InitializePendulums (H := Reference.extern) Scenes.noPoints 0 = Ok seeded /\
    UpdatePendulums (H := Reference.extern) Scenes.noPoints seeded = Undefined.
Proof.
  split; [vm_compute; lia |]. split; [reflexivity |].
  apply (first_frame_without_trajectory_points (H := Reference.extern) Scenes.noPoints 0);
    [vm_compute; lia | reflexivity | vm_compute; lia].
Defined.

Lemma InitializePendulums_without_pendulums_witness :
  SimulationSettings.pendulumsJoined Scenes.noPendulums = 0%N /\
  InitializePendulums (H := Reference.extern) Scenes.noPendulums 0 = Undefined.
Proof.
  split; [reflexivity |].
  apply (InitializePendulums_without_pendulums (H := Reference.extern) Scenes.noPendulums 0);
    [reflexivity | vm_compute; lia].
Defined.


Lemma GetDivergence_after_InitializePendulums_witness :
  (2 * 3 < 2 ^ 24)%N /\ (2 + 1 < 2 * 3)%N /\
  exists pendulums,
    InitializePendulums (H := Reference.extern) Scenes.pairs 4 = Ok pendulums /\
    GetDivergence Scenes.pairs pendulums = Ok 0%float.
Proof.
  split; [reflexivity |]. split; [reflexivity |].
  apply (GetDivergence_after_InitializePendulums (H := Reference.extern) Scenes.pairs 4);
    [vm_compute; lia | reflexivity | reflexivity | vm_compute; reflexivity
    | vm_compute; reflexivity].
Defined.

Lemma trajectory_is_the_history_witness :
  2 <= length (JoinedPendulum.pendulums Examples.double) /\
  exists c3 c2,
    ticks (H := Reference.extern) Examples.settings 3 Examples.double = Ok c3 /\
    ticks (H := Reference.extern) Examples.settings 2 Examples.double = Ok c2 /\
    JoinedPendulum.trajectories c3 !! ((JoinedPendulum.trajectoryIndex c3 + 0) mod 2)
    = tip c2.
Proof.
  split; [simpl; lia |].
  destruct (trajectory_is_the_history (H := Reference.extern) Examples.settings
              Examples.double 3) as (c3 & Hrun & _ & Hhistory);
    [simpl; lia | simpl; lia |].
  destruct (Hhistory 0) as (c2 & Hc2 & _ & Hslot); [simpl; lia | simpl; lia |].
  exists c3, c2. auto.
Defined.





Lemma LoadSettings_false_keeps_the_reset_settings_witness :
  exists s',
    Settings.LoadSettings (H := Library.conversions) (Some (chars "gravity 5"))
      SimulationSettings.default = Ok (s', false, []) /\
    SimulationSettings.gravity s' = 5%float /\
    SimulationSettings.pendulumsJoined s' = 2%N /\
    SimulationSettings.pendulumLength s' = 150%float.
Proof.
  eexists. split; [vm_compute; reflexivity |]. split; [reflexivity |].
  destruct (LoadSettings_false_keeps_the_reset_settings (H := Library.conversions)
              (Some (chars "gravity 5")) SimulationSettings.default
              (SimulationSettings.mk 5 0.1666667 2.5 2 1000 50 150 10 10 100 2.5) [])
    as (Hjoined & _ & _ & Hlength & _); [vm_compute; reflexivity |].
  split; [exact Hjoined | exact Hlength].
Defined.

Lemma LoadSettings_reads_a_double_witness :
  Settings.LoadSettings (H := Library.conversions)
    (Some (chars "pendulumLength" ++ chars " " ++ chars "5")) SimulationSettings.default
  = Ok (Settings.set_pendulumLength 5 SimulationSettings.default, true, []).
Proof.
  rewrite <- (app_nil_l (chars "pendulumLength" ++ _)).
  rewrite <- (app_nil_r (chars "5")).
  rewrite (LoadSettings_reads_a_double (H := Library.conversions)
             [] (chars " ") [] (chars "pendulumLength") (chars "5")
             SimulationSettings.pendulumLength Settings.set_pendulumLength true).
  - reflexivity.
  - unfold doubleSettings. do 3 right. left.
  - constructor.
  - repeat constructor.
  - constructor.
  - discriminate.
  - split; reflexivity.
  - split; [discriminate | repeat constructor; discriminate].
  - discriminate.
Defined.

Lemma LoadSettings_reads_a_size_witness :
  Settings.LoadSettings (H := Library.conversions)
    (Some (chars "trajectoryPoints" ++ chars " " ++ chars "50")) SimulationSettings.default
  = Ok (SimulationSettings.default, false, []).
Proof.
  rewrite <- (app_nil_l (chars "trajectoryPoints" ++ _)).
  rewrite <- (app_nil_r (chars "50")).
  rewrite (LoadSettings_reads_a_size (H := Library.conversions)
             [] (chars " ") [] (chars "trajectoryPoints") (chars "50")
             SimulationSettings.trajectoryPoints Settings.set_trajectoryPoints).
  - reflexivity.
  - unfold sizeSettings. do 2 right. left.
  - constructor.
  - repeat constructor.
  - constructor.
  - discriminate.
  - split; reflexivity.
  - split; [discriminate | repeat constructor; discriminate].
  - discriminate.
Defined.

Lemma LoadSettings_reads_resetSamples_as_a_double_witness :
  Settings.LoadSettings (H := Library.conversions)
    (Some ([] ++ chars "resetSamples" ++ chars " " ++ chars "7" ++ []))
    SimulationSettings.default
  = Ok (Settings.set_resetSamples 7 SimulationSettings.default, false, []).
Proof.
  destruct (LoadSettings_reads_resetSamples_as_a_double (H := Library.conversions)
              [] (chars " ") [] (chars "7") SimulationSettings.default) as [Hline _].
  - constructor.
  - repeat constructor.
  - constructor.
  - discriminate.
  - split; reflexivity.
  - split; [discriminate | repeat constructor; discriminate].
  - discriminate.
  - rewrite Hline. vm_compute. reflexivity.
Defined.


Lemma LoadSettings_ignores_an_unknown_key_witness :
  Settings.LoadSettings (H := Library.conversions)
    (Some ([] ++ chars "pendulumColorValue" ++ chars " " ++ chars "1" ++ []))
    SimulationSettings.default
  = Ok (SimulationSettings.default, false, []).
Proof.
  apply (LoadSettings_ignores_an_unknown_key (H := Library.conversions)
           [] (chars " ") [] (chars "pendulumColorValue") (chars "1")).
  - constructor.
  - repeat constructor.
  - constructor.
  - discriminate.
  - split; reflexivity.
  - split; [discriminate | repeat constructor; discriminate].
  - split; [discriminate | repeat constructor; discriminate].
  - discriminate.
  - discriminate.
  - apply (bool_decide_unpack _). vm_compute. exact I.
Defined.

Lemma LoadSettings_skips_a_comment_witness :
  Settings.LoadSettings (H := Library.conversions)
    (Some (chars ";" ++ " "%char :: chars "gravity 5")) SimulationSettings.default
  = Ok (SimulationSettings.default, false, []).
Proof.
  apply (LoadSettings_skips_a_comment (H := Library.conversions)
           " "%char (chars "gravity 5") SimulationSettings.default).
  - left. reflexivity.
  - repeat constructor; discriminate.
Defined.

Lemma LoadSettings_composes_witness :
  Settings.LoadSettings (H := Library.conversions)
    (Some (chars "gravity x" ++ "010"%char :: chars "pendulumsJoined 3"))
    SimulationSettings.default
  = Ok (Settings.set_pendulumsJoined 3 SimulationSettings.default, true,
        [Settings.Error 1 "stod"]).
Proof.
  rewrite (LoadSettings_composes (H := Library.conversions)
             (chars "gravity x") (chars "pendulumsJoined 3")
             SimulationSettings.default SimulationSettings.default
             (Settings.set_pendulumsJoined 3 SimulationSettings.default)
             false true [Settings.Error 1 "stod"] []).
  - reflexivity.
  - vm_compute. reflexivity.
  - vm_compute. reflexivity.
Defined.

Lemma DrawTrajectory_is_defined_witness :
  (0 <= Color.a Scenes.white <= 255)%Z /\
  exists lines,
    Draw.DrawTrajectory (H := Library.power) Scenes.pairs Scenes.white Examples.doubleAfter3
    = Ok lines /\
    length lines <= 1.
Proof.
  split; [simpl; lia |].
  destruct (DrawTrajectory_is_defined (H := Library.power) Scenes.pairs Scenes.white
              Examples.doubleAfter3) as (lines & Hrun & Hlen & _).
  - simpl. lia.
  - intros i Hi. assert (i = 0) as -> by (simpl in Hi; lia). vm_compute. discriminate.
  - exists lines. split; [assumption | exact Hlen].
Defined.

Lemma DrawTrajectory_with_an_opacity_that_is_NaN_witness :
  Prim2SF (Draw.opacity (H := Library.power) Scenes.pairsNaN 2 0) = S754_nan /\
  Draw.DrawTrajectory (H := Library.power) Scenes.pairsNaN Scenes.white Examples.doubleAfter3
  = Undefined.
Proof.
  split; [vm_compute; reflexivity |].
  eapply (DrawTrajectory_with_an_opacity_that_is_NaN (H := Library.power) Scenes.pairsNaN
            Scenes.white Examples.doubleAfter3 0).
  - simpl. lia.
  - vm_compute. reflexivity.
  - vm_compute. reflexivity.
  - vm_compute. reflexivity.
  - vm_compute. reflexivity.
  - vm_compute. reflexivity.
Defined.

(** The run behind it: with the exponent 2, the one segment of the
    trajectory of [Examples.doubleAfter3] is drawn at the opacity
    (1/2)^2, alpha 63 of 255. *)
Lemma DrawTrajectory_of_two_points :
  exists line,
    Draw.DrawTrajectory (H := Library.power) Scenes.pairs Scenes.white Examples.doubleAfter3
    = Ok [line] /\
    color line = Color.mk 255 255 255 63.
Proof. eexists. split; vm_compute; reflexivity. Qed.
